(** * The Bentley-Ottmann overlay engine of the canvas library

    A shallow embedding of the sweep-event data model and of the functions
    [InResult], [mergeOverlapping], [SplitAt], [Reverse], [AddPathEndpoints],
    [compareOverlapsV], [compareTangentsV], [CompareV], [addIntersections],
    [splitAtIntersections] and [RayIntersections] of the Go source, with the
    properties the specification states about them.

    Conventions.
    - A Go [float64] is a [spec_float] of the Standard Library at precision
      53 and maximal exponent 1024, so that [==] and [<] are the IEEE
      comparisons (a NaN is different from itself, both zeros are equal).
    - A Go [int] is a [Z] kept in the 64-bit signed range by [wrap64].
    - A [*SweepPoint] is an address into a store [gmap ptr SweepPoint]; the
      nil pointer is [None].  Functions that dereference pointers or that can
      panic return an [outcome] together with the state reached. *)

From Stdlib Require Import ZArith List Bool Ascii String Lia.
From Stdlib Require Import Floats.SpecFloat.
From stdpp Require Import base option list gmap.

Local Open Scope Z_scope.

(* ===================================================================== *)
(** ** Machine numbers *)
(* ===================================================================== *)

(** Go's [int] on the 64-bit targets the library is built for. *)
Definition wrap64 (z : Z) : Z := (z + 2 ^ 63) mod 2 ^ 64 - 2 ^ 63.

Definition int_add (a b : Z) : Z := wrap64 (a + b).

(** Go's [float64]. *)
Definition float64 : Type := spec_float.

Definition prec64 : Z := 53.
Definition emax64 : Z := 1024.

Definition feq (a b : float64) : bool := SFeqb a b.
Definition fne (a b : float64) : bool := negb (SFeqb a b).
Definition flt (a b : float64) : bool := SFltb a b.
Definition fle (a b : float64) : bool := SFleb a b.
Definition fadd (a b : float64) : float64 := SFadd prec64 emax64 a b.
Definition fsub (a b : float64) : float64 := SFsub prec64 emax64 a b.
Definition fmul (a b : float64) : float64 := SFmul prec64 emax64 a b.
Definition fdiv (a b : float64) : float64 := SFdiv prec64 emax64 a b.

(** The float64 nearest to an integer, for writing literals. *)
Definition fZ (z : Z) : float64 := binary_normalize prec64 emax64 z 0 false.

Definition fNaN : float64 := S754_nan.

(** [math.IsNaN] and [math.IsInf(f, 0)]. *)
Definition IsNaN (f : float64) : bool :=
  match f with S754_nan => true | _ => false end.

Definition IsInf (f : float64) : bool :=
  match f with S754_infinity _ => true | _ => false end.

(** [math.Min] and [math.Max]: a NaN operand gives NaN, an infinite operand of
    the right sign wins, and the zeros are ordered [-0 < +0]. *)
Definition fmin (a b : float64) : float64 :=
  match a, b with
  | S754_infinity true, _ | _, S754_infinity true => S754_infinity true
  | S754_nan, _ | _, S754_nan => S754_nan
  | S754_zero sa, S754_zero sb => S754_zero (sa || sb)
  | _, _ => if flt a b then a else b
  end.

Definition fmax (a b : float64) : float64 :=
  match a, b with
  | S754_infinity false, _ | _, S754_infinity false => S754_infinity false
  | S754_nan, _ | _, S754_nan => S754_nan
  | S754_zero sa, S754_zero sb => S754_zero (sa && sb)
  | _, _ => if flt b a then a else b
  end.

(* ===================================================================== *)
(** ** Points, operations and fill rules *)
(* ===================================================================== *)

Record Point : Type := mkPoint { X : float64; Y : float64 }.

(** Go's [==] and [!=] on the struct [Point]: field by field. *)
Definition point_eq (p q : Point) : bool := feq (X p) (X q) && feq (Y p) (Y q).
Definition point_ne (p q : Point) : bool := negb (point_eq p q).

Inductive pathOp : Type := opSettle | opAND | opOR | opNOT | opXOR | opDIV.

Inductive FillRule : Type := NonZero | EvenOdd.

(** Modelled from the spec: [FillRule.Fills] is declared outside the files at
    hand; the specification gives it as "NonZero iff count is not 0; EvenOdd
    iff count odd". *)
Definition Fills (fillRule : FillRule) (windings : Z) : bool :=
  match fillRule with
  | NonZero => negb (windings =? 0)
  | EvenOdd => Z.odd windings
  end.

(* ===================================================================== *)
(** ** Sweep events *)
(* ===================================================================== *)

Definition ptr : Type := nat.

(** The struct [SweepPoint].  [pt] is the embedded [Point]; [end_] and
    [left_] are the fields [end] and [left]; [node] keeps only the address of
    the status node. *)
Record SweepPoint : Type := mkSweepPoint {
  pt : Point;
  other : option ptr;
  segment : Z;
  node : option ptr;
  windings : Z;
  otherWindings : Z;
  selfWindings : Z;
  otherSelfWindings : Z;
  prev : option ptr;
  square : Z;
  resultWindings : Z;
  clipping : bool;
  open : bool;
  end_ : bool;
  left_ : bool;
  vertical : bool;
  increasing : bool;
  overlapped : bool;
  inResult : Z;
  index : Z
}.

(** The zero value of the struct, what [SweepPoint{...}] starts from. *)
Definition zeroPoint : Point := mkPoint (S754_zero false) (S754_zero false).

Definition zeroSweepPoint : SweepPoint :=
  mkSweepPoint zeroPoint None 0 None 0 0 0 0 None 0 0
               false false false false false false false 0 0.

(** Field updates, one per field the code assigns. *)
Definition set_pt (v : Point) (s : SweepPoint) : SweepPoint :=
  mkSweepPoint v (other s) (segment s) (node s) (windings s) (otherWindings s)
    (selfWindings s) (otherSelfWindings s) (prev s) (square s) (resultWindings s)
    (clipping s) (open s) (end_ s) (left_ s) (vertical s) (increasing s)
    (overlapped s) (inResult s) (index s).
Definition set_other (v : option ptr) (s : SweepPoint) : SweepPoint :=
  mkSweepPoint (pt s) v (segment s) (node s) (windings s) (otherWindings s)
    (selfWindings s) (otherSelfWindings s) (prev s) (square s) (resultWindings s)
    (clipping s) (open s) (end_ s) (left_ s) (vertical s) (increasing s)
    (overlapped s) (inResult s) (index s).
Definition set_node (v : option ptr) (s : SweepPoint) : SweepPoint :=
  mkSweepPoint (pt s) (other s) (segment s) v (windings s) (otherWindings s)
    (selfWindings s) (otherSelfWindings s) (prev s) (square s) (resultWindings s)
    (clipping s) (open s) (end_ s) (left_ s) (vertical s) (increasing s)
    (overlapped s) (inResult s) (index s).
Definition set_windings (v : Z) (s : SweepPoint) : SweepPoint :=
  mkSweepPoint (pt s) (other s) (segment s) (node s) v (otherWindings s)
    (selfWindings s) (otherSelfWindings s) (prev s) (square s) (resultWindings s)
    (clipping s) (open s) (end_ s) (left_ s) (vertical s) (increasing s)
    (overlapped s) (inResult s) (index s).
Definition set_otherWindings (v : Z) (s : SweepPoint) : SweepPoint :=
  mkSweepPoint (pt s) (other s) (segment s) (node s) (windings s) v
    (selfWindings s) (otherSelfWindings s) (prev s) (square s) (resultWindings s)
    (clipping s) (open s) (end_ s) (left_ s) (vertical s) (increasing s)
    (overlapped s) (inResult s) (index s).
Definition set_selfWindings (v : Z) (s : SweepPoint) : SweepPoint :=
  mkSweepPoint (pt s) (other s) (segment s) (node s) (windings s) (otherWindings s)
    v (otherSelfWindings s) (prev s) (square s) (resultWindings s)
    (clipping s) (open s) (end_ s) (left_ s) (vertical s) (increasing s)
    (overlapped s) (inResult s) (index s).
Definition set_otherSelfWindings (v : Z) (s : SweepPoint) : SweepPoint :=
  mkSweepPoint (pt s) (other s) (segment s) (node s) (windings s) (otherWindings s)
    (selfWindings s) v (prev s) (square s) (resultWindings s)
    (clipping s) (open s) (end_ s) (left_ s) (vertical s) (increasing s)
    (overlapped s) (inResult s) (index s).
Definition set_prev (v : option ptr) (s : SweepPoint) : SweepPoint :=
  mkSweepPoint (pt s) (other s) (segment s) (node s) (windings s) (otherWindings s)
    (selfWindings s) (otherSelfWindings s) v (square s) (resultWindings s)
    (clipping s) (open s) (end_ s) (left_ s) (vertical s) (increasing s)
    (overlapped s) (inResult s) (index s).
Definition set_end (v : bool) (s : SweepPoint) : SweepPoint :=
  mkSweepPoint (pt s) (other s) (segment s) (node s) (windings s) (otherWindings s)
    (selfWindings s) (otherSelfWindings s) (prev s) (square s) (resultWindings s)
    (clipping s) (open s) v (left_ s) (vertical s) (increasing s)
    (overlapped s) (inResult s) (index s).
Definition set_left (v : bool) (s : SweepPoint) : SweepPoint :=
  mkSweepPoint (pt s) (other s) (segment s) (node s) (windings s) (otherWindings s)
    (selfWindings s) (otherSelfWindings s) (prev s) (square s) (resultWindings s)
    (clipping s) (open s) (end_ s) v (vertical s) (increasing s)
    (overlapped s) (inResult s) (index s).
Definition set_increasing (v : bool) (s : SweepPoint) : SweepPoint :=
  mkSweepPoint (pt s) (other s) (segment s) (node s) (windings s) (otherWindings s)
    (selfWindings s) (otherSelfWindings s) (prev s) (square s) (resultWindings s)
    (clipping s) (open s) (end_ s) (left_ s) (vertical s) v
    (overlapped s) (inResult s) (index s).
Definition set_overlapped (v : bool) (s : SweepPoint) : SweepPoint :=
  mkSweepPoint (pt s) (other s) (segment s) (node s) (windings s) (otherWindings s)
    (selfWindings s) (otherSelfWindings s) (prev s) (square s) (resultWindings s)
    (clipping s) (open s) (end_ s) (left_ s) (vertical s) (increasing s)
    v (inResult s) (index s).
Definition set_inResult (v : Z) (s : SweepPoint) : SweepPoint :=
  mkSweepPoint (pt s) (other s) (segment s) (node s) (windings s) (otherWindings s)
    (selfWindings s) (otherSelfWindings s) (prev s) (square s) (resultWindings s)
    (clipping s) (open s) (end_ s) (left_ s) (vertical s) (increasing s)
    (overlapped s) v (index s).

(** *** InResult *)

Definition InResult (s : SweepPoint) (op : pathOp) (fillRule : FillRule) : Z :=
  let lowerWindings := windings s in
  let lowerOtherWindings := otherWindings s in
  let upperWindings := int_add (windings s) (selfWindings s) in
  let upperOtherWindings := int_add (otherWindings s) (otherSelfWindings s) in
  let '(lowerWindings, lowerOtherWindings, upperWindings, upperOtherWindings) :=
    if clipping s
    then (lowerOtherWindings, lowerWindings, upperOtherWindings, upperWindings)
    else (lowerWindings, lowerOtherWindings, upperWindings, upperOtherWindings) in
  if open s then
    (* handle open paths on the subject *)
    match op with
    | opSettle | opOR | opDIV => 1
    | opAND =>
        if Fills fillRule lowerOtherWindings || Fills fillRule upperOtherWindings
        then 1 else 0
    | opNOT | opXOR =>
        if negb (Fills fillRule lowerOtherWindings)
           || negb (Fills fillRule upperOtherWindings)
        then 1 else 0
    end
  else
    (* only keep edge if there is a change in filling between both sides *)
    let keep (belowFills aboveFills : bool) : Z :=
      if negb (eqb belowFills aboveFills) then 1 else 0 in
    match op with
    | opSettle =>
        keep (Fills fillRule lowerWindings) (Fills fillRule upperWindings)
    | opAND =>
        keep (Fills fillRule lowerWindings && Fills fillRule lowerOtherWindings)
             (Fills fillRule upperWindings && Fills fillRule upperOtherWindings)
    | opOR =>
        keep (Fills fillRule lowerWindings || Fills fillRule lowerOtherWindings)
             (Fills fillRule upperWindings || Fills fillRule upperOtherWindings)
    | opNOT =>
        keep (Fills fillRule lowerWindings
              && negb (Fills fillRule lowerOtherWindings))
             (Fills fillRule upperWindings
              && negb (Fills fillRule upperOtherWindings))
    | opXOR =>
        keep (negb (eqb (Fills fillRule lowerWindings)
                        (Fills fillRule lowerOtherWindings)))
             (negb (eqb (Fills fillRule upperWindings)
                        (Fills fillRule upperOtherWindings)))
    | opDIV =>
        let belowFills := Fills fillRule lowerWindings in
        let aboveFills := Fills fillRule upperWindings in
        if belowFills && aboveFills then 2
        else if belowFills || aboveFills then 1
        else 0
    end.

(** *** The fill status of the two inputs on either side of a segment

    An event stores the winding counts of its own input and of the other
    input below the segment, and what the segment adds to each; which input
    is the subject depends on [clipping]. *)

Definition subjectBelow (s : SweepPoint) : Z :=
  if clipping s then otherWindings s else windings s.
Definition subjectAbove (s : SweepPoint) : Z :=
  if clipping s then int_add (otherWindings s) (otherSelfWindings s)
  else int_add (windings s) (selfWindings s).
Definition clippingBelow (s : SweepPoint) : Z :=
  if clipping s then windings s else otherWindings s.
Definition clippingAbove (s : SweepPoint) : Z :=
  if clipping s then int_add (windings s) (selfWindings s)
  else int_add (otherWindings s) (otherSelfWindings s).

(* ===================================================================== *)
(** ** The store and the monad of the engine *)
(* ===================================================================== *)

(** The events allocated so far, the event queue (a binary heap kept in a
    slice) and the warnings printed. *)
Record state : Type := mkState {
  heap : gmap ptr SweepPoint;
  queue : list ptr;
  warnings : list string
}.

Definition set_heap (h : gmap ptr SweepPoint) (st : state) : state :=
  mkState h (queue st) (warnings st).
Definition set_queue (q : list ptr) (st : state) : state :=
  mkState (heap st) q (warnings st).

(** How a call ends: it returns, it panics, or the model ran out of fuel. *)
Inductive outcome (A : Type) : Type :=
| Ret (a : A)
| Panic (msg : string)
| OutOfFuel.
Arguments Ret {A} a.
Arguments Panic {A} msg.
Arguments OutOfFuel {A}.

(** A computation threads the state; the state reached at a panic is kept. *)
Definition M (A : Type) : Type := state -> outcome A * state.

Definition ret {A} (a : A) : M A := fun st => (Ret a, st).
Definition bind {A B} (m : M A) (k : A -> M B) : M B :=
  fun st =>
    match m st with
    | (Ret a, st') => k a st'
    | (Panic msg, st') => (Panic msg, st')
    | (OutOfFuel, st') => (OutOfFuel, st')
    end.
Definition panic {A} (msg : string) : M A := fun st => (Panic msg, st).
Definition outOfFuel {A} : M A := fun st => (OutOfFuel, st).

#[export] Instance M_ret : MRet M := @ret.
#[export] Instance M_bind : MBind M := fun A B k m => bind m k.

Definition nilDeref : string :=
  "invalid memory address or nil pointer dereference".

(** Reading and writing through a pointer. *)
Definition nonnil (p : option ptr) : M ptr :=
  match p with Some a => ret a | None => panic nilDeref end.

Definition load (p : ptr) : M SweepPoint :=
  fun st =>
    match heap st !! p with
    | Some v => (Ret v, st)
    | None => (Panic nilDeref, st)
    end.

Definition update (p : ptr) (f : SweepPoint -> SweepPoint) : M unit :=
  fun st =>
    match heap st !! p with
    | Some v => (Ret tt, set_heap (<[p := f v]> (heap st)) st)
    | None => (Panic nilDeref, st)
    end.

(** [boPointPool.Get()]: an event that is not in use.  Its content is
    overwritten by every caller before it is read. *)
Definition Get : M ptr :=
  fun st =>
    let p := fresh (dom (heap st)) in
    (Ret p, set_heap (<[p := zeroSweepPoint]> (heap st)) st).

Definition warn (msg : string) : M unit :=
  fun st => (Ret tt, mkState (heap st) (queue st) (warnings st ++ [msg])).

Definition getState : M state := fun st => (Ret st, st).

Definition modifyQueue (f : list ptr -> list ptr) : M unit :=
  fun st => (Ret tt, set_queue (f (queue st)) st).

(* ===================================================================== *)
(** ** Splitting and reversing a segment *)
(* ===================================================================== *)

(** [SplitAt]: the segment [s .. s.other] becomes [s .. r] and [l .. s.other],
    with [r] and [l] two new events at [z]. *)
Definition SplitAt (s : ptr) (z : Point) : M (ptr * ptr) :=
  r ← Get;
  l ← Get;
  (* *r, *l = *s.other, *s *)
  sv ← load s;
  o ← nonnil (other sv);
  ov ← load o;
  update r (fun _ => ov);;
  update l (fun _ => sv);;
  (* r.Point, l.Point = z, z *)
  update r (set_pt z);;
  update l (set_pt z);;
  (* r.end, l.end = false, false *)
  update r (set_end false);;
  update l (set_end false);;
  (* r.other, s.other.other = s, l *)
  sv ← load s;
  o ← nonnil (other sv);
  update r (set_other (Some s));;
  update o (set_other (Some l));;
  (* l.other, s.other = s.other, r *)
  sv ← load s;
  update l (set_other (other sv));;
  update s (set_other (Some r));;
  (* l.node = nil *)
  update l (set_node None);;
  ret (r, l).

(** [Reverse]: swap the roles of the two endpoints of a segment. *)
Definition Reverse (s : ptr) : M unit :=
  (* s.left, s.other.left = !s.left, s.left *)
  sv ← load s;
  update s (set_left (negb (left_ sv)));;
  o ← nonnil (other sv);
  update o (set_left (left_ sv));;
  (* s.increasing, s.other.increasing = !s.increasing, !s.other.increasing *)
  sv ← load s;
  o ← nonnil (other sv);
  ov ← load o;
  update s (set_increasing (negb (increasing sv)));;
  update o (set_increasing (negb (increasing ov))).

(* ===================================================================== *)
(** ** Merging overlapping segments *)
(* ===================================================================== *)

(** The test that ends the walk down the [prev] chain:
    [prev.overlapped || s.Point != prev.Point
     || s.other.Point != prev.other.Point]. *)
Definition mergeBreak (s p : ptr) : M bool :=
  pv ← load p;
  if overlapped pv then ret true
  else
    sv ← load s;
    if point_ne (pt sv) (pt pv) then ret true
    else
      so ← nonnil (other sv);
      sov ← load so;
      po ← nonnil (other pv);
      pov ← load po;
      ret (point_ne (pt sov) (pt pov)).

(** One turn of the loop on a predecessor [p] that overlaps [s]. *)
Definition mergeStep (s p : ptr) : M unit :=
  sv ← load s;
  pv ← load p;
  (if eqb (clipping sv) (clipping pv) then
     update s (set_selfWindings (int_add (selfWindings sv) (selfWindings pv)));;
     sv ← load s;
     pv ← load p;
     update s (set_otherSelfWindings
                 (int_add (otherSelfWindings sv) (otherSelfWindings pv)))
   else
     update s (set_selfWindings (int_add (selfWindings sv) (otherSelfWindings pv)));;
     sv ← load s;
     pv ← load p;
     update s (set_otherSelfWindings
                 (int_add (otherSelfWindings sv) (selfWindings pv))));;
  update p (set_windings 0);;
  update p (set_selfWindings 0);;
  update p (set_otherWindings 0);;
  update p (set_otherSelfWindings 0);;
  pv ← load p;
  update p (set_inResult 0);;
  po ← nonnil (other pv);
  update po (set_inResult 0);;
  update p (set_overlapped true).

(** [for ; prev != nil; prev = prev.prev]: the value of [prev] on leaving. *)
Fixpoint mergeLoop (fuel : nat) (s : ptr) (p : option ptr) : M (option ptr) :=
  match p with
  | None => ret None
  | Some a =>
      match fuel with
      | O => outOfFuel
      | S fuel' =>
          brk ← mergeBreak s a;
          if brk : bool then ret (Some a)
          else
            mergeStep s a;;
            av ← load a;
            mergeLoop fuel' s (prev av)
      end
  end.

(** The merged windings, taken from the first segment below the overlap. *)
Definition mergedWindings (s : ptr) (p : option ptr) : M unit :=
  match p with
  | None =>
      update s (set_windings 0);;
      update s (set_otherWindings 0)
  | Some a =>
      sv ← load s;
      pv ← load a;
      if eqb (clipping sv) (clipping pv) then
        update s (set_windings (int_add (windings pv) (selfWindings pv)));;
        pv ← load a;
        update s (set_otherWindings
                    (int_add (otherWindings pv) (otherSelfWindings pv)))
      else
        update s (set_windings (int_add (otherWindings pv) (otherSelfWindings pv)));;
        pv ← load a;
        update s (set_otherWindings (int_add (windings pv) (selfWindings pv)))
  end.

(** Every turn of the loop marks one more event as overlapped, so the
    number of events bounds the number of turns. *)
Definition mergeOverlapping (s : ptr) (op : pathOp) (fillRule : FillRule)
  : M unit :=
  sv ← load s;
  if overlapped sv then ret tt (* already handled *)
  else
    st ← getState;
    p ← mergeLoop (S (size (heap st))) s (prev sv);
    sv ← load s;
    if decide (p = prev sv) then ret tt
    else
      mergedWindings s p;;
      sv ← load s;
      update s (set_inResult (InResult sv op fillRule));;
      sv ← load s;
      so ← nonnil (other sv);
      update so (set_inResult (inResult sv));;
      update s (set_prev p).

(* ===================================================================== *)
(** ** Comparators, the event queue and the intersections of two segments *)
(* ===================================================================== *)

Section Sweep.

(** Declared outside the files at hand and taken as parameters:
    [Point.Interpolate] and the intersection primitive
    [intersectionLineLineBentleyOttmann], which appends to [zs] the
    intersections of the segments [a0 a1] and [b0 b1]. *)
Variable Interpolate : Point -> Point -> float64 -> Point.
Variable intersectionLineLineBentleyOttmann :
  list Point -> Point -> Point -> Point -> Point -> list Point.

Definition InterpolateY (s : ptr) (x : float64) : M float64 :=
  sv ← load s;
  o ← nonnil (other sv);
  ov ← load o;
  let t := fdiv (fsub x (X (pt sv))) (fsub (X (pt ov)) (X (pt sv))) in
  ret (Y (Interpolate (pt sv) (pt ov) t)).

(** Compare segments vertically that overlap (ie. are the same). *)
Definition compareOverlapsV (a b : ptr) : M Z :=
  av ← load a;
  bv ← load b;
  if negb (eqb (clipping av) (clipping bv)) then
    (* for equal segments, clipping path is virtually on top of subject *)
    if clipping bv then ret (-1) else ret 1
  else if negb (segment av =? segment bv) then
    (* equal segment on same path, sort by segment index *)
    if segment av <? segment bv then ret (-1) else ret 1
  else ret 0.

Definition signed (sign : Z) (m : M Z) : M Z := c ← m; ret (sign * c).

Definition compareTangentsV (a b : ptr) : M Z :=
  av ← load a;
  bv ← load b;
  let sign := if left_ av then 1 else -1 in
  if vertical av then
    if vertical bv then
      if feq (Y (pt av)) (Y (pt bv)) then signed sign (compareOverlapsV a b)
      else if flt (Y (pt av)) (Y (pt bv)) then ret (-1)
      else ret 1
    else ret 1
  else if vertical bv then ret (-1)
  else
    ao ← nonnil (other av);
    aov ← load ao;
    bo ← nonnil (other bv);
    bov ← load bo;
    if feq (X (pt aov)) (X (pt bov)) && feq (Y (pt aov)) (Y (pt bov)) then
      signed sign (compareOverlapsV a b)
    else if left_ av && flt (X (pt aov)) (X (pt bov))
            || negb (left_ av) && flt (X (pt bov)) (X (pt aov)) then
      by_ ← InterpolateY b (X (pt aov));
      if feq (Y (pt aov)) by_ then signed sign (compareOverlapsV a b)
      else if flt (Y (pt aov)) by_ then ret (sign * -1)
      else ret (sign * 1)
    else
      ay ← InterpolateY a (X (pt bov));
      if feq ay (Y (pt bov)) then signed sign (compareOverlapsV a b)
      else if flt ay (Y (pt bov)) then ret (sign * -1)
      else ret (sign * 1).

(** Compare segments vertically at [a.X], with [b.X < a.X]. *)
Definition compareV (a b : ptr) : M Z :=
  av ← load a;
  by_ ← InterpolateY b (X (pt av));
  if feq (Y (pt av)) by_ then compareTangentsV a b
  else if flt (Y (pt av)) by_ then ret (-1)
  else ret 1.

(** The order of the sweep status; [a] is the point to be inserted or found. *)
Definition CompareV (a b : ptr) : M Z :=
  av ← load a;
  bv ← load b;
  if feq (X (pt av)) (X (pt bv)) then
    if feq (Y (pt av)) (Y (pt bv)) then compareTangentsV a b
    else if flt (Y (pt av)) (Y (pt bv)) then ret (-1)
    else ret 1
  else if flt (X (pt av)) (X (pt bv)) then
    c ← compareV b a;
    ret (- c)
  else compareV a b.

(** The order of the sweep queue. *)
Definition LessH (a b : ptr) : M bool :=
  av ← load a;
  bv ← load b;
  if fne (X (pt av)) (X (pt bv)) then ret (flt (X (pt av)) (X (pt bv)))
  else if fne (Y (pt av)) (Y (pt bv)) then ret (flt (Y (pt av)) (Y (pt bv)))
  else if negb (eqb (left_ av) (left_ bv)) then ret (left_ bv)
  else
    c ← compareTangentsV a b;
    ret (c <? 0).

(** *** The queue: a binary heap in a slice *)

Definition indexOutOfRange : string := "index out of range".

Definition qindex (i : Z) : M ptr :=
  fun st =>
    if i <? 0 then (Panic indexOutOfRange, st)
    else match queue st !! Z.to_nat i with
         | Some e => (Ret e, st)
         | None => (Panic indexOutOfRange, st)
         end.

Definition Less (i j : Z) : M bool :=
  qi ← qindex i;
  qj ← qindex j;
  LessH qi qj.

Definition Swap (i j : Z) : M unit :=
  qj ← qindex j;
  qi ← qindex i;
  modifyQueue (fun q => <[Z.to_nat j := qi]> (<[Z.to_nat i := qj]> q)).

Fixpoint up (fuel : nat) (j : Z) : M unit :=
  match fuel with
  | O => outOfFuel
  | S fuel' =>
      let i := Z.quot (j - 1) 2 in (* parent *)
      if i =? j then ret tt
      else
        l ← Less j i;
        if negb l then ret tt
        else Swap i j;; up fuel' i
  end.

Definition Push (item : ptr) : M unit :=
  modifyQueue (fun q => q ++ [item]);;
  st ← getState;
  up (S (length (queue st))) (Z.of_nat (length (queue st)) - 1).

(** *** Splitting at the intersections *)





(** *** addIntersections *)





End Sweep.

(* ===================================================================== *)
(** ** Paths *)
(* ===================================================================== *)

(** The data [p.d] of a path: a flat stream of commands, each command code
    followed by its arguments and repeated at the end. *)
Abbreviation Path := (list float64).

Definition nanOrInf : string := "path has NaN or Inf".
Definition nonFlat : string := "non-flat paths not supported".
Definition invalidClose : string := "invalid close command in path".

Definition notFinite (p : Point) : bool :=
  IsNaN (X p) || IsInf (X p) || IsNaN (Y p) || IsInf (Y p).

(** [p.d[i]]; an index out of range panics. *)
Definition at_ (d : Path) (i : nat) : M float64 :=
  match d !! i with
  | Some f => ret f
  | None => panic indexOutOfRange
  end.

Section Paths.

(** Declared outside the files at hand and taken as parameters: the codes of
    the commands, the length [cmdLen] of a command and [Path.Closed]. *)
Variables LineToCmd CloseCmd : float64.
Variable cmdLen : float64 -> nat.
Variable Closed : Path -> bool.

(** The two events of the segment [start .. end], as [AddPathEndpoints]
    fills them in. *)
Definition newEndpoint (p : Point) (clipping open end_ : bool) (seg : Z)
    (left increasing vertical : bool) : SweepPoint :=
  mkSweepPoint p None seg None 0 0 0 0 None 0 0
               clipping open end_ left vertical increasing false 0 0.

(** [for i := 4; i < len(p.d); ...]. *)
Fixpoint addLoop (fuel : nat) (d : Path) (clipping open : bool)
    (i : nat) (seg : Z) (start : Point) : M Z :=
  if negb (i <? length d)%nat then ret seg
  else
    match fuel with
    | O => outOfFuel
    | S fuel' =>
        cmd ← at_ d i;
        if fne cmd LineToCmd && fne cmd CloseCmd then panic nonFlat
        else
          bad ← (if feq cmd CloseCmd then
                   lastX ← at_ d (length d - 3);
                   x0 ← at_ d 1;
                   if fne lastX x0 then ret true
                   else
                     lastY ← at_ d (length d - 2);
                     y0 ← at_ d 2;
                     ret (fne lastY y0)
                 else ret false);
          if bad : bool then panic invalidClose
          else
            let n := cmdLen cmd in
            ex ← at_ d (i + n - 3);
            ey ← at_ d (i + n - 2);
            let end_p := mkPoint ex ey in
            if notFinite end_p then panic nanOrInf
            else
              let i := (i + n)%nat in
              let seg := int_add seg 1 in
              if point_eq start end_p then
                (* skip zero-length lineTo or close command *)
                addLoop fuel' d clipping open i seg start
              else
                let vertical := feq (X start) (X end_p) in
                let increasing :=
                  if vertical then flt (Y start) (Y end_p)
                  else flt (X start) (X end_p) in
                a ← Get;
                b ← Get;
                update a (fun _ =>
                  newEndpoint start clipping open (open && (i =? 4 + n)%nat)
                              seg increasing increasing vertical);;
                update b (fun _ =>
                  newEndpoint end_p clipping open (open && (i =? length d)%nat)
                              seg (negb increasing) increasing vertical);;
                update a (set_other (Some b));;
                update b (set_other (Some a));;
                modifyQueue (fun q => q ++ [a; b]);;
                addLoop fuel' d clipping open i seg end_p
    end.

(** [AddPathEndpoints] adds all line segments of [p] to the queue.  Growing
    the capacity of the queue beforehand changes none of its elements and is
    left out. *)
Definition AddPathEndpoints (d : Path) (seg : Z) (clipping : bool) : M Z :=
  if (length d =? 0)%nat then ret seg
  else
    let open := negb (Closed d) in
    x0 ← at_ d 1;
    y0 ← at_ d 2;
    let start := mkPoint x0 y0 in
    if notFinite start then panic nanOrInf
    else
      coincide ← (if open then
                    lastX ← at_ d (length d - 3);
                    if feq lastX x0 then
                      lastY ← at_ d (length d - 2);
                      ret (feq lastY y0)
                    else ret false
                  else ret false);
      (* start and end points coincide, consider path closed *)
      let open := if coincide : bool then false else open in
      addLoop (length d) d clipping open 4 seg start.

End Paths.

(* ===================================================================== *)
(** ** Intersections of a path with a ray *)
(* ===================================================================== *)

(** Modelled from the spec: the struct [Intersection] is declared outside the
    files at hand; the specification gives the entries of the result of
    [ray_intersections] as a position with the parameter [T] along the ray.
    [RayIntersections] reads its embedded [Point] and the first entry of its
    array [T], the parameters of the intersection along the two segments;
    [Tangent] tells a touching intersection from a crossing one. *)
Record Intersection : Type := mkIntersection {
  ipt : Point;
  T : float64 * float64;
  Tangent : bool
}.

Definition set_T0 (v : float64) (z : Intersection) : Intersection :=
  mkIntersection (ipt z) (v, snd (T z)) (Tangent z).

(** [sort.SliceStable] on a slice of at most twenty elements is the
    insertion sort of the Go library: each element in turn moves down while
    it is less than the one before it.  [insertBack] works on the reversed
    prefix. *)
Fixpoint insertBack {A} (less : A -> A -> bool) (x : A) (rprefix : list A)
  : list A :=
  match rprefix with
  | [] => [x]
  | p :: rest =>
      if less x p then p :: insertBack less x rest else x :: p :: rest
  end.

Definition SliceStable {A} (less : A -> A -> bool) (l : list A) : list A :=
  rev (fold_left (fun rprefix x => insertBack less x rprefix) l []).

Section Ray.

(** Declared outside the files at hand and taken as parameters: the codes of
    the commands and [cmdLen], the tolerance [Epsilon] with the tests
    [Interval] and [Equal], and the intersections of a line with a line, a
    quadratic or cubic Bezier and an elliptical arc. *)
Variables MoveToCmd LineToCmd QuadToCmd CubeToCmd ArcToCmd CloseCmd : float64.
Variable cmdLen : float64 -> nat.
Variable Epsilon : float64.
Variable Interval : float64 -> float64 -> float64 -> bool.
Variable Equal : float64 -> float64 -> bool.
Variable intersectionLineLine :
  list Intersection -> Point -> Point -> Point -> Point -> list Intersection.
Variable intersectionLineQuad :
  list Intersection -> Point -> Point -> Point -> Point -> Point ->
  list Intersection.
Variable intersectionLineCube :
  list Intersection -> Point -> Point -> Point -> Point -> Point -> Point ->
  list Intersection.
Variable intersectionLineEllipse :
  list Intersection -> Point -> Point -> Point -> Point ->
  float64 -> float64 -> float64 -> list Intersection.
Variable toArcFlags : float64 -> bool * bool.
Variable ellipseToCenter :
  float64 -> float64 -> float64 -> float64 -> float64 -> bool -> bool ->
  float64 -> float64 -> float64 * float64 * float64 * float64.

(** One command of the path: the new [end] and the intersections so far. *)
Definition rayCmd (d : Path) (x y : float64) (i : nat) (cmd : float64)
    (start end_p : Point) (zs : list Intersection)
  : M (Point * list Intersection) :=
  if feq cmd MoveToCmd then
    ex ← at_ d (i + 1);
    ey ← at_ d (i + 2);
    ret (mkPoint ex ey, zs)
  else if feq cmd LineToCmd || feq cmd CloseCmd then
    ex ← at_ d (i + 1);
    ey ← at_ d (i + 2);
    let end_p := mkPoint ex ey in
    let ymin := fmin (Y start) (Y end_p) in
    let ymax := fmax (Y start) (Y end_p) in
    let xmax := fmax (X start) (X end_p) in
    if Interval y ymin ymax && fle x (fadd xmax Epsilon) then
      ret (end_p,
           intersectionLineLine zs (mkPoint x y) (mkPoint (fadd xmax (fZ 1)) y)
                                start end_p)
    else ret (end_p, zs)
  else if feq cmd QuadToCmd then
    cx ← at_ d (i + 1);
    cy ← at_ d (i + 2);
    let cp := mkPoint cx cy in
    ex ← at_ d (i + 3);
    ey ← at_ d (i + 4);
    let end_p := mkPoint ex ey in
    let ymin := fmin (fmin (Y start) (Y end_p)) (Y cp) in
    let ymax := fmax (fmax (Y start) (Y end_p)) (Y cp) in
    let xmax := fmax (fmax (X start) (X end_p)) (X cp) in
    if Interval y ymin ymax && fle x (fadd xmax Epsilon) then
      ret (end_p,
           intersectionLineQuad zs (mkPoint x y) (mkPoint (fadd xmax (fZ 1)) y)
                                start cp end_p)
    else ret (end_p, zs)
  else if feq cmd CubeToCmd then
    c1x ← at_ d (i + 1);
    c1y ← at_ d (i + 2);
    let cp1 := mkPoint c1x c1y in
    c2x ← at_ d (i + 3);
    c2y ← at_ d (i + 4);
    let cp2 := mkPoint c2x c2y in
    ex ← at_ d (i + 5);
    ey ← at_ d (i + 6);
    let end_p := mkPoint ex ey in
    let ymin := fmin (fmin (Y start) (Y end_p)) (fmin (Y cp1) (Y cp2)) in
    let ymax := fmax (fmax (Y start) (Y end_p)) (fmax (Y cp1) (Y cp2)) in
    let xmax := fmax (fmax (X start) (X end_p)) (fmax (X cp1) (X cp2)) in
    if Interval y ymin ymax && fle x (fadd xmax Epsilon) then
      ret (end_p,
           intersectionLineCube zs (mkPoint x y) (mkPoint (fadd xmax (fZ 1)) y)
                                start cp1 cp2 end_p)
    else ret (end_p, zs)
  else if feq cmd ArcToCmd then
    rx ← at_ d (i + 1);
    ry ← at_ d (i + 2);
    phi ← at_ d (i + 3);
    flags ← at_ d (i + 4);
    let '(large, sweep) := toArcFlags flags in
    ex ← at_ d (i + 5);
    ey ← at_ d (i + 6);
    let end_p := mkPoint ex ey in
    let '(cx, cy, theta0, theta1) :=
      ellipseToCenter (X start) (Y start) rx ry phi large sweep ex ey in
    if Interval y (fsub cy (fmax rx ry)) (fadd cy (fmax rx ry))
       && fle x (fadd (fadd cx (fmax rx ry)) Epsilon) then
      ret (end_p,
           intersectionLineEllipse zs (mkPoint x y)
             (mkPoint (fadd (fadd cx rx) (fZ 1)) y)
             (mkPoint cx cy) (mkPoint rx ry) phi theta0 theta1)
    else ret (end_p, zs)
  else ret (end_p, zs).

(** [for i := 0; i < len(p.d); ...]. *)
Fixpoint rayLoop (fuel : nat) (d : Path) (x y : float64) (i : nat)
    (start end_p : Point) (zs : list Intersection) : M (list Intersection) :=
  if negb (i <? length d)%nat then ret zs
  else
    match fuel with
    | O => outOfFuel
    | S fuel' =>
        cmd ← at_ d i;
        '(end_p, zs) ← rayCmd d x y i cmd start end_p zs;
        rayLoop fuel' d x y (i + cmdLen cmd) end_p end_p zs
    end.

(** The parameter along the ray is kept only when it is zero. *)
Definition markT (z : Intersection) : Intersection :=
  if fne (fst (T z)) (S754_zero false) then set_T0 fNaN z else z.

Definition lessAlongRay (zi zj : Intersection) : bool :=
  if Equal (X (ipt zi)) (X (ipt zj)) then false
  else flt (X (ipt zi)) (X (ipt zj)).

Definition RayIntersections (d : Path) (x y : float64)
  : M (list Intersection) :=
  zs ← rayLoop (length d) d x y 0 zeroPoint zeroPoint [];
  ret (SliceStable lessAlongRay (map markT zs)).

End Ray.

(* ===================================================================== *)
(** ** Helpers and inputs of the scenarios *)
(* ===================================================================== *)

Module Helpers.

(** Modelled from the spec: [Point.Interpolate] is declared outside the files
    at hand; the specification speaks of linear interpolation along a
    segment, [t = 0] at the first point and [t = 1] at the second. *)
Definition Interpolate (p q : Point) (t : float64) : Point :=
  mkPoint (fadd (fmul (fsub (fZ 1) t) (X p)) (fmul t (X q)))
          (fadd (fmul (fsub (fZ 1) t) (Y p)) (fmul t (Y q))).

(** Modelled from the spec: the codes of the commands MoveTo, LineTo, QuadTo,
    CubeTo, ArcTo and Close are declared outside the files at hand; the
    specification only names the commands, so six different codes stand for
    them. *)
Definition MoveToCmd : float64 := fZ 1.
Definition LineToCmd : float64 := fZ 2.
Definition QuadToCmd : float64 := fZ 4.
Definition CubeToCmd : float64 := fZ 8.
Definition ArcToCmd : float64 := fZ 16.
Definition CloseCmd : float64 := fZ 32.

(** Modelled from the spec: [cmdLen] is declared outside the files at hand;
    in the flat command stream [(cmd, arg...)] a MoveTo, LineTo or Close
    carries one point and takes four numbers, a QuadTo two points, a CubeTo
    three points and an ArcTo five arguments, with the code at both ends. *)
Definition cmdLen (cmd : float64) : nat :=
  if feq cmd QuadToCmd then 6%nat
  else if feq cmd CubeToCmd || feq cmd ArcToCmd then 8%nat
  else 4%nat.

(** Modelled from the spec: [Path.Closed] is declared outside the files at
    hand; a contour is closed when its command stream ends with Close. *)
Definition Closed (d : Path) : bool :=
  match last d with
  | Some c => feq c CloseCmd
  | None => false
  end.

(** Modelled from the spec: the tolerance [Epsilon] of the intersection
    primitive is declared outside the files at hand; the specification asks
    for a tolerance strictly smaller than the snap grid [1e-8]. *)
Definition Epsilon : float64 := fdiv (fZ 1) (fZ (10 ^ 10)).

(** Modelled from the spec: [Interval] is declared outside the files at hand;
    it tests that a parameter lies in a closed range up to [Epsilon]. *)
Definition Interval (f lower upper : float64) : bool :=
  let '(lower, upper) :=
    if flt upper lower then (upper, lower) else (lower, upper) in
  fle (fsub lower Epsilon) f && fle f (fadd upper Epsilon).

(** Modelled from the spec: [Equal] is declared outside the files at hand;
    it tests equality up to [Epsilon]. *)
Definition Equal (a b : float64) : bool :=
  if flt a b then fle (fsub b a) Epsilon else fle (fsub a b) Epsilon.

(** Modelled from the spec: the difference and the perp-dot product of two
    points, the point arithmetic of the intersection primitive, are declared
    outside the files at hand. *)
Definition Sub (p q : Point) : Point :=
  mkPoint (fsub (X p) (X q)) (fsub (Y p) (Y q)).
Definition PerpDot (p q : Point) : float64 :=
  fsub (fmul (X p) (Y q)) (fmul (Y p) (X q)).

(** Modelled from the spec: [intersectionLineLine] is declared outside the
    files at hand.  The specification describes the primitive on two
    straight segments: an intersection is reported when it lies within both
    segments' parameter range up to [Epsilon], tangent intersections at an
    endpoint are retained, and [T] gives the parameters of the point along
    the two segments, zero at the start of each.  Parallel segments, which
    the specification answers with the ends of their overlap, play no part in
    the scenarios and yield no point here. *)
Definition intersectionLineLine (zs : list Intersection)
    (a0 a1 b0 b1 : Point) : list Intersection :=
  let da := Sub a1 a0 in
  let db := Sub b1 b0 in
  let div := PerpDot da db in
  if Equal div (S754_zero false) then zs
  else
    let ta := fdiv (PerpDot db (Sub a0 b0)) div in
    let tb := fdiv (PerpDot da (Sub a0 b0)) div in
    if Interval ta (S754_zero false) (fZ 1)
       && Interval tb (S754_zero false) (fZ 1) then
      let tangent :=
        Equal ta (S754_zero false) || Equal ta (fZ 1)
        || Equal tb (S754_zero false) || Equal tb (fZ 1) in
      zs ++ [mkIntersection (Interpolate a0 a1 ta) (ta, tb) tangent]
    else zs.

(** The curved commands do not occur in the scenarios. *)
Definition noQuad (zs : list Intersection) (_ _ _ _ _ : Point)
  : list Intersection := zs.
Definition noCube (zs : list Intersection) (_ _ _ _ _ _ : Point)
  : list Intersection := zs.
Definition noEllipse (zs : list Intersection) (_ _ _ _ : Point)
    (_ _ _ : float64) : list Intersection := zs.
Definition noArcFlags (_ : float64) : bool * bool := (false, false).
Definition noCenter (_ _ _ _ _ : float64) (_ _ : bool) (_ _ : float64)
  : float64 * float64 * float64 * float64 :=
  (S754_zero false, S754_zero false, S754_zero false, S754_zero false).

End Helpers.

Definition emptyState : state := mkState ∅ [] [].

Definition P (x y : Z) : Point := mkPoint (fZ x) (fZ y).

(** A closed subject segment going left to right with nothing below it. *)
Definition closedUp : SweepPoint := set_selfWindings 1 zeroSweepPoint.

(** An open subject segment. *)
Definition openSubject : SweepPoint :=
  mkSweepPoint zeroPoint None 0 None 0 0 0 0 None 0 0
               false true false true false true false 0 0.

(* ===================================================================== *)
(** ** Notions used in the statements *)
(* ===================================================================== *)

(** A computation relates the state it starts from to the state it ends in,
    however it ends. *)
Definition pres (R : state -> state -> Prop) {A} (m : M A) : Prop :=
  forall st r st', m st = (r, st') -> R st st'.

(** The computation never runs out of fuel. *)
Definition total {A} (m : M A) : Prop :=
  forall st, fst (m st) <> OutOfFuel.

(** [Q] holds of the state whenever the computation returns. *)
Definition post (Q : state -> Prop) {A} (m : M A) : Prop :=
  forall st a st', m st = (Ret a, st') -> Q st'.

(** What the loop of [mergeOverlapping] looks at to decide whether it goes
    on: positions, links and the [overlapped] flags. *)
Definition view (v : SweepPoint) : Point * option ptr * bool :=
  (pt v, other v, overlapped v).

Definition same_view (st st' : state) : Prop :=
  forall p, view <$> (heap st !! p) = view <$> (heap st' !! p).

(** No event disappears and no [overlapped] flag is cleared. *)
Definition flags_grow (st st' : state) : Prop :=
  dom (heap st') = dom (heap st)
  /\ forall p v, heap st !! p = Some v ->
       exists v', heap st' !! p = Some v'
                  /\ (overlapped v = true -> overlapped v' = true).

(** The end of [mergeOverlapping], from the merged windings on. *)
Definition mergeTail (s : ptr) (p : option ptr) (op : pathOp)
    (fillRule : FillRule) : M unit :=
  mergedWindings s p;;
  sv ← load s;
  update s (set_inResult (InResult sv op fillRule));;
  sv ← load s;
  so ← nonnil (other sv);
  update so (set_inResult (inResult sv));;
  update s (set_prev p).

(** The events not yet marked as overlapped. *)
Definition pending (st : state) : gset ptr :=
  dom (filter (fun kv => overlapped (snd kv) = false) (heap st)).

(** Invariant 1 of the data model: [e.other.other == e] for every event. *)
Definition other_sym (h : gmap ptr SweepPoint) : Prop :=
  forall e s, h !! e = Some s ->
    exists o so, other s = Some o /\ h !! o = Some so /\ other so = Some e.

Definition other_symb (h : gmap ptr SweepPoint) : bool :=
  forallb (fun kv : ptr * SweepPoint =>
             match other (snd kv) with
             | Some o =>
                 match h !! o with
                 | Some so => bool_decide (other so = Some (fst kv))
                 | None => false
                 end
             | None => false
             end)
          (map_to_list h).

Definition same_other (st st' : state) : Prop :=
  forall p, other <$> (heap st !! p) = other <$> (heap st' !! p).

(** The state after [AddPathEndpoints] has created and queued the two events
    [va] and [vb] of a segment. *)
Definition pushSegment (va vb : SweepPoint) (st : state) : state :=
  let a := fresh (dom (heap st)) in
  let b := fresh (dom (<[a := zeroSweepPoint]> (heap st))) in
  mkState (<[b := set_other (Some a) vb]>
             (<[a := set_other (Some b) va]> (heap st)))
          (queue st ++ [a; b]) (warnings st).

(** The invariant seen as a relation between the states before and after. *)
Definition keeps (I : state -> Prop) (st st' : state) : Prop := I st -> I st'.

(** The store only grows, and the events queued meanwhile are those of closed
    contours: neither [open] nor [end]. *)
Definition queuedClosed (st st' : state) : Prop :=
  (forall p v, heap st !! p = Some v -> heap st' !! p = Some v)
  /\ exists new,
       queue st' = queue st ++ new
       /\ Forall (fun e => exists v, heap st' !! e = Some v
                                   /\ open v = false /\ end_ v = false) new.

(** A flat path: a first record with the start point, then one record of four
    numbers per command. *)
Definition record4 (c : float64 * Point) : Path :=
  [fst c; X (snd c); Y (snd c); fst c].

Definition flatPath (m : float64) (start : Point) (cmds : list (float64 * Point))
  : Path :=
  [m; X start; Y start; m] ++ concat (map record4 cmds).

Definition isFlat (LineToCmd CloseCmd : float64) (c : float64 * Point) : Prop :=
  feq (fst c) LineToCmd || feq (fst c) CloseCmd = true.

(** The panics the specification files under InvalidInput. *)
Definition invalidInput (msg : string) : Prop :=
  msg = nanOrInf \/ msg = invalidClose.

(** The last point of a flat path: the point of its last command, or the
    start point when there is no command. *)
Definition lastPoint (start : Point) (cmds : list (float64 * Point)) : Point :=
  match last cmds with
  | Some c => snd c
  | None => start
  end.

(** The test of a Close command: the last point of the path is not its first
    point. *)
Definition badClose (start : Point) (cmds : list (float64 * Point)) : bool :=
  fne (X (lastPoint start cmds)) (X start)
  || fne (Y (lastPoint start cmds)) (Y start).

(** A command at which [AddPathEndpoints] rejects the path: a Close command
    when the test of Close fails, or a command whose point is not finite. *)
Definition faulty (CloseCmd : float64) (bad : bool) (c : float64 * Point)
  : bool :=
  (feq (fst c) CloseCmd && bad) || notFinite (snd c).

(** The number of segments that the loop of [AddPathEndpoints] creates for
    the points [pts] after [start]: a point equal to the current start is
    skipped, any other point ends a segment and becomes the start. *)
Fixpoint segmentsOf (start : Point) (pts : list Point) : nat :=
  match pts with
  | [] => 0
  | p :: rest =>
      if point_eq start p then segmentsOf start rest
      else S (segmentsOf p rest)
  end.

(** From [st] to [st'] the events of [n] segments have been created and
    queued and nothing else has changed: the queue has [2 n] more entries,
    which are new events, and the events, the queue entries and the warnings
    of [st] are in [st'] as they were. *)
Definition queuedSegments (n : nat) (st st' : state) : Prop :=
  (exists new,
     queue st' = queue st ++ new /\ length new = (2 * n)%nat
     /\ Forall (fun e => heap st !! e = None /\ is_Some (heap st' !! e)) new)
  /\ warnings st' = warnings st
  /\ (forall p v, heap st !! p = Some v -> heap st' !! p = Some v)
  /\ (n = 0%nat -> st' = st).

(** Two overlapping subject segments from (0,0) to (1,1): events 0 and 2 are
    the left endpoints, 1 and 3 the right ones; segment 2 lies on segment 0. *)
Definition seg_event (p : Point) (o : ptr) (seg : Z) (clip left : bool)
    (prev : option ptr) : SweepPoint :=
  mkSweepPoint p (Some o) seg None 0 0 1 0 prev 0 0
               clip false false left false true false 1 0.

Definition overlapState : state :=
  mkState (list_to_map
             [ (0, seg_event (P 0 0) 1 1 false true None);
               (1, seg_event (P 1 1) 0 1 false false None);
               (2, seg_event (P 0 0) 3 2 false true (Some 0));
               (3, seg_event (P 1 1) 2 2 false false None) ]%nat)
          [] [].

Definition overlapMerged : state :=
  snd (mergeOverlapping 2%nat opSettle NonZero overlapState).

(** An open contour that comes back to its first point: a triangle without
    a Close command. *)
Definition openTriangle : Path :=
  [ Helpers.MoveToCmd; fZ 0; fZ 0; Helpers.MoveToCmd;
    Helpers.LineToCmd; fZ 1; fZ 0; Helpers.LineToCmd;
    Helpers.LineToCmd; fZ 1; fZ 1; Helpers.LineToCmd;
    Helpers.LineToCmd; fZ 0; fZ 0; Helpers.LineToCmd ].

(** A contour whose third point is not a number. *)
Definition nanPath : Path :=
  [ Helpers.MoveToCmd; fZ 0; fZ 0; Helpers.MoveToCmd;
    Helpers.LineToCmd; fZ 1; fZ 0; Helpers.LineToCmd;
    Helpers.LineToCmd; fNaN; fZ 0; Helpers.LineToCmd ].

(** A subject segment (events 0 and 1) and a clipping segment (events 2 and
    3) that coincide point for point, from (0,0) to (1,1). *)
Definition coincideState : state :=
  mkState (list_to_map
             [ (0, seg_event (P 0 0) 1 1 false true None);
               (1, seg_event (P 1 1) 0 1 false false None);
               (2, seg_event (P 0 0) 3 1 true true None);
               (3, seg_event (P 1 1) 2 1 true false None) ]%nat)
          [] [].


Definition status_event (p : Point) (o : ptr) (seg : Z) (left : bool)
    (node : option ptr) : SweepPoint :=
  mkSweepPoint p (Some o) seg node 0 0 1 0 None 0 0
               false false false left false true false 0 0.

(** Three segments through (1,1): [a] from (0,0) to (2,2) (events 0 and 1)
    and [b] from (0,2) to (2,0) (events 2 and 3) are in the sweep status
    around the segment from (0,1) to (1,1) (events 4 and 5), whose right
    endpoint, event 5, is being processed; the right endpoints of [a] and [b]
    wait in the queue. *)
Definition crossState : state :=
  mkState (list_to_map
             [ (0, status_event (P 0 0) 1 1 true (Some 0));
               (1, status_event (P 2 2) 0 1 false None);
               (2, status_event (P 0 2) 3 2 true (Some 1));
               (3, status_event (P 2 0) 2 2 false None);
               (4, status_event (P 0 1) 5 3 true (Some 2));
               (5, status_event (P 1 1) 4 3 false None) ]%nat)
          [3; 1]%nat [].




(** The square (0,0), (2,0), (2,2), (0,2), closed. *)
Definition squarePath : Path :=
  [ Helpers.MoveToCmd; fZ 0; fZ 0; Helpers.MoveToCmd;
    Helpers.LineToCmd; fZ 2; fZ 0; Helpers.LineToCmd;
    Helpers.LineToCmd; fZ 2; fZ 2; Helpers.LineToCmd;
    Helpers.LineToCmd; fZ 0; fZ 2; Helpers.LineToCmd;
    Helpers.CloseCmd; fZ 0; fZ 0; Helpers.CloseCmd ].

Definition half : float64 := fdiv (fZ 1) (fZ 2).

(** [RayIntersections] with the helpers of the scenarios. *)
Definition rayOf (d : Path) (x y : float64) : outcome (list Intersection) :=
  fst (RayIntersections
         Helpers.MoveToCmd Helpers.LineToCmd Helpers.QuadToCmd
         Helpers.CubeToCmd Helpers.ArcToCmd Helpers.CloseCmd Helpers.cmdLen
         Helpers.Epsilon Helpers.Interval Helpers.Equal
         Helpers.intersectionLineLine Helpers.noQuad Helpers.noCube
         Helpers.noEllipse Helpers.noArcFlags Helpers.noCenter
         d x y emptyState).

(** The two intersections of the ray from (-1, 0.5) with the square. *)
Definition squareHit1 : Intersection :=
  mkIntersection (mkPoint (fZ 0) half) (fNaN, fdiv (fZ 3) (fZ 4)) false.
Definition squareHit2 : Intersection :=
  mkIntersection (mkPoint (fZ 2) half) (fNaN, fdiv (fZ 1) (fZ 4)) false.

(* ===================================================================== *)
(** ** The relation of two shapes *)
(* ===================================================================== *)

(** The type [Relation] is a byte: the eight bits II, IB, IE, BI, BB, BE, EI
    and EB of the DE-9IM matrix, from the lowest bit up. *)
Module Relation.

Definition relII : Z := 0x01.
Definition relIB : Z := 0x02.
Definition relIE : Z := 0x04.
Definition relBI : Z := 0x08.
Definition relBB : Z := 0x10.
Definition relBE : Z := 0x20.
Definition relEI : Z := 0x40.
Definition relEB : Z := 0x80.

(** Disjoint is the inverse of Intersects. *)
Definition Disjoint (rel : Z) : bool := Z.land rel 0x1B =? 0.

Definition Intersects (rel : Z) : bool := negb (Z.land rel 0x1B =? 0).

Definition Equals (rel : Z) : bool := Z.land rel 0xE5 =? 1.

Definition Touches (rel : Z) : bool :=
  (Z.land rel 0x01 =? 0) && negb (Z.land rel 0x1A =? 0).

Definition Contains (rel : Z) : bool :=
  negb (Z.land rel 0x1B =? 0) && (Z.land rel 0xC0 =? 0).

Definition Within (rel : Z) : bool :=
  negb (Z.land rel 0x1B =? 0) && (Z.land rel 0x24 =? 0).

Definition Overlaps (rel : Z) : bool := Z.land rel 0x45 =? 0x45.

(** The loop of [String] writes T or F for the bits 0 to 8 of the byte (the
    ninth is always clear), then the entry EE is set to T. *)
Definition bitChar (rel : Z) (i : nat) : Ascii.ascii :=
  if negb (Z.land (Z.shiftr rel (Z.of_nat i)) 1 =? 0) then "T"%char
  else "F"%char.

Definition String (rel : Z) : string :=
  string_of_list_ascii (<[8%nat := "T"%char]> (map (bitChar rel) (seq 0 9))).

End Relation.

(** The values of a byte. *)
Definition bytes : list Z := map Z.of_nat (seq 0 256).

(* ===================================================================== *)
(** ** More of the event queue and of the comparators *)
(* ===================================================================== *)

Section Queue.

Variable Interpolate : Point -> Point -> float64 -> Point.

(** The order of the sweep queue as a three-way comparison: sort
    left-to-right, then bottom-to-top, then right-endpoints before
    left-endpoints, and then sort upwards. *)
Definition CompareH (a b : ptr) : M Z :=
  av ← load a;
  bv ← load b;
  if flt (X (pt av)) (X (pt bv)) then ret (-1)
  else if flt (X (pt bv)) (X (pt av)) then ret 1
  else if flt (Y (pt av)) (Y (pt bv)) then ret (-1)
  else if flt (Y (pt bv)) (Y (pt av)) then ret 1
  else if negb (left_ av) && left_ bv then ret (-1)
  else if left_ av && negb (left_ bv) then ret 1
  else compareTangentsV Interpolate a b.

(** [down]: sift the element at [i0] down in the heap [q[:n]]; the result
    tells whether it moved. *)
Fixpoint downLoop (fuel : nat) (i n : Z) : M Z :=
  match fuel with
  | O => outOfFuel
  | S fuel' =>
      let j1 := wrap64 (2 * i + 1) in
      if (n <=? j1) || (j1 <? 0) then ret i (* j1 < 0 after int overflow *)
      else
        let j2 := wrap64 (j1 + 1) in
        j ← (if j2 <? n then
               l ← Less Interpolate j2 j1;
               ret (if l : bool then j2 else j1)
             else ret j1);
        l ← Less Interpolate j i;
        if negb l then ret i
        else Swap i j;; downLoop fuel' j n
  end.

Definition down (i0 n : Z) : M bool :=
  st ← getState;
  i ← downLoop (S (length (queue st))) i0 n;
  ret (i0 <? i).

(** [Init]: [for i := n/2 - 1; 0 <= i; i--]. *)
Fixpoint initLoop (k : nat) (n : Z) : M unit :=
  match k with
  | O => ret tt
  | S k' => down (Z.of_nat k') n;; initLoop k' n
  end.

Definition Init : M unit :=
  st ← getState;
  let n := Z.of_nat (length (queue st)) in
  initLoop (Z.to_nat (Z.quot n 2)) n.

Definition Top : M ptr := qindex 0.

Definition Pop : M ptr :=
  st ← getState;
  let n := Z.of_nat (length (queue st)) - 1 in
  Swap 0 n;;
  down 0 n;;
  items ← qindex n;
  modifyQueue (take (Z.to_nat n));;
  ret items.

Definition Fix (i : Z) : M unit :=
  st ← getState;
  moved ← down i (Z.of_nat (length (queue st)));
  if negb moved then
    st ← getState;
    up Interpolate (S (length (queue st))) i
  else ret tt.

End Queue.

(** Neither coordinate of the point is a NaN. *)
Definition isNumber (p : Point) : Prop :=
  IsNaN (X p) = false /\ IsNaN (Y p) = false.

(** The queue holds the same events, possibly in another order, and nothing
    else has changed. *)
Definition sameEvents (st st' : state) : Prop :=
  heap st' = heap st /\ warnings st' = warnings st
  /\ queue st' ≡ₚ queue st.

(** The same, and the entries of the queue from index [n] on are in place. *)
Definition sameEventsBelow (n : nat) (st st' : state) : Prop :=
  sameEvents st st'
  /\ forall k, (n <= k)%nat -> queue st' !! k = queue st !! k.

(* ===================================================================== *)
(** ** Segments and their two ends *)
(* ===================================================================== *)

(** The order of the sweep on points: left to right, then bottom to top. *)
Definition sweepBefore (p q : Point) : bool :=
  flt (X p) (X q) || (feq (X p) (X q) && flt (Y p) (Y q)).

(** [z] is after [p] and before [q] in the order of the sweep. *)
Definition sweepBetween (p z q : Point) : bool :=
  sweepBefore p z && sweepBefore z q.

(** Every event is one end of a segment: the two ends point to each other,
    belong to the same segment of the same input, exactly one of them is the
    left end, and the left end comes first in the order of the sweep. *)
Definition wellPaired (h : gmap ptr SweepPoint) : Prop :=
  forall e s, h !! e = Some s ->
    exists o so,
      other s = Some o /\ h !! o = Some so /\ other so = Some e
      /\ left_ so = negb (left_ s)
      /\ segment so = segment s /\ clipping so = clipping s
      /\ (left_ s = true -> sweepBefore (pt s) (pt so) = true).

Definition wellPairedb (h : gmap ptr SweepPoint) : bool :=
  forallb (fun kv : ptr * SweepPoint =>
             let s := snd kv in
             match other s with
             | Some o =>
                 match h !! o with
                 | Some so =>
                     bool_decide (other so = Some (fst kv))
                     && eqb (left_ so) (negb (left_ s))
                     && (segment so =? segment s)
                     && eqb (clipping so) (clipping s)
                     && implb (left_ s) (sweepBefore (pt s) (pt so))
                 | None => false
                 end
             | None => false
             end)
          (map_to_list h).

(* ===================================================================== *)
(** ** The sweep fields of a left endpoint *)
(* ===================================================================== *)

(** [for prev != nil && prev.vertical { prev = prev.prev }]: the first
    segment below that is not vertical. *)
Fixpoint skipVertical (fuel : nat) (p : option ptr) : M (option ptr) :=
  match p with
  | None => ret None
  | Some a =>
      match fuel with
      | O => outOfFuel
      | S fuel' =>
          av ← load a;
          if vertical av then skipVertical fuel' (prev av)
          else ret (Some a)
      end
  end.

(** [computeSweepFields]: [cur] is a left endpoint and [prev] the segment
    below it in the status.  A chain of [prev] links without a cycle is no
    longer than the number of events. *)
Definition computeSweepFields (cur : ptr) (prev : option ptr) (op : pathOp)
    (fillRule : FillRule) : M unit :=
  cv ← load cur;
  (if negb (open cv) then
     update cur (set_selfWindings 1);;
     cv ← load cur;
     if negb (increasing cv) then update cur (set_selfWindings (-1))
     else ret tt
   else ret tt);;
  (* skip vertical segments *)
  update cur (set_prev prev);;
  st ← getState;
  prev ← skipVertical (S (size (heap st))) prev;
  (* compute windings *)
  match prev with
  | Some p =>
      cv ← load cur;
      pv ← load p;
      if eqb (clipping cv) (clipping pv) then
        update cur (set_windings (int_add (windings pv) (selfWindings pv)));;
        pv ← load p;
        update cur (set_otherWindings
                      (int_add (otherWindings pv) (otherSelfWindings pv)))
      else
        update cur (set_windings
                      (int_add (otherWindings pv) (otherSelfWindings pv)));;
        pv ← load p;
        update cur (set_otherWindings (int_add (windings pv) (selfWindings pv)))
  | None =>
      (* may have been copied when intersected / broken up *)
      update cur (set_windings 0);;
      update cur (set_otherWindings 0)
  end;;
  cv ← load cur;
  update cur (set_inResult (InResult cv op fillRule));;
  cv ← load cur;
  o ← nonnil (other cv);
  update o (set_inResult (inResult cv)).

(** What the sweep fields and the merging of overlaps never change: where an
    event is, the links between the events, and what the input says of its
    segment. *)
Definition skeleton (v : SweepPoint)
  : Point * option ptr * Z * option ptr * (bool * bool * bool)
    * (bool * bool * bool) :=
  (pt v, other v, segment v, node v, (clipping v, open v, end_ v),
   (left_ v, vertical v, increasing v)).

Definition sameSkeleton (st st' : state) : Prop :=
  queue st' = queue st /\ warnings st' = warnings st
  /\ forall p, skeleton <$> (heap st' !! p) = skeleton <$> (heap st !! p).

(** An event taken out of the result: it is marked as overlapped, it counts
    for no winding and it is not in the result. *)
Definition mergedAway (v : SweepPoint) : Prop :=
  overlapped v = true /\ inResult v = 0
  /\ windings v = 0 /\ selfWindings v = 0
  /\ otherWindings v = 0 /\ otherSelfWindings v = 0.

(** If the computation returns from a state where [P] holds, then [Q] holds
    of the result and of the state it ends in. *)
Definition hoare (P : state -> Prop) {A} (m : M A) (Q : A -> state -> Prop)
  : Prop :=
  forall st a st', P st -> m st = (Ret a, st') -> Q a st'.

(** The event at [p] satisfies [A]. *)
Definition holdsAt (p : ptr) (A : SweepPoint -> Prop) (st : state) : Prop :=
  exists v, heap st !! p = Some v /\ A v.

(** The events outside [U] are as they were in [st0]. *)
Definition frameAt (U : ptr -> Prop) (st0 st : state) : Prop :=
  forall q, ~ U q -> heap st !! q = heap st0 !! q.

(** The assertion the proofs carry through a sequence of assignments to the
    event [c]: nothing outside [U] has changed and [c] satisfies [A]. *)
Definition asrt (U : ptr -> Prop) (st0 : state) (c : ptr)
    (A : SweepPoint -> Prop) (st : state) : Prop :=
  frameAt U st0 st /\ holdsAt c A st.

(** Apart from [s] and [a], an event is as it was or has lost its mark
    [inResult]. *)
Definition unmarks (s a : ptr) (st st' : state) : Prop :=
  forall p v, p <> s -> p <> a -> heap st !! p = Some v ->
    heap st' !! p = Some v \/ heap st' !! p = Some (set_inResult 0 v).

(** Apart from [s] and [so], an event that was not marked as overlapped is
    still not marked, or it has been taken out of the result. *)
Definition mergesAway (s so : ptr) (st st' : state) : Prop :=
  forall p v, p <> s -> p <> so -> heap st !! p = Some v ->
    exists v', heap st' !! p = Some v'
               /\ (mergedAway v -> mergedAway v')
               /\ (overlapped v = false ->
                   overlapped v' = false \/ mergedAway v').

(* ===================================================================== *)
(** ** Tolerance squares *)
(* ===================================================================== *)

(** [var BentleyOttmannEpsilon = 1e-8]: the double nearest to 10^-8. *)
Definition BentleyOttmannEpsilon : float64 := fdiv (fZ 1) (fZ (10 ^ 8)).

(** The struct [toleranceSquare]; the nodes of the status are referred to by
    their address, as in the field [node] of an event. *)
Module toleranceSquare.

Record t : Type := mk {
  X : float64;
  Y : float64;          (* snapped value *)
  Events : list ptr;    (* all events in this square *)
  Node : option ptr;    (* reference node inside or near the square *)
  Lower : option ptr;
  Upper : option ptr    (* lower and upper node crossing this square *)
}.

Definition set_Node (v : option ptr) (s : t) : t :=
  mk (X s) (Y s) (Events s) v (Lower s) (Upper s).

Definition set_Events (v : list ptr) (s : t) : t :=
  mk (X s) (Y s) v (Node s) (Lower s) (Upper s).

End toleranceSquare.

(** [toleranceSquares] is a slice of pointers: the squares live in a store of
    their own and the slice holds their addresses. *)
Record squaresState : Type := mkSquares {
  squareStore : gmap ptr toleranceSquare.t;
  squares : list ptr
}.

Definition obind {A B} (o : outcome A) (k : A -> outcome B) : outcome B :=
  match o with
  | Ret a => k a
  | Panic msg => Panic msg
  | OutOfFuel => OutOfFuel
  end.

Module toleranceSquares.

(** The square at index [i] of the slice. *)
Definition square (st : squaresState) (i : nat) : outcome toleranceSquare.t :=
  match squares st !! i with
  | None => Panic indexOutOfRange
  | Some p =>
      match squareStore st !! p with
      | None => Panic nilDeref
      | Some s => Ret s
      end
  end.

(** [for i := len(squares) - 1; 0 <= i; i--] of [find]; the argument is
    [i + 1]. *)
Fixpoint findLoop (st : squaresState) (n : nat) (x y : float64)
  : outcome (nat * bool) :=
  match n with
  | O => Ret (0%nat, false)
  | S i =>
      obind (square st i) (fun s =>
        if flt (toleranceSquare.X s) x || flt (toleranceSquare.Y s) y
        then Ret (S i, false)
        else if feq (toleranceSquare.Y s) y then Ret (i, true)
        else findLoop st i x y)
  end.

(** [find] returns the index of the square at or above (x,y) (or
    [len(squares)] if above all); the bool indicates if the square exists. *)
Definition find (st : squaresState) (x y : float64) : outcome (nat * bool) :=
  findLoop st (length (squares st)) x y.

(** [for i := len(squares) - 1; 0 <= i && squares[i].X == x; i--] of
    [Add]; the argument is [i + 1]. *)
Fixpoint renodeLoop (st : squaresState) (n : nat) (x : float64)
    (orig refNode : option ptr) : outcome squaresState :=
  match n with
  | O => Ret st
  | S i =>
      match squares st !! i with
      | None => Panic indexOutOfRange
      | Some p =>
          match squareStore st !! p with
          | None => Panic nilDeref
          | Some s =>
              if feq (toleranceSquare.X s) x then
                let st' :=
                  if decide (toleranceSquare.Node s = orig)
                  then mkSquares (<[p := toleranceSquare.set_Node refNode s]>
                                    (squareStore st))
                                 (squares st)
                  else st in
                renodeLoop st' i x orig refNode
              else Ret st
          end
      end
  end.

Section WithSnap.

(** Declared outside the files at hand. *)
Variable snap : float64 -> float64 -> float64.

(** [Add] reads the events in the store [h] and changes the squares only.
    A new square comes from the pool: it is none of those in use. *)
Definition Add (h : gmap ptr SweepPoint) (x : float64) (event : ptr)
    (refNode : option ptr) (st : squaresState) : outcome squaresState :=
  match h !! event with
  | None => Panic nilDeref
  | Some ev =>
      let y := snap (Y (pt ev)) BentleyOttmannEpsilon in
      obind (find st x y) (fun '(idx, ok) =>
      obind
        (if negb ok then
           (* create new tolerance square *)
           let p := fresh (dom (squareStore st)) in
           Ret (mkSquares
                  (<[p := toleranceSquare.mk x y [event] refNode None None]>
                     (squareStore st))
                  (take idx (squares st) ++ p :: drop idx (squares st)))
         else
           (* insert into existing tolerance square *)
           match squares st !! idx with
           | None => Panic indexOutOfRange
           | Some p =>
               match squareStore st !! p with
               | None => Panic nilDeref
               | Some s =>
                   Ret (mkSquares
                          (<[p := toleranceSquare.set_Events
                                    (toleranceSquare.Events s ++ [event])
                                    (toleranceSquare.set_Node refNode s)]>
                             (squareStore st))
                          (squares st))
               end
           end)
        (fun st1 =>
           if negb (left_ ev) then
             match other ev with
             | None => Panic nilDeref
             | Some o =>
                 match h !! o with
                 | None => Panic nilDeref
                 | Some ov =>
                     renodeLoop st1 (length (squares st1)) x (node ov) refNode
                 end
             end
           else Ret st1))
  end.

End WithSnap.

End toleranceSquares.

(** The squares of the column at [x], bottom to top: every entry of the slice
    is a square at [x] whose [Y] is a number, and [Y] grows along the
    slice. *)
Definition column (x : float64) (st : squaresState) : Prop :=
  forall j p, squares st !! j = Some p ->
    exists s, squareStore st !! p = Some s
      /\ feq (toleranceSquare.X s) x = true
      /\ IsNaN (toleranceSquare.Y s) = false
      /\ forall p', squares st !! S j = Some p' ->
           exists s', squareStore st !! p' = Some s'
             /\ flt (toleranceSquare.Y s) (toleranceSquare.Y s') = true.

(** The square at index [j] is strictly above [y]. *)
Definition squareAbove (st : squaresState) (y : float64) (j : nat) : Prop :=
  exists p s, squares st !! j = Some p /\ squareStore st !! p = Some s
    /\ flt y (toleranceSquare.Y s) = true.

(** The square at index [j] is strictly below [y]. *)
Definition squareBelow (st : squaresState) (y : float64) (j : nat) : Prop :=
  exists p s, squares st !! j = Some p /\ squareStore st !! p = Some s
    /\ flt (toleranceSquare.Y s) y = true.

(** The square at index [j] is at [y]. *)
Definition squareAt (st : squaresState) (y : float64) (j : nat) : Prop :=
  exists p s, squares st !! j = Some p /\ squareStore st !! p = Some s
    /\ feq (toleranceSquare.Y s) y = true.

(** The squares in use stay where they are and keep their events: a square
    of [st] is a square of [st'] at the same place, with the same events and
    possibly more. *)
Definition squaresGrow (st st' : squaresState) : Prop :=
  forall p s, squareStore st !! p = Some s ->
    exists s', squareStore st' !! p = Some s'
      /\ toleranceSquare.X s' = toleranceSquare.X s
      /\ toleranceSquare.Y s' = toleranceSquare.Y s
      /\ exists more,
           toleranceSquare.Events s' = toleranceSquare.Events s ++ more.

(** The slice is the same and a square is as it was or has [ref] as its
    reference node. *)
Definition renoded (ref : option ptr) (st st' : squaresState) : Prop :=
  squares st' = squares st
  /\ forall p s, squareStore st !! p = Some s ->
       squareStore st' !! p = Some s
       \/ squareStore st' !! p = Some (toleranceSquare.set_Node ref s).

(** Two squares of the column at x = 0, at the heights 0 and 2. *)
Definition twoSquares : squaresState :=
  mkSquares
    (list_to_map
       [ (0, toleranceSquare.mk (fZ 0) (fZ 0) [0] None None None);
         (1, toleranceSquare.mk (fZ 0) (fZ 2) [2] None None None) ]%nat)
    [0; 1]%nat.

(* ===================================================================== *)
(** * Properties *)
(* ===================================================================== *)

(** ** The selection of segments *)

(** C1: for a closed segment [InResult] follows the decision table on the
    fill statuses [A], [A'] of the subject below and above the segment and
    [B], [B'] of the clipping: the segment is kept (a result other than 0)
    for Settle iff [A <> A'], for Intersect iff [(A && B) <> (A' && B')], for
    Union iff [(A || B) <> (A' || B')], for Difference iff
    [(A && ~B) <> (A' && ~B')], for Xor iff [(A xor B) <> (A' xor B')]; for
    Subdivide the result is 2 if the subject fills both sides, 1 if it fills
    exactly one side, else 0. *)
Theorem InResult_closed_table (s : SweepPoint) (fillRule : FillRule) :
  open s = false ->
  let A := Fills fillRule (subjectBelow s) in
  let A' := Fills fillRule (subjectAbove s) in
  let B := Fills fillRule (clippingBelow s) in
  let B' := Fills fillRule (clippingAbove s) in
  (InResult s opSettle fillRule <> 0 <-> A <> A')
  /\ (InResult s opAND fillRule <> 0 <-> (A && B) <> (A' && B'))
  /\ (InResult s opOR fillRule <> 0 <-> (A || B) <> (A' || B'))
  /\ (InResult s opNOT fillRule <> 0 <-> (A && negb B) <> (A' && negb B'))
  /\ (InResult s opXOR fillRule <> 0 <-> xorb A B <> xorb A' B')
  /\ InResult s opDIV fillRule
     = (if A && A' then 2 else if xorb A A' then 1 else 0)
  /\ (forall op, op <> opDIV ->
        InResult s op fillRule = 0 \/ InResult s op fillRule = 1).
Proof.
  intros Hopen A A' B B'.
  unfold InResult. rewrite Hopen.
  subst A A' B B'.
  unfold subjectBelow, subjectAbove, clippingBelow, clippingAbove.
  destruct (clipping s); cbv zeta beta iota;
    repeat match goal with
           | |- context [Fills fillRule ?w] =>
               let b := fresh "b" in
               generalize (Fills fillRule w); intro b
           end;
    (repeat match goal with |- _ /\ _ => split end;
     [ .. | intros op Hop; destruct op; try congruence ];
     repeat match goal with b : bool |- _ => destruct b end;
     simpl; intuition (try congruence; try lia)).
Qed.

Lemma InResult_closed_table_witness :
  open closedUp = false /\ InResult closedUp opSettle NonZero <> 0.
Proof.
  split; [reflexivity |].
  apply (InResult_closed_table closedUp NonZero);
    [reflexivity | vm_compute; discriminate].
Defined.

(** C2: an open subject segment is always kept for Settle, Union and
    Subdivide; for Intersect it is kept exactly when the clipping fills below
    or above it; for Difference and Xor exactly when the clipping does not
    fill below or does not fill above it; otherwise the result is 0. *)
Theorem InResult_open_subject (s : SweepPoint) (fillRule : FillRule) :
  open s = true ->
  clipping s = false ->
  let B := Fills fillRule (clippingBelow s) in
  let B' := Fills fillRule (clippingAbove s) in
  InResult s opSettle fillRule = 1
  /\ InResult s opOR fillRule = 1
  /\ InResult s opDIV fillRule = 1
  /\ InResult s opAND fillRule = (if B || B' then 1 else 0)
  /\ InResult s opNOT fillRule = (if negb B || negb B' then 1 else 0)
  /\ InResult s opXOR fillRule = (if negb B || negb B' then 1 else 0).
Proof.
  intros Hopen Hclip B B'. subst B B'.
  unfold InResult, clippingBelow, clippingAbove.
  rewrite Hopen, Hclip. cbv zeta beta iota.
  repeat split; reflexivity.
Qed.

Lemma InResult_open_subject_witness :
  open openSubject = true /\ clipping openSubject = false
  /\ InResult openSubject opAND NonZero = 0.
Proof.
  split; [reflexivity |]. split; [reflexivity |].
  exact (proj1 (proj2 (proj2 (proj2
           (InResult_open_subject openSubject NonZero eq_refl eq_refl))))).
Defined.

(** ** Reasoning about computations *)

Lemma bind_unfold {A B} (m : M A) (k : A -> M B) (st : state) :
  (m ≫= k) st
  = match m st with
    | (Ret a, st') => k a st'
    | (Panic msg, st') => (Panic msg, st')
    | (OutOfFuel, st') => (OutOfFuel, st')
    end.
Proof. reflexivity. Qed.

Lemma bind_Ret_inv {A B} (m : M A) (k : A -> M B) st b st' :
  (m ≫= k) st = (Ret b, st') ->
  exists a st1, m st = (Ret a, st1) /\ k a st1 = (Ret b, st').
Proof.
  rewrite bind_unfold. destruct (m st) as [[a | msg |] st1]; intros H;
    [eauto | discriminate | discriminate].
Qed.

Lemma bind_Ret {A B} (m : M A) (k : A -> M B) st a st1 :
  m st = (Ret a, st1) -> (m ≫= k) st = k a st1.
Proof. intros H. rewrite bind_unfold, H. reflexivity. Qed.

Lemma ret_inv {A} (a b : A) st st' :
  ret a st = (Ret b, st') -> a = b /\ st' = st.
Proof. unfold ret. intros H. inversion H. auto. Qed.

Lemma load_inv p st v st' :
  load p st = (Ret v, st') -> heap st !! p = Some v /\ st' = st.
Proof.
  unfold load. destruct (heap st !! p); intros H; inversion H; auto.
Qed.

Lemma load_Some p st v : heap st !! p = Some v -> load p st = (Ret v, st).
Proof. unfold load. intros ->. reflexivity. Qed.

Lemma nonnil_inv o st a st' :
  nonnil o st = (Ret a, st') -> o = Some a /\ st' = st.
Proof. destruct o; intros H; inversion H; auto. Qed.

Lemma update_inv p f st u st' :
  update p f st = (Ret u, st') ->
  exists v, heap st !! p = Some v
            /\ st' = set_heap (<[p := f v]> (heap st)) st.
Proof.
  unfold update. destruct (heap st !! p) as [v |]; intros H; inversion H.
  eauto.
Qed.

Lemma update_Some p f st v :
  heap st !! p = Some v ->
  update p f st = (Ret tt, set_heap (<[p := f v]> (heap st)) st).
Proof. unfold update. intros ->. reflexivity. Qed.

Lemma bind_load {B} p (k : SweepPoint -> M B) st :
  (load p ≫= k) st
  = match heap st !! p with
    | Some v => k v st
    | None => (Panic nilDeref, st)
    end.
Proof.
  rewrite bind_unfold. unfold load. destruct (heap st !! p); reflexivity.
Qed.

Lemma bind_nonnil {B} o (k : ptr -> M B) st :
  (nonnil o ≫= k) st
  = match o with
    | Some a => k a st
    | None => (Panic nilDeref, st)
    end.
Proof. destruct o; reflexivity. Qed.

Lemma bind_update {B} p f (k : unit -> M B) st :
  (update p f ≫= k) st
  = match heap st !! p with
    | Some v => k tt (set_heap (<[p := f v]> (heap st)) st)
    | None => (Panic nilDeref, st)
    end.
Proof.
  rewrite bind_unfold. unfold update. destruct (heap st !! p); reflexivity.
Qed.

Lemma bind_getState {B} (k : state -> M B) st :
  (getState ≫= k) st = k st st.
Proof. reflexivity. Qed.

Section Pres.

Context (R : state -> state -> Prop) `{!Reflexive R} `{!Transitive R}.

Lemma pres_ret {A} (a : A) : pres R (mret a).
Proof. intros st r st' H. inversion H. reflexivity. Qed.

Lemma pres_panic {A} msg : pres R (@panic A msg).
Proof. intros st r st' H. inversion H. reflexivity. Qed.

Lemma pres_outOfFuel {A} : pres R (@outOfFuel A).
Proof. intros st r st' H. inversion H. reflexivity. Qed.

Lemma pres_getState : pres R getState.
Proof. intros st r st' H. inversion H. reflexivity. Qed.

Lemma pres_load p : pres R (load p).
Proof.
  intros st r st'. unfold load.
  destruct (heap st !! p); intros [= <- <-]; reflexivity.
Qed.

Lemma pres_nonnil o : pres R (nonnil o).
Proof. destruct o; [apply pres_ret | apply pres_panic]. Qed.

Lemma pres_bind {A B} (m : M A) (k : A -> M B) :
  pres R m -> (forall a, pres R (k a)) -> pres R (m ≫= k).
Proof.
  intros Hm Hk st r st'. rewrite bind_unfold.
  destruct (m st) as [[a | msg |] st1] eqn:E; intros H.
  - transitivity st1; [exact (Hm _ _ _ E) | exact (Hk _ _ _ _ H)].
  - inversion H; subst. exact (Hm _ _ _ E).
  - inversion H; subst. exact (Hm _ _ _ E).
Qed.

Lemma pres_update p f :
  (forall st v, heap st !! p = Some v ->
                R st (set_heap (<[p := f v]> (heap st)) st)) ->
  pres R (update p f).
Proof.
  intros Hf st r st'. unfold update.
  destruct (heap st !! p) as [v |] eqn:E; intros [= <- <-].
  - apply Hf. exact E.
  - reflexivity.
Qed.

Lemma pres_at d i : pres R (at_ d i).
Proof. unfold at_. destruct (d !! i); [apply pres_ret | apply pres_panic]. Qed.

End Pres.

(** Composite computations are handled by going through their steps. *)
Ltac pres_steps upd :=
  repeat first
    [ assumption
    | apply pres_bind; [tc_solve | solve [pres_steps upd] | intros ? ]
    | apply pres_ret; tc_solve
    | apply pres_panic; tc_solve
    | apply pres_outOfFuel; tc_solve
    | apply pres_getState; tc_solve
    | apply pres_load; tc_solve
    | apply pres_nonnil; tc_solve
    | apply pres_at; tc_solve
    | apply pres_update; [tc_solve | upd]
    | match goal with
      | |- pres _ (if ?b then _ else _) => destruct b
      | |- pres _ (match ?o with Some _ => _ | None => _ end) => destruct o
      end ].

#[export] Instance same_view_refl : Reflexive same_view.
Proof. intros st p. reflexivity. Qed.

#[export] Instance same_view_trans : Transitive same_view.
Proof. intros a b c H1 H2 p. rewrite H1. apply H2. Qed.

#[export] Instance flags_grow_refl : Reflexive flags_grow.
Proof. intros st. split; [reflexivity | eauto]. Qed.

#[export] Instance flags_grow_trans : Transitive flags_grow.
Proof.
  intros a b c [D1 H1] [D2 H2]. split; [congruence |].
  intros p v Hv. destruct (H1 _ _ Hv) as (v' & Hv' & Ho).
  destruct (H2 _ _ Hv') as (v'' & Hv'' & Ho'). eauto.
Qed.

Lemma same_view_update st p v f :
  heap st !! p = Some v -> view (f v) = view v ->
  same_view st (set_heap (<[p := f v]> (heap st)) st).
Proof.
  intros Hv Hf q. simpl.
  destruct (decide (p = q)) as [<- |].
  - rewrite lookup_insert_eq, Hv. simpl. congruence.
  - rewrite lookup_insert_ne by done. reflexivity.
Qed.

Lemma flags_grow_update st p v f :
  heap st !! p = Some v ->
  (overlapped v = true -> overlapped (f v) = true) ->
  flags_grow st (set_heap (<[p := f v]> (heap st)) st).
Proof.
  intros Hv Hf. split; simpl.
  - apply dom_insert_lookup_L. eauto.
  - intros q w Hw. destruct (decide (p = q)) as [<- |].
    + rewrite lookup_insert_eq. exists (f v). split; [done |].
      rewrite Hv in Hw. injection Hw as <-. exact Hf.
    + rewrite lookup_insert_ne by done. eauto.
Qed.

Ltac upd_view :=
  intros; apply same_view_update; [assumption | reflexivity].
Ltac upd_flags :=
  intros; apply flags_grow_update; [assumption | simpl; auto].

(** A computation that never runs out of fuel. *)
Lemma total_bind {A B} (m : M A) (k : A -> M B) :
  total m -> (forall a, total (k a)) -> total (m ≫= k).
Proof.
  intros Hm Hk st. rewrite bind_unfold. specialize (Hm st).
  destruct (m st) as [[a | msg |] st1]; simpl in *;
    [apply Hk | discriminate | congruence].
Qed.

Lemma total_ret {A} (a : A) : total (mret a).
Proof. intros st. discriminate. Qed.

Lemma total_panic {A} msg : total (@panic A msg).
Proof. intros st. discriminate. Qed.

Lemma total_load p : total (load p).
Proof. intros st. unfold load. destruct (heap st !! p); discriminate. Qed.

Lemma total_nonnil o : total (nonnil o).
Proof. destruct o; intros st; discriminate. Qed.

Lemma total_update p f : total (update p f).
Proof. intros st. unfold update. destruct (heap st !! p); discriminate. Qed.

Lemma total_getState : total getState.
Proof. intros st. discriminate. Qed.

Lemma total_modifyQueue f : total (modifyQueue f).
Proof. intros st. discriminate. Qed.

Lemma total_warn msg : total (warn msg).
Proof. intros st. discriminate. Qed.

Ltac total_steps :=
  repeat first
    [ apply total_bind; [solve [total_steps] | intros ? ]
    | apply total_ret
    | apply total_panic
    | apply total_load
    | apply total_nonnil
    | apply total_update
    | apply total_getState
    | apply total_modifyQueue
    | apply total_warn
    | match goal with
      | |- total (if ?b then _ else _) => destruct b
      | |- total (match ?o with Some _ => _ | None => _ end) => destruct o
      | |- total (let '(_, _) := ?x in _) => destruct x
      end ].

(** What holds of the state whenever a computation returns. *)
Lemma post_bind {A B} (Q : state -> Prop) (m : M A) (k : A -> M B) :
  (forall a, post Q (k a)) -> post Q (m ≫= k).
Proof.
  intros Hk st b st' H. apply bind_Ret_inv in H as (a & st1 & _ & H).
  exact (Hk _ _ _ _ H).
Qed.

Lemma post_update (Q : state -> Prop) p f :
  (forall st v, heap st !! p = Some v ->
                Q (set_heap (<[p := f v]> (heap st)) st)) ->
  post Q (update p f).
Proof.
  intros HQ st u st' H. apply update_inv in H as (v & E & ->). auto.
Qed.

(** Running a computation forward on a store known well enough. *)
Lemma bind_Get {B} (k : ptr -> M B) st :
  (Get ≫= k) st
  = k (fresh (dom (heap st)))
      (set_heap (<[fresh (dom (heap st)) := zeroSweepPoint]> (heap st)) st).
Proof. reflexivity. Qed.

Lemma bind_ret {A B} (a : A) (k : A -> M B) st : (mret a ≫= k) st = k a st.
Proof. reflexivity. Qed.

Lemma fresh_None (h : gmap ptr SweepPoint) : h !! fresh (dom h) = None.
Proof. apply not_elem_of_dom, is_fresh. Qed.

Lemma fresh_ne (h : gmap ptr SweepPoint) p v :
  h !! p = Some v -> fresh (dom h) <> p.
Proof. intros Hp E. rewrite <- E, fresh_None in Hp. discriminate. Qed.

Lemma set_heap_set_heap h h' st : set_heap h (set_heap h' st) = set_heap h st.
Proof. reflexivity. Qed.

Ltac heap_lookup :=
  cbn [heap set_heap queue warnings];
  repeat first
    [ rewrite lookup_insert_eq
    | rewrite lookup_insert_ne by congruence ].

Ltac run1 :=
  first [ rewrite bind_load | rewrite bind_update | rewrite bind_nonnil
        | rewrite bind_Get | rewrite bind_ret | rewrite bind_getState ];
  rewrite ?set_heap_set_heap;
  heap_lookup;
  repeat match goal with
         | E : ?h !! ?p = Some _ |- context [?h !! ?p] => rewrite E
         | E : ?o = Some _ |- context [match ?o with _ => _ end] => rewrite E
         end;
  cbn [other set_other set_pt set_end set_node set_left set_increasing].


(** ** Merging overlapping segments is idempotent *)

#[export] Instance eq_state_refl : Reflexive (@eq state) := reflexivity.
#[export] Instance eq_state_trans : Transitive (@eq state).
Proof. intros a b c -> ->. reflexivity. Qed.

Lemma mergeBreak_readonly s p : pres eq (mergeBreak s p).
Proof. unfold mergeBreak. pres_steps idtac. Qed.


(** The test looks at nothing but positions, links and flags. *)
Lemma mergeBreak_view s p st st' :
  same_view st st' ->
  fst (mergeBreak s p st) = fst (mergeBreak s p st').
Proof.
  intros H.
  assert (L : forall q, match heap st !! q, heap st' !! q with
                        | Some v, Some v' =>
                            pt v = pt v' /\ other v = other v'
                            /\ overlapped v = overlapped v'
                        | None, None => True
                        | _, _ => False
                        end).
  { intros q. specialize (H q). unfold view in H.
    destruct (heap st !! q), (heap st' !! q); simpl in H;
      [injection H; auto | discriminate | discriminate | exact I]. }
  unfold mergeBreak.
  rewrite !bind_load.
  pose proof (L p) as Lp.
  destruct (heap st !! p) as [pv |], (heap st' !! p) as [pv' |];
    [destruct Lp as (Ep & Eo & Ev) | contradiction | contradiction | reflexivity].
  rewrite Ev. destruct (overlapped pv'); [reflexivity |].
  rewrite !bind_load.
  pose proof (L s) as Ls.
  destruct (heap st !! s) as [sv |], (heap st' !! s) as [sv' |];
    [destruct Ls as (Ep' & Eo' & _) | contradiction | contradiction | reflexivity].
  rewrite Ep, Ep'. destruct (point_ne (pt sv') (pt pv')); [reflexivity |].
  rewrite !bind_nonnil, Eo'. destruct (other sv') as [so |]; [| reflexivity].
  rewrite !bind_load.
  pose proof (L so) as Lso.
  destruct (heap st !! so) as [sov |], (heap st' !! so) as [sov' |];
    [destruct Lso as (Ep'' & _ & _) | contradiction | contradiction | reflexivity].
  rewrite !bind_nonnil, Eo. destruct (other pv') as [po |]; [| reflexivity].
  rewrite !bind_load.
  pose proof (L po) as Lpo.
  destruct (heap st !! po) as [pov |], (heap st' !! po) as [pov' |];
    [destruct Lpo as (Ep''' & _ & _) | contradiction | contradiction | reflexivity].
  simpl. rewrite Ep'', Ep'''. reflexivity.
Qed.

Lemma mergeBreak_state s p st r st' : mergeBreak s p st = (r, st') -> st' = st.
Proof. intros H. symmetry. exact (mergeBreak_readonly s p _ _ _ H). Qed.

Lemma mergeLoop_None fuel s st : mergeLoop fuel s None st = (Ret None, st).
Proof. destruct fuel; reflexivity. Qed.

Lemma mergeLoop_Some fuel s a st :
  mergeLoop (S fuel) s (Some a) st
  = (brk ← mergeBreak s a;
     if brk : bool then mret (Some a)
     else mergeStep s a;; av ← load a; mergeLoop fuel s (prev av)) st.
Proof. reflexivity. Qed.

(** Where the loop stopped, the test that ends it holds. *)
Lemma mergeLoop_stops fuel s p st p' st' :
  mergeLoop fuel s p st = (Ret p', st') ->
  match p' with
  | None => True
  | Some a => mergeBreak s a st' = (Ret true, st')
  end.
Proof.
  revert p st. induction fuel as [| fuel IH]; intros p st H.
  - destruct p as [a |]; [discriminate |].
    injection H as <- <-. exact I.
  - destruct p as [a |]; [| injection H as <- <-; exact I].
    rewrite mergeLoop_Some in H.
    apply bind_Ret_inv in H as (brk & st1 & Hb & H).
    pose proof (mergeBreak_state _ _ _ _ _ Hb) as ->.
    destruct brk.
    + injection H as <- <-. exact Hb.
    + apply bind_Ret_inv in H as (u & st2 & _ & H).
      apply bind_Ret_inv in H as (av & st3 & _ & H).
      exact (IH _ _ H).
Qed.

Lemma mergeLoop_at_stop n s p st :
  match p with
  | None => True
  | Some a => mergeBreak s a st = (Ret true, st)
  end ->
  mergeLoop (S n) s p st = (Ret p, st).
Proof.
  destruct p as [a |]; [| reflexivity].
  intros Hb. rewrite mergeLoop_Some, (bind_Ret _ _ _ _ _ Hb). reflexivity.
Qed.

Lemma mergeBreak_total s p : total (mergeBreak s p).
Proof. unfold mergeBreak. total_steps. Qed.

Lemma mergeStep_total s p : total (mergeStep s p).
Proof. unfold mergeStep. total_steps. Qed.

Lemma mergeStep_flags s p : pres flags_grow (mergeStep s p).
Proof. unfold mergeStep. pres_steps upd_flags. Qed.

Lemma mergeStep_marks s p :
  post (fun st => exists v, heap st !! p = Some v /\ overlapped v = true)
       (mergeStep s p).
Proof.
  unfold mergeStep. repeat (apply post_bind; intros ?).
  apply post_update. intros st v _. simpl.
  rewrite lookup_insert_eq. eauto.
Qed.

Lemma mergeBreak_false s a st st' :
  mergeBreak s a st = (Ret false, st') ->
  exists av, heap st !! a = Some av /\ overlapped av = false.
Proof.
  unfold mergeBreak. rewrite bind_load.
  destruct (heap st !! a) as [av |]; [| discriminate].
  destruct (overlapped av) eqn:E; [discriminate | eauto].
Qed.

Lemma elem_of_pending st p :
  p ∈ pending st <-> exists v, heap st !! p = Some v /\ overlapped v = false.
Proof.
  unfold pending. rewrite elem_of_dom. unfold is_Some.
  setoid_rewrite map_lookup_filter_Some. simpl. naive_solver.
Qed.

Lemma pending_shrinks st st2 a :
  flags_grow st st2 ->
  a ∈ pending st ->
  (exists v, heap st2 !! a = Some v /\ overlapped v = true) ->
  (size (pending st2) < size (pending st))%nat.
Proof.
  intros [Hdom Hg] Ha (v & Hv & Hov).
  apply subset_size. split.
  - intros p. rewrite !elem_of_pending. intros (v2 & Hv2 & Ho2).
    assert (is_Some (heap st !! p)) as [v1 Hv1].
    { apply elem_of_dom. rewrite <- Hdom. apply elem_of_dom. eauto. }
    destruct (Hg _ _ Hv1) as (v2' & Hv2' & Ho).
    exists v1. split; [done |].
    destruct (overlapped v1); [| done].
    rewrite Hv2 in Hv2'. injection Hv2' as <-. rewrite Ho in Ho2; done.
  - intros Hsub. specialize (Hsub a Ha).
    apply elem_of_pending in Hsub as (v' & Hv' & Ho').
    congruence.
Qed.

Lemma mergeLoop_fuel fuel s p st :
  (size (pending st) < fuel)%nat -> fst (mergeLoop fuel s p st) <> OutOfFuel.
Proof.
  revert p st. induction fuel as [| fuel IH]; intros p st Hlt; [lia |].
  destruct p as [a |]; [| discriminate].
  rewrite mergeLoop_Some, bind_unfold.
  pose proof (mergeBreak_total s a st) as Ht.
  destruct (mergeBreak s a st) as [[brk | msg |] st1] eqn:Hb;
    [| discriminate | done].
  pose proof (mergeBreak_state _ _ _ _ _ Hb) as ->.
  destruct brk; [discriminate |].
  rewrite bind_unfold.
  pose proof (mergeStep_total s a st) as Ht2.
  destruct (mergeStep s a st) as [[[] | msg |] st2] eqn:Hs;
    [| discriminate | done].
  rewrite bind_load. destruct (heap st2 !! a) as [av |]; [| discriminate].
  apply IH.
  assert (size (pending st2) < size (pending st))%nat; [| lia].
  apply (pending_shrinks st st2 a).
  - exact (mergeStep_flags _ _ _ _ _ Hs).
  - apply elem_of_pending. exact (mergeBreak_false _ _ _ _ Hb).
  - exact (mergeStep_marks _ _ _ _ _ Hs).
Qed.

Lemma pending_size st : (size (pending st) <= size (heap st))%nat.
Proof.
  unfold pending. rewrite size_dom. apply map_subseteq_size, map_filter_subseteq.
Qed.

Lemma mergedWindings_view s p : pres same_view (mergedWindings s p).
Proof. unfold mergedWindings. pres_steps upd_view. Qed.

Lemma mergeTail_view s p op fillRule :
  pres same_view (mergeTail s p op fillRule).
Proof.
  unfold mergeTail. pose proof (mergedWindings_view s p).
  pres_steps upd_view.
Qed.

Lemma mergeTail_prev s p op fillRule :
  post (fun st => exists v, heap st !! s = Some v /\ prev v = p)
       (mergeTail s p op fillRule).
Proof.
  unfold mergeTail. repeat (apply post_bind; intros ?).
  apply post_update. intros st v _. simpl.
  rewrite lookup_insert_eq. eauto.
Qed.

Lemma mergeOverlapping_unfold s op fillRule st :
  mergeOverlapping s op fillRule st
  = (sv ← load s;
     if overlapped sv then mret tt
     else
       st0 ← getState;
       p ← mergeLoop (S (size (heap st0))) s (prev sv);
       sv ← load s;
       if decide (p = prev sv) then mret tt
       else mergeTail s p op fillRule) st.
Proof. reflexivity. Qed.

(** C8: [mergeOverlapping] always comes to an end, and a second call after
    a first one that returned changes nothing: the state it leaves, with the
    windings, self windings, [prev], [inResult] and [overlapped] flags of all
    events, is the state the first call left. *)
Theorem mergeOverlapping_idempotent (s : ptr) (op : pathOp)
    (fillRule : FillRule) (st : state) :
  fst (mergeOverlapping s op fillRule st) <> OutOfFuel
  /\ forall st1,
       mergeOverlapping s op fillRule st = (Ret tt, st1) ->
       mergeOverlapping s op fillRule st1 = (Ret tt, st1).
Proof.
  split.
  - rewrite mergeOverlapping_unfold, bind_load.
    destruct (heap st !! s) as [sv |]; [| discriminate].
    destruct (overlapped sv); [discriminate |].
    rewrite bind_getState, bind_unfold.
    pose proof (mergeLoop_fuel (S (size (heap st))) s (prev sv) st) as Hf.
    destruct (mergeLoop _ s (prev sv) st) as [[p | msg |] st2];
      [| discriminate | ].
    + rewrite bind_load. destruct (heap st2 !! s) as [sv2 |]; [| discriminate].
      destruct (decide (p = prev sv2)); [discriminate |].
      unfold mergeTail.
      assert (T : total (mergeTail s p op fillRule)).
      { unfold mergeTail, mergedWindings. total_steps. }
      apply T.
    + exfalso. apply Hf; [| reflexivity].
      pose proof (pending_size st). lia.
  - intros st1 H.
    rewrite mergeOverlapping_unfold, bind_load in H.
    destruct (heap st !! s) as [sv |] eqn:Es; [| discriminate].
    destruct (overlapped sv) eqn:Eov.
    { injection H as <-.
      rewrite mergeOverlapping_unfold, bind_load, Es, Eov. reflexivity. }
    rewrite bind_getState, bind_unfold in H.
    destruct (mergeLoop _ s (prev sv) st) as [[p | msg |] st2] eqn:Hloop;
      [| discriminate | discriminate].
    pose proof (mergeLoop_stops _ _ _ _ _ _ Hloop) as Hstop.
    rewrite bind_load in H.
    destruct (heap st2 !! s) as [sv2 |] eqn:Es2; [| discriminate].
    destruct (decide (p = prev sv2)) as [Ep | Np].
    { injection H as <-.
      rewrite mergeOverlapping_unfold, bind_load, Es2.
      destruct (overlapped sv2); [reflexivity |].
      rewrite bind_getState, bind_unfold.
      rewrite <- Ep, (mergeLoop_at_stop _ _ _ _ Hstop), bind_load, Es2.
      destruct (decide (p = prev sv2)); [reflexivity | contradiction]. }
    pose proof (mergeTail_view _ _ _ _ _ _ _ H) as Hview.
    destruct (mergeTail_prev _ _ _ _ _ _ _ H) as (sv1 & Es1 & Eprev).
    rewrite mergeOverlapping_unfold, bind_load, Es1.
    destruct (overlapped sv1); [reflexivity |].
    rewrite bind_getState, bind_unfold.
    assert (Hstop1 : match p with
                     | None => True
                     | Some a => mergeBreak s a st1 = (Ret true, st1)
                     end).
    { destruct p as [a |]; [| exact I].
      pose proof (mergeBreak_view s a st2 st1 Hview) as Hb.
      rewrite Hstop in Hb.
      destruct (mergeBreak s a st1) as [o st4] eqn:Hb1.
      pose proof (mergeBreak_state _ _ _ _ _ Hb1) as ->.
      simpl in Hb. subst o. reflexivity. }
    rewrite Eprev, (mergeLoop_at_stop _ _ _ _ Hstop1), bind_load, Es1.
    destruct (decide (p = prev sv1)); [reflexivity | congruence].
Qed.

Lemma mergeOverlapping_idempotent_witness :
  mergeOverlapping 2%nat opSettle NonZero overlapState = (Ret tt, overlapMerged)
  /\ mergeOverlapping 2%nat opSettle NonZero overlapMerged
     = (Ret tt, overlapMerged).
Proof.
  assert (H : mergeOverlapping 2%nat opSettle NonZero overlapState
              = (Ret tt, overlapMerged)) by (vm_compute; reflexivity).
  split; [exact H |].
  exact (proj2 (mergeOverlapping_idempotent 2%nat opSettle NonZero overlapState)
               overlapMerged H).
Defined.

(** ** The link between the two endpoints of a segment *)

(** What [SplitAt] does to the store when [s.other] is another event. *)
Lemma SplitAt_run s z st sv o ov :
  heap st !! s = Some sv -> other sv = Some o -> heap st !! o = Some ov ->
  o <> s ->
  let r := fresh (dom (heap st)) in
  let l := fresh (dom (<[r := zeroSweepPoint]> (heap st))) in
  exists h',
    SplitAt s z st = (Ret (r, l), set_heap h' st)
    /\ h' !! s = Some (set_other (Some r) sv)
    /\ h' !! r = Some (set_other (Some s) (set_end false (set_pt z ov)))
    /\ h' !! l = Some (set_node None
                         (set_other (Some o) (set_end false (set_pt z sv))))
    /\ h' !! o = Some (set_other (Some l) ov)
    /\ (forall e, e <> s -> e <> r -> e <> l -> e <> o ->
                  h' !! e = heap st !! e).
Proof.
  intros Es Eo Eov Hne r l.
  assert (Hrs : r <> s) by exact (fresh_ne _ _ _ Es).
  assert (Hro : r <> o) by exact (fresh_ne _ _ _ Eov).
  assert (Hls : l <> s).
  { apply (fresh_ne _ s sv). rewrite lookup_insert_ne; done. }
  assert (Hlo : l <> o).
  { apply (fresh_ne _ o ov). rewrite lookup_insert_ne; done. }
  assert (Hlr : l <> r).
  { apply (fresh_ne _ r zeroSweepPoint). apply lookup_insert_eq. }
  eexists. split.
  - unfold SplitAt. rewrite bind_Get. fold r.
    rewrite bind_Get. cbn [heap set_heap]. fold r. fold l.
    repeat run1. reflexivity.
  - repeat split; heap_lookup; try rewrite Eo; try reflexivity.
    intros e ? ? ? ?. heap_lookup. reflexivity.
Qed.

(** The same when the segment is its own other end. *)
Lemma SplitAt_run_self s z st sv :
  heap st !! s = Some sv -> other sv = Some s ->
  let r := fresh (dom (heap st)) in
  let l := fresh (dom (<[r := zeroSweepPoint]> (heap st))) in
  exists h',
    SplitAt s z st = (Ret (r, l), set_heap h' st)
    /\ h' !! s = Some (set_other (Some r) sv)
    /\ h' !! r = Some (set_other (Some s) (set_end false (set_pt z sv)))
    /\ h' !! l = Some (set_node None
                         (set_other (Some l) (set_end false (set_pt z sv))))
    /\ (forall e, e <> s -> e <> r -> e <> l -> h' !! e = heap st !! e).
Proof.
  intros Es Eo r l.
  assert (Hrs : r <> s) by exact (fresh_ne _ _ _ Es).
  assert (Hls : l <> s).
  { apply (fresh_ne _ s sv). rewrite lookup_insert_ne; done. }
  assert (Hlr : l <> r).
  { apply (fresh_ne _ r zeroSweepPoint). apply lookup_insert_eq. }
  eexists. split.
  - unfold SplitAt. rewrite bind_Get. fold r.
    rewrite bind_Get. cbn [heap set_heap]. fold r. fold l.
    repeat run1. reflexivity.
  - repeat split; heap_lookup; try rewrite Eo; try reflexivity.
    intros e ? ? ?. heap_lookup. reflexivity.
Qed.

Lemma SplitAt_other_sym s z st :
  other_sym (heap st) -> is_Some (heap st !! s) ->
  exists r l st',
    SplitAt s z st = (Ret (r, l), st') /\ other_sym (heap st').
Proof.
  intros Hsym [sv Es].
  destruct (Hsym _ _ Es) as (o & ov & Eo & Eov & Eoo).
  destruct (decide (o = s)) as [-> | Hne].
  - destruct (SplitAt_run_self s z st sv Es Eo)
      as (h' & Hrun & Hs & Hr & Hl & Hrest).
    set (r := fresh (dom (heap st))) in *.
    set (l := fresh (dom (<[r := zeroSweepPoint]> (heap st)))) in *.
    exists r, l, (set_heap h' st). split; [exact Hrun |].
    cbn [heap set_heap]. intros e v Hv.
    destruct (decide (e = s)) as [-> |]; [rewrite Hs in Hv; injection Hv as <-; eauto |].
    destruct (decide (e = r)) as [-> |]; [rewrite Hr in Hv; injection Hv as <-; eauto |].
    destruct (decide (e = l)) as [-> |]; [rewrite Hl in Hv; injection Hv as <-; eauto |].
    rewrite Hrest in Hv by done.
    destruct (Hsym _ _ Hv) as (o' & ov' & Eo' & Eov' & Eoo').
    exists o', ov'. split; [done |]. split; [| done].
    rewrite Hrest; [done | | |].
    + intros ->. congruence.
    + intros ->. unfold r in Eov'. rewrite fresh_None in Eov'. done.
    + intros ->.
      assert (<[r := zeroSweepPoint]> (heap st) !! l = Some ov') as Hx.
      { rewrite lookup_insert_ne; [exact Eov' |].
        intros E. rewrite <- E in Eov'. unfold r in Eov'.
        rewrite fresh_None in Eov'. done. }
      unfold l in Hx. rewrite fresh_None in Hx. done.
  - destruct (SplitAt_run s z st sv o ov Es Eo Eov Hne)
      as (h' & Hrun & Hs & Hr & Hl & Ho & Hrest).
    set (r := fresh (dom (heap st))) in *.
    set (l := fresh (dom (<[r := zeroSweepPoint]> (heap st)))) in *.
    exists r, l, (set_heap h' st). split; [exact Hrun |].
    cbn [heap set_heap]. intros e v Hv.
    destruct (decide (e = s)) as [-> |]; [rewrite Hs in Hv; injection Hv as <-; eauto |].
    destruct (decide (e = r)) as [-> |]; [rewrite Hr in Hv; injection Hv as <-; eauto |].
    destruct (decide (e = l)) as [-> |]; [rewrite Hl in Hv; injection Hv as <-; eauto |].
    destruct (decide (e = o)) as [-> |]; [rewrite Ho in Hv; injection Hv as <-; eauto |].
    rewrite Hrest in Hv by done.
    destruct (Hsym _ _ Hv) as (o' & ov' & Eo' & Eov' & Eoo').
    exists o', ov'. split; [done |]. split; [| done].
    rewrite Hrest; [done | | | |].
    + intros ->. congruence.
    + intros ->. unfold r in Eov'. rewrite fresh_None in Eov'. done.
    + intros ->.
      assert (<[r := zeroSweepPoint]> (heap st) !! l = Some ov') as Hx.
      { rewrite lookup_insert_ne; [exact Eov' |].
        intros E. rewrite <- E in Eov'. unfold r in Eov'.
        rewrite fresh_None in Eov'. done. }
      unfold l in Hx. rewrite fresh_None in Hx. done.
    + intros ->. congruence.
Qed.

#[export] Instance same_other_refl : Reflexive same_other.
Proof. intros st p. reflexivity. Qed.

#[export] Instance same_other_trans : Transitive same_other.
Proof. intros a b c H1 H2 p. rewrite H1. apply H2. Qed.

Lemma same_other_update st p v f :
  heap st !! p = Some v -> other (f v) = other v ->
  same_other st (set_heap (<[p := f v]> (heap st)) st).
Proof.
  intros Hv Hf q. simpl.
  destruct (decide (p = q)) as [<- |].
  - rewrite lookup_insert_eq, Hv. simpl. congruence.
  - rewrite lookup_insert_ne by done. reflexivity.
Qed.

Ltac upd_other :=
  intros; apply same_other_update; [assumption | reflexivity].

Lemma other_sym_same_other st st' :
  same_other st st' -> other_sym (heap st) -> other_sym (heap st').
Proof.
  intros H Hsym e v' Hv'.
  pose proof (H e) as He. rewrite Hv' in He.
  destruct (heap st !! e) as [v |] eqn:Hv; [| discriminate].
  injection He as He.
  destruct (Hsym _ _ Hv) as (o & ov & Eo & Eov & Eoo).
  pose proof (H o) as Ho. rewrite Eov in Ho.
  destruct (heap st' !! o) as [ov' |] eqn:Eov'; [| discriminate].
  injection Ho as Ho.
  exists o, ov'. split; [congruence |]. split; [exact Eov' | congruence].
Qed.

Lemma Reverse_same_other s : pres same_other (Reverse s).
Proof. unfold Reverse. pres_steps upd_other. Qed.

Lemma Reverse_returns s st :
  other_sym (heap st) -> is_Some (heap st !! s) ->
  exists st', Reverse s st = (Ret tt, st').
Proof.
  intros Hsym [sv Es].
  destruct (Hsym _ _ Es) as (o & ov & Eo & Eov & Eoo).
  unfold Reverse.
  destruct (decide (o = s)) as [-> | Hne].
  - repeat run1. eexists.
    apply update_Some. heap_lookup. reflexivity.
  - repeat run1. eexists.
    apply update_Some. heap_lookup. reflexivity.
Qed.

Lemma Reverse_other_sym s st :
  other_sym (heap st) -> is_Some (heap st !! s) ->
  exists st', Reverse s st = (Ret tt, st') /\ other_sym (heap st').
Proof.
  intros Hsym Hs. destruct (Reverse_returns s st Hsym Hs) as [st' H].
  exists st'. split; [exact H |].
  exact (other_sym_same_other _ _ (Reverse_same_other _ _ _ _ H) Hsym).
Qed.

Lemma bind_modifyQueue {B} f (k : unit -> M B) st :
  (modifyQueue f ≫= k) st = k tt (set_queue (f (queue st)) st).
Proof. reflexivity. Qed.

(** Creating and queueing the two events of a segment, in one step. *)
Lemma segment_run {B} (va vb : SweepPoint) (k : M B) st :
  (a ← Get;
   b ← Get;
   update a (fun _ => va);;
   update b (fun _ => vb);;
   update a (set_other (Some b));;
   update b (set_other (Some a));;
   modifyQueue (fun q => q ++ [a; b]);;
   k) st
  = k (pushSegment va vb st).
Proof.
  rewrite bind_Get. set (a := fresh (dom (heap st))).
  rewrite bind_Get. cbn [heap set_heap]. fold a.
  set (b := fresh (dom (<[a := zeroSweepPoint]> (heap st)))).
  assert (Hba : b <> a).
  { apply (fresh_ne _ a zeroSweepPoint). apply lookup_insert_eq. }
  repeat run1. rewrite bind_modifyQueue.
  f_equal. unfold pushSegment, set_queue. cbn [heap set_heap queue warnings].
  fold a. fold b. f_equal.
  apply map_eq. intros p.
  destruct (decide (p = b)) as [-> |]; [heap_lookup; reflexivity |].
  destruct (decide (p = a)) as [-> |]; heap_lookup; reflexivity.
Qed.

Lemma pres_segment R `{!Transitive R} {B} (va vb : SweepPoint) (k : M B) :
  (forall st, R st (pushSegment va vb st)) ->
  pres R k ->
  pres R (a ← Get;
          b ← Get;
          update a (fun _ => va);;
          update b (fun _ => vb);;
          update a (set_other (Some b));;
          update b (set_other (Some a));;
          modifyQueue (fun q => q ++ [a; b]);;
          k).
Proof.
  intros Hpush Hk st r st'. rewrite segment_run. intros H.
  transitivity (pushSegment va vb st); [apply Hpush | exact (Hk _ _ _ H)].
Qed.

Section AddPath.

Variables LineToCmd CloseCmd : float64.
Variable cmdLen : float64 -> nat.
Variable Closed : Path -> bool.
Variable R : state -> state -> Prop.
Context `{!Reflexive R} `{!Transitive R}.
Variables clipping open : bool.

Hypothesis R_push :
  forall st pa pb ea eb seg la lb inc vert,
    R st (pushSegment
            (newEndpoint pa clipping open (open && ea) seg la inc vert)
            (newEndpoint pb clipping open (open && eb) seg lb inc vert) st).

Lemma addLoop_pres fuel d i seg start :
  pres R (addLoop LineToCmd CloseCmd cmdLen fuel d clipping open i seg start).
Proof.
  revert i seg start. induction fuel as [| fuel IH]; intros i seg start.
  - simpl. destruct (negb (i <? length d)%nat);
      [apply pres_ret | apply pres_outOfFuel]; tc_solve.
  - simpl. destruct (negb (i <? length d)%nat); [apply pres_ret; tc_solve |].
    pres_steps idtac.
    all: first [ apply IH
               | apply pres_segment; [tc_solve | intros; apply R_push | apply IH] ].
Qed.

End AddPath.

#[export] Instance keeps_refl I : Reflexive (keeps I).
Proof. intros st H. exact H. Qed.

#[export] Instance keeps_trans I : Transitive (keeps I).
Proof. intros a b c H1 H2 H. auto. Qed.

Lemma pushSegment_other_sym va vb st :
  other_sym (heap st) -> other_sym (heap (pushSegment va vb st)).
Proof.
  intros Hsym. unfold pushSegment. cbn [heap].
  set (a := fresh (dom (heap st))).
  set (b := fresh (dom (<[a := zeroSweepPoint]> (heap st)))).
  assert (Hba : b <> a).
  { apply (fresh_ne _ a zeroSweepPoint). apply lookup_insert_eq. }
  assert (Ha : forall p v, heap st !! p = Some v -> p <> a).
  { intros p v Hp ->. unfold a in Hp. rewrite fresh_None in Hp. done. }
  assert (Hb : forall p v, heap st !! p = Some v -> p <> b).
  { intros p v Hp ->.
    assert (<[a := zeroSweepPoint]> (heap st) !! b = Some v) as Hx.
    { rewrite lookup_insert_ne by done. exact Hp. }
    unfold b in Hx. rewrite fresh_None in Hx. done. }
  intros e v Hv.
  destruct (decide (e = b)) as [-> |].
  { rewrite lookup_insert_eq in Hv. injection Hv as <-.
    exists a. eexists. split; [reflexivity |].
    split; [heap_lookup; reflexivity | reflexivity]. }
  destruct (decide (e = a)) as [-> |].
  { rewrite lookup_insert_ne, lookup_insert_eq in Hv by done.
    injection Hv as <-.
    exists b. eexists. split; [reflexivity |].
    split; [heap_lookup; reflexivity | reflexivity]. }
  rewrite !lookup_insert_ne in Hv by done.
  destruct (Hsym _ _ Hv) as (o & ov & Eo & Eov & Eoo).
  exists o, ov. split; [done |]. split; [| done].
  rewrite !lookup_insert_ne; [done | |].
  - intros <-. exact (Ha _ _ Eov eq_refl).
  - intros <-. exact (Hb _ _ Eov eq_refl).
Qed.

Lemma AddPathEndpoints_other_sym LineToCmd CloseCmd cmdLen Closed d seg clipping :
  pres (keeps (fun st => other_sym (heap st)))
       (AddPathEndpoints LineToCmd CloseCmd cmdLen Closed d seg clipping).
Proof.
  unfold AddPathEndpoints.
  pres_steps idtac;
    (apply addLoop_pres; [tc_solve | tc_solve |];
     intros; intros H; apply pushSegment_other_sym; exact H).
Qed.

Lemma other_symb_spec h : other_symb h = true -> other_sym h.
Proof.
  unfold other_symb. rewrite forallb_forall. intros H e s Hs.
  specialize (H (e, s)). simpl in H.
  destruct (other s) as [o |].
  - destruct (h !! o) as [so |] eqn:Eo.
    + exists o, so. split; [done |]. split; [done |].
      eapply bool_decide_eq_true_1. apply H.
      apply list_elem_of_In. apply elem_of_map_to_list. exact Hs.
    + assert (false = true); [| discriminate].
      apply H. apply list_elem_of_In. apply elem_of_map_to_list. exact Hs.
  - assert (false = true); [| discriminate].
    apply H. apply list_elem_of_In. apply elem_of_map_to_list. exact Hs.
Qed.

(** C3: creating the two endpoints of the segments of a path, splitting a
    segment at a point and reversing a segment each keep
    [e.other.other == e] for every event; splitting and reversing an event
    of a store with this invariant always return. *)
Theorem other_link_preserved :
  (forall s z st,
      other_sym (heap st) -> is_Some (heap st !! s) ->
      exists r l st',
        SplitAt s z st = (Ret (r, l), st') /\ other_sym (heap st'))
  /\ (forall s st,
         other_sym (heap st) -> is_Some (heap st !! s) ->
         exists st', Reverse s st = (Ret tt, st') /\ other_sym (heap st'))
  /\ (forall LineToCmd CloseCmd cmdLen Closed d seg clipping st r st',
         other_sym (heap st) ->
         AddPathEndpoints LineToCmd CloseCmd cmdLen Closed d seg clipping st
         = (r, st') ->
         other_sym (heap st')).
Proof.
  split; [exact SplitAt_other_sym |].
  split; [exact Reverse_other_sym |].
  intros LineToCmd CloseCmd cmdLen Closed d seg clipping st r st' Hsym H.
  exact (AddPathEndpoints_other_sym _ _ _ _ _ _ _ _ _ _ H Hsym).
Qed.

Lemma other_link_preserved_witness :
  other_sym (heap overlapState)
  /\ is_Some (heap overlapState !! 0%nat)
  /\ exists r l st',
       SplitAt 0%nat (P 1 0) overlapState = (Ret (r, l), st')
       /\ other_sym (heap st').
Proof.
  assert (H : other_sym (heap overlapState)).
  { apply other_symb_spec. vm_compute. reflexivity. }
  assert (H0 : is_Some (heap overlapState !! 0%nat)).
  { vm_compute. eauto. }
  split; [exact H |]. split; [exact H0 |].
  exact (proj1 other_link_preserved 0%nat (P 1 0) overlapState H H0).
Defined.

(** ** Adding the endpoints of a path *)

Lemma bind_at {B} d i (k : float64 -> M B) st :
  (at_ d i ≫= k) st
  = match d !! i with
    | Some f => k f st
    | None => (Panic indexOutOfRange, st)
    end.
Proof. unfold at_. destruct (d !! i); reflexivity. Qed.

#[export] Instance queuedClosed_refl : Reflexive queuedClosed.
Proof.
  intros st. split; [auto |]. exists []. rewrite app_nil_r. split; [done |].
  constructor.
Qed.

#[export] Instance queuedClosed_trans : Transitive queuedClosed.
Proof.
  intros a b c [H1 (n1 & Q1 & F1)] [H2 (n2 & Q2 & F2)].
  split; [auto |]. exists (n1 ++ n2). split.
  - rewrite Q2, Q1, app_assoc. reflexivity.
  - apply Forall_app. split; [| exact F2].
    eapply Forall_impl; [exact F1 |].
    intros e (v & Hv & Ho). exists v. split; [apply H2, Hv | exact Ho].
Qed.

Lemma pushSegment_queuedClosed st pa pb ea eb clipping seg la lb inc vert :
  queuedClosed st
    (pushSegment (newEndpoint pa clipping false (false && ea) seg la inc vert)
                 (newEndpoint pb clipping false (false && eb) seg lb inc vert)
                 st).
Proof.
  unfold pushSegment.
  set (a := fresh (dom (heap st))).
  set (b := fresh (dom (<[a := zeroSweepPoint]> (heap st)))).
  assert (Hba : b <> a).
  { apply (fresh_ne _ a zeroSweepPoint). apply lookup_insert_eq. }
  split; cbn [heap queue].
  - intros p v Hp.
    rewrite !lookup_insert_ne; [exact Hp | |].
    + intros <-. unfold a in Hp. rewrite fresh_None in Hp. done.
    + intros <-.
      assert (<[a := zeroSweepPoint]> (heap st) !! b = Some v) as Hx.
      { rewrite lookup_insert_ne by done. exact Hp. }
      unfold b in Hx. rewrite fresh_None in Hx. done.
  - exists [a; b]. split; [reflexivity |].
    repeat constructor.
    + eexists. split; [heap_lookup; reflexivity |]. split; reflexivity.
    + eexists. split; [heap_lookup; reflexivity |]. split; reflexivity.
Qed.

(** C10: a path that is not closed but whose last point is exactly its first
    point is treated as closed: however [AddPathEndpoints] ends, every event
    it has created and queued has [open = false] (and so is no path end). *)
Theorem AddPathEndpoints_coinciding_ends
    (LineToCmd CloseCmd : float64) (cmdLen : float64 -> nat)
    (Closed : Path -> bool) (d : Path) (seg : Z) (clipping : bool)
    (x0 y0 x1 y1 : float64) (st : state) (r : outcome Z) (st' : state) :
  Closed d = false ->
  d !! 1%nat = Some x0 -> d !! 2%nat = Some y0 ->
  d !! (length d - 3)%nat = Some x1 -> d !! (length d - 2)%nat = Some y1 ->
  feq x1 x0 = true -> feq y1 y0 = true ->
  AddPathEndpoints LineToCmd CloseCmd cmdLen Closed d seg clipping st = (r, st') ->
  exists new,
    queue st' = queue st ++ new
    /\ Forall (fun e => exists v, heap st' !! e = Some v
                                 /\ open v = false /\ end_ v = false) new.
Proof.
  intros Hc E1 E2 E3 E4 Fx Fy H.
  cut (queuedClosed st st'); [intros [_ Hq]; exact Hq |].
  unfold AddPathEndpoints in H.
  destruct (length d =? 0)%nat.
  { injection H as <- <-. reflexivity. }
  rewrite Hc in H. cbn [negb] in H.
  rewrite bind_at, E1, bind_at, E2 in H.
  destruct (notFinite (mkPoint x0 y0)).
  { injection H as <- <-. reflexivity. }
  rewrite bind_unfold, bind_at, E3, Fx, bind_at, E4 in H.
  unfold mret, M_ret, ret in H. rewrite Fy in H.
  revert H. apply addLoop_pres; [tc_solve | tc_solve |].
  intros. apply pushSegment_queuedClosed.
Qed.

Lemma AddPathEndpoints_coinciding_ends_witness :
  Helpers.Closed openTriangle = false
  /\ exists new,
       queue (snd (AddPathEndpoints Helpers.LineToCmd Helpers.CloseCmd
                     Helpers.cmdLen Helpers.Closed openTriangle 0 false
                     emptyState))
       = queue emptyState ++ new
       /\ Forall (fun e =>
                   exists v,
                     heap (snd (AddPathEndpoints Helpers.LineToCmd
                                  Helpers.CloseCmd Helpers.cmdLen Helpers.Closed
                                  openTriangle 0 false emptyState)) !! e
                     = Some v
                     /\ open v = false /\ end_ v = false) new.
Proof.
  split; [reflexivity |].
  eapply (AddPathEndpoints_coinciding_ends
            Helpers.LineToCmd Helpers.CloseCmd Helpers.cmdLen Helpers.Closed
            openTriangle 0 false (fZ 0) (fZ 0) (fZ 0) (fZ 0) emptyState);
    try reflexivity.
  apply surjective_pairing.
Defined.

(** *** Paths with a point that is not a finite number *)

Lemma queuedSegments_refl st : queuedSegments 0 st st.
Proof.
  split; [exists []; rewrite app_nil_r; repeat split; constructor |].
  repeat split; auto.
Qed.

Lemma queuedSegments_trans n m st st1 st2 :
  queuedSegments n st st1 -> queuedSegments m st1 st2 ->
  queuedSegments (n + m) st st2.
Proof.
  intros ((new1 & Q1 & L1 & F1) & W1 & H1 & Z1)
         ((new2 & Q2 & L2 & F2) & W2 & H2 & Z2).
  split; [exists (new1 ++ new2); split; [| split] |].
  - rewrite Q2, Q1, app_assoc. reflexivity.
  - rewrite length_app. lia.
  - apply Forall_app. split.
    + eapply Forall_impl; [exact F1 |]. intros e [Hn [v Hv]].
      split; [exact Hn |]. exists v. apply H2. exact Hv.
    + eapply Forall_impl; [exact F2 |]. intros e [Hn Hs].
      split; [| exact Hs].
      destruct (heap st !! e) as [v |] eqn:E; [| reflexivity].
      rewrite (H1 _ _ E) in Hn. discriminate.
  - split; [congruence |]. split; [auto |].
    intros Hz. rewrite Z2 by lia. apply Z1. lia.
Qed.

Lemma pushSegment_queued va vb st : queuedSegments 1 st (pushSegment va vb st).
Proof.
  unfold pushSegment.
  set (a := fresh (dom (heap st))).
  set (b := fresh (dom (<[a := zeroSweepPoint]> (heap st)))).
  assert (Ha : heap st !! a = None) by apply fresh_None.
  assert (Hba : b <> a).
  { apply (fresh_ne _ a zeroSweepPoint). apply lookup_insert_eq. }
  assert (Hb : heap st !! b = None).
  { pose proof (fresh_None (<[a := zeroSweepPoint]> (heap st))) as Hx.
    fold b in Hx. rewrite lookup_insert_ne in Hx by done. exact Hx. }
  split; [exists [a; b]; split; [reflexivity | split; [reflexivity |]] |].
  - cbn [heap]. repeat constructor; try assumption.
    + rewrite lookup_insert_ne, lookup_insert_eq by done. eauto.
    + rewrite lookup_insert_eq. eauto.
  - split; [reflexivity |]. split; [| discriminate].
    intros p v Hp. cbn [heap].
    rewrite !lookup_insert_ne by congruence. exact Hp.
Qed.

Section Rejection.

Variables LineToCmd CloseCmd : float64.
Variable cmdLen : float64 -> nat.
Variable Closed : Path -> bool.

(** The commands that pass the test of [AddPathEndpoints] take four numbers. *)
Hypothesis cmdLen_flat :
  forall c, feq c LineToCmd || feq c CloseCmd = true -> cmdLen c = 4%nat.

Lemma at_inside {B} (d : Path) i (k : float64 -> M B) st :
  (i < length d)%nat ->
  exists f, d !! i = Some f /\ (at_ d i ≫= k) st = k f st.
Proof.
  intros Hi. destruct (lookup_lt_is_Some_2 d i Hi) as [f Hf].
  exists f. split; [exact Hf |]. rewrite bind_at, Hf. reflexivity.
Qed.

Lemma length_records (cmds : list (float64 * Point)) :
  length (concat (map record4 cmds)) = (4 * length cmds)%nat.
Proof.
  induction cmds as [| c cmds IH]; [reflexivity |].
  simpl. rewrite IH. lia.
Qed.

Lemma addLoop_rejects (pre : Path) (cmds : list (float64 * Point))
    (fuel : nat) (clipping open : bool) (seg : Z) (start : Point) (st : state)
    (x0 y0 lx ly : float64) :
  let d := pre ++ concat (map record4 cmds) in
  let bad := fne lx x0 || fne ly y0 in
  (4 <= length pre)%nat ->
  d !! 1%nat = Some x0 -> d !! 2%nat = Some y0 ->
  d !! (length d - 3)%nat = Some lx -> d !! (length d - 2)%nat = Some ly ->
  Forall (isFlat LineToCmd CloseCmd) cmds ->
  Exists (fun c => notFinite (snd c) = true) cmds ->
  (length cmds <= fuel)%nat ->
  exists msg st' before c after,
    addLoop LineToCmd CloseCmd cmdLen fuel d clipping open (length pre) seg
            start st
    = (Panic msg, st')
    /\ invalidInput msg
    /\ cmds = before ++ c :: after
    /\ Forall (fun c => faulty CloseCmd bad c = false) before
    /\ faulty CloseCmd bad c = true
    /\ msg = (if feq (fst c) CloseCmd && bad then invalidClose else nanOrInf)
    /\ queuedSegments (segmentsOf start (map snd before)) st st'.
Proof.
  intros d bad Hpre H1 H2 Hlx Hly Hflat Hex Hfuel.
  revert pre fuel seg start st d Hpre H1 H2 Hlx Hly Hfuel.
  induction cmds as [| [c p] cmds IH];
    intros pre fuel seg start st d Hpre H1 H2 Hlx Hly Hfuel.
  { inversion Hex. }
  destruct fuel as [| fuel]; [simpl in Hfuel; lia |].
  assert (Hlen : length d = (length pre + 4 + length (concat (map record4 cmds)))%nat).
  { unfold d. rewrite length_app. simpl. lia. }
  assert (Hd : forall j, (j < 4)%nat ->
                d !! (length pre + j)%nat = [c; X p; Y p; c] !! j).
  { intros j Hj. unfold d. rewrite lookup_app_r by lia.
    replace (length pre + j - length pre)%nat with j by lia.
    destruct j as [| [| [| [| j]]]]; try reflexivity; lia. }
  inversion Hflat as [| ? ? Hc Hflat']; subst.
  unfold isFlat in Hc. cbn [fst] in Hc.
  simpl addLoop. fold d.
  replace (length pre <? length d)%nat with true
    by (symmetry; apply Nat.ltb_lt; lia).
  cbn [negb].
  assert (Hd0 : d !! length pre = Some c).
  { rewrite <- (Nat.add_0_r (length pre)). rewrite Hd by lia. reflexivity. }
  assert (Hd1 : d !! (length pre + 4 - 3)%nat = Some (X p)).
  { replace (length pre + 4 - 3)%nat with (length pre + 1)%nat by lia.
    rewrite Hd by lia. reflexivity. }
  assert (Hd2 : d !! (length pre + 4 - 2)%nat = Some (Y p)).
  { replace (length pre + 4 - 2)%nat with (length pre + 2)%nat by lia.
    rewrite Hd by lia. reflexivity. }
  rewrite bind_at, Hd0.
  replace (fne c LineToCmd && fne c CloseCmd) with false.
  2: { revert Hc. unfold fne, feq.
       destruct (SpecFloat.SFeqb c LineToCmd), (SpecFloat.SFeqb c CloseCmd); simpl; congruence. }
  rewrite bind_unfold.
  match goal with
  | |- context [match ?m st with _ => _ end] =>
      assert (Hbad : m st = (Ret (feq c CloseCmd && bad), st))
  end.
  { destruct (feq c CloseCmd); [| reflexivity]. cbn [andb].
    rewrite bind_at, Hlx, bind_at, H1. unfold bad.
    destruct (fne lx x0); [reflexivity |]. cbn [orb].
    rewrite bind_at, Hly, bind_at, H2. reflexivity. }
  rewrite Hbad.
  destruct (feq c CloseCmd && bad) eqn:Ebad.
  { exists invalidClose, st, [], (c, p), cmds.
    split; [reflexivity |]. split; [right; reflexivity |].
    split; [reflexivity |]. split; [constructor |].
    split; [unfold faulty; cbn [fst snd]; rewrite Ebad; reflexivity |].
    split; [cbn [fst]; rewrite Ebad; reflexivity |].
    apply queuedSegments_refl. }
  rewrite (cmdLen_flat c Hc).
  rewrite bind_at, Hd1, bind_at, Hd2.
  replace (mkPoint (X p) (Y p)) with p by (destruct p; reflexivity).
  destruct (notFinite p) eqn:Hnf.
  { exists nanOrInf, st, [], (c, p), cmds.
    split; [reflexivity |]. split; [left; reflexivity |].
    split; [reflexivity |]. split; [constructor |].
    split; [unfold faulty; cbn [fst snd]; rewrite Ebad, Hnf; reflexivity |].
    split; [cbn [fst]; rewrite Ebad; reflexivity |].
    apply queuedSegments_refl. }
  assert (Hex' : Exists (fun c => notFinite (snd c) = true) cmds).
  { inversion Hex as [? ? Hh | ? ? Ht]; subst; [| exact Ht].
    simpl in Hh. congruence. }
  assert (Hd' : d = (pre ++ record4 (c, p)) ++ concat (map record4 cmds)).
  { unfold d. simpl. rewrite <- app_assoc. reflexivity. }
  assert (Hi : (length pre + 4)%nat = length (pre ++ record4 (c, p))).
  { rewrite length_app. reflexivity. }
  assert (Hok : faulty CloseCmd bad (c, p) = false).
  { unfold faulty. cbn [fst snd]. rewrite Ebad, Hnf. reflexivity. }
  simpl in Hfuel.
  destruct (point_eq start p) eqn:Hpe.
  - rewrite Hi.
    destruct (IH Hflat' Hex' (pre ++ record4 (c, p)) fuel (int_add seg 1)
                start st)
      as (msg & st' & before & c' & after & Hrun & Hmsg & Hsplit & Hbef & Hc'
          & Hm & Hq);
      try (fold d; rewrite <- Hd'; assumption);
      [rewrite length_app; simpl; lia | lia |].
    cbv zeta in Hrun. rewrite <- Hd' in Hrun.
    exists msg, st', ((c, p) :: before), c', after.
    split; [exact Hrun |]. split; [exact Hmsg |].
    split; [rewrite Hsplit; reflexivity |].
    split; [constructor; assumption |]. split; [exact Hc' |].
    split; [exact Hm |].
    cbn [map snd segmentsOf]. rewrite Hpe. exact Hq.
  - rewrite segment_run. rewrite Hi.
    match goal with
    | |- context [pushSegment ?va ?vb st] => set (st1 := pushSegment va vb st);
        pose proof (pushSegment_queued va vb st) as Hpush; fold st1 in Hpush
    end.
    destruct (IH Hflat' Hex' (pre ++ record4 (c, p)) fuel (int_add seg 1)
                p st1)
      as (msg & st' & before & c' & after & Hrun & Hmsg & Hsplit & Hbef & Hc'
          & Hm & Hq);
      try (fold d; rewrite <- Hd'; assumption);
      [rewrite length_app; simpl; lia | lia |].
    cbv zeta in Hrun. rewrite <- Hd' in Hrun.
    exists msg, st', ((c, p) :: before), c', after.
    split; [exact Hrun |]. split; [exact Hmsg |].
    split; [rewrite Hsplit; reflexivity |].
    split; [constructor; assumption |]. split; [exact Hc' |].
    split; [exact Hm |].
    cbn [map snd segmentsOf]. rewrite Hpe.
    exact (queuedSegments_trans 1 _ _ _ _ Hpush Hq).
Qed.

Lemma flatPath_last (m : float64) (start : Point)
    (cmds : list (float64 * Point)) :
  let d := flatPath m start cmds in
  d !! (length d - 3)%nat = Some (X (lastPoint start cmds))
  /\ d !! (length d - 2)%nat = Some (Y (lastPoint start cmds)).
Proof.
  intros d. unfold d, flatPath, lastPoint.
  destruct (decide (cmds = [])) as [-> | Hne].
  - split; reflexivity.
  - destruct (exists_last Hne) as (cmds' & c & ->).
    rewrite last_snoc, map_app, concat_app.
    cbn [map concat snd]. rewrite app_nil_r, app_assoc.
    set (front := [m; X start; Y start; m] ++ concat (map record4 cmds')).
    assert (Hl : length (front ++ record4 c) = (length front + 4)%nat)
      by (rewrite length_app; reflexivity).
    rewrite Hl. clearbody front.
    split.
    + replace (length front + 4 - 3)%nat with (length front + 1)%nat by lia.
      rewrite lookup_app_r by lia.
      replace (length front + 1 - length front)%nat with 1%nat by lia.
      reflexivity.
    + replace (length front + 4 - 2)%nat with (length front + 2)%nat by lia.
      rewrite lookup_app_r by lia.
      replace (length front + 2 - length front)%nat with 2%nat by lia.
      reflexivity.
Qed.

(** C7, as the code has it: on a flat path with a point that is not a
    finite number [AddPathEndpoints] panics, with the message for NaN or
    infinite coordinates or with the message of the test of a Close command
    when that comes first.  The state is untouched when the start point is at
    fault.  Otherwise the call panics at the first command that fails its
    test, and by then two new events have been created and queued for every
    earlier command whose point differs from the start of its segment, and
    nothing else has changed; the state is untouched exactly when there is
    no such command. *)
Theorem AddPathEndpoints_rejects
    (m : float64) (start : Point) (cmds : list (float64 * Point))
    (seg : Z) (clipping : bool) (st : state) :
  Forall (isFlat LineToCmd CloseCmd) cmds ->
  notFinite start = true \/ Exists (fun c => notFinite (snd c) = true) cmds ->
  exists msg st',
    AddPathEndpoints LineToCmd CloseCmd cmdLen Closed (flatPath m start cmds)
                     seg clipping st
    = (Panic msg, st')
    /\ invalidInput msg
    /\ (notFinite start = true -> msg = nanOrInf /\ st' = st)
    /\ (notFinite start = false ->
        exists before c after,
          cmds = before ++ c :: after
          /\ Forall (fun c => faulty CloseCmd (badClose start cmds) c = false)
                    before
          /\ faulty CloseCmd (badClose start cmds) c = true
          /\ msg = (if feq (fst c) CloseCmd && badClose start cmds
                    then invalidClose else nanOrInf)
          /\ queuedSegments (segmentsOf start (map snd before)) st st'
          /\ (st' = st <-> segmentsOf start (map snd before) = 0%nat)).
Proof.
  intros Hflat Hnf.
  unfold AddPathEndpoints.
  set (d := flatPath m start cmds).
  assert (Hlen : length d = (4 + 4 * length cmds)%nat).
  { unfold d, flatPath. rewrite length_app, length_records. reflexivity. }
  replace (length d =? 0)%nat with false
    by (symmetry; apply Nat.eqb_neq; lia).
  rewrite bind_at. change (d !! 1%nat) with (Some (X start)). cbv iota.
  rewrite bind_at. change (d !! 2%nat) with (Some (Y start)). cbv iota.
  replace (mkPoint (X start) (Y start)) with start by (destruct start; reflexivity).
  destruct (notFinite start) eqn:Hs.
  { exists nanOrInf, st. split; [reflexivity |].
    split; [left; reflexivity |]. split; [auto | discriminate]. }
  destruct Hnf as [Hnf | Hex]; [discriminate |].
  rewrite bind_unfold.
  match goal with
  | |- context [match ?m st with _ => _ end] =>
      assert (Hco : exists co, m st = (Ret co, st))
  end.
  { destruct (negb (Closed d)); [| eexists; reflexivity].
    repeat match goal with
           | |- exists _, (at_ d ?i ≫= ?k) st = _ =>
               let f := fresh "f" in
               destruct (at_inside d i k st) as (f & _ & ->); [lia |]
           | |- exists _, (if ?b then _ else _) st = _ => destruct b
           end; eexists; reflexivity. }
  destruct Hco as [co ->].
  destruct (flatPath_last m start cmds) as [Hlx Hly]. fold d in Hlx, Hly.
  assert (H4 : (4 <= length [m; X start; Y start; m])%nat) by (simpl; lia).
  assert (Hfuel : (length cmds <= length d)%nat) by lia.
  destruct (addLoop_rejects [m; X start; Y start; m] cmds (length d) clipping
              (if co then false else negb (Closed d)) seg start st
              (X start) (Y start)
              (X (lastPoint start cmds)) (Y (lastPoint start cmds))
              H4 eq_refl eq_refl Hlx Hly Hflat Hex Hfuel)
    as (msg & st' & before & c & after & Hrun & Hmsg & Hsplit & Hbef & Hc
        & Hm & Hq).
  exists msg, st'. split; [exact Hrun |]. split; [exact Hmsg |].
    split; [discriminate |]. intros _.
    exists before, c, after.
    split; [exact Hsplit |]. split; [exact Hbef |]. split; [exact Hc |].
    split; [exact Hm |]. split; [exact Hq |]. split.
    + intros ->. destruct Hq as ((new & Q & L & _) & _).
      assert (length (queue st) = length (queue st ++ new)) as E
        by (rewrite <- Q; reflexivity).
      rewrite length_app in E. lia.
    + intros E. destruct Hq as (_ & _ & _ & Z). exact (Z E).
Qed.

End Rejection.

Lemma AddPathEndpoints_rejects_witness :
  Forall (isFlat Helpers.LineToCmd Helpers.CloseCmd)
         [(Helpers.LineToCmd, P 1 0); (Helpers.LineToCmd, mkPoint fNaN (fZ 0))]
  /\ exists msg st',
       AddPathEndpoints Helpers.LineToCmd Helpers.CloseCmd (fun _ => 4%nat)
         Helpers.Closed nanPath 0 false emptyState
       = (Panic msg, st')
       /\ invalidInput msg
       /\ (notFinite (P 0 0) = true -> msg = nanOrInf /\ st' = emptyState)
       /\ (notFinite (P 0 0) = false ->
           exists before c after,
             [(Helpers.LineToCmd, P 1 0);
              (Helpers.LineToCmd, mkPoint fNaN (fZ 0))]
             = before ++ c :: after
             /\ Forall (fun c =>
                          faulty Helpers.CloseCmd
                            (badClose (P 0 0)
                               [(Helpers.LineToCmd, P 1 0);
                                (Helpers.LineToCmd, mkPoint fNaN (fZ 0))]) c
                          = false) before
             /\ faulty Helpers.CloseCmd
                   (badClose (P 0 0)
                      [(Helpers.LineToCmd, P 1 0);
                       (Helpers.LineToCmd, mkPoint fNaN (fZ 0))]) c = true
             /\ msg = (if feq (fst c) Helpers.CloseCmd
                          && badClose (P 0 0)
                               [(Helpers.LineToCmd, P 1 0);
                                (Helpers.LineToCmd, mkPoint fNaN (fZ 0))]
                       then invalidClose else nanOrInf)
             /\ queuedSegments (segmentsOf (P 0 0) (map snd before))
                   emptyState st'
             /\ (st' = emptyState
                 <-> segmentsOf (P 0 0) (map snd before) = 0%nat)).
Proof.
  assert (H : Forall (isFlat Helpers.LineToCmd Helpers.CloseCmd)
                [(Helpers.LineToCmd, P 1 0);
                 (Helpers.LineToCmd, mkPoint fNaN (fZ 0))]).
  { repeat constructor. }
  split; [exact H |].
  apply (AddPathEndpoints_rejects Helpers.LineToCmd Helpers.CloseCmd
           (fun _ => 4%nat) Helpers.Closed (fun _ _ => eq_refl)
           Helpers.MoveToCmd (P 0 0) _ 0 false emptyState H).
  right. apply Exists_cons_tl, Exists_cons_hd. reflexivity.
Defined.

(** C7, as the specification has it, fails: the third point of [nanPath] is
    not a number, and when [AddPathEndpoints] rejects the path the two
    events of its first segment are already in the queue. *)
Lemma AddPathEndpoints_rejects_late :
  fst (AddPathEndpoints Helpers.LineToCmd Helpers.CloseCmd Helpers.cmdLen
         Helpers.Closed nanPath 0 false emptyState)
  = Panic nanOrInf
  /\ queue (snd (AddPathEndpoints Helpers.LineToCmd Helpers.CloseCmd
                   Helpers.cmdLen Helpers.Closed nanPath 0 false emptyState))
     = [0%nat; 1%nat]
  /\ snd (AddPathEndpoints Helpers.LineToCmd Helpers.CloseCmd Helpers.cmdLen
            Helpers.Closed nanPath 0 false emptyState)
     <> emptyState.
Proof.
  split; [vm_compute; reflexivity |].
  split; [vm_compute; reflexivity |].
  intros H. apply (f_equal queue) in H. vm_compute in H. discriminate.
Qed.

(** ** The vertical order of coinciding segments *)

Section Comparators.

Variable Interpolate : Point -> Point -> float64 -> Point.

Lemma compareOverlapsV_run a b st av bv :
  heap st !! a = Some av -> heap st !! b = Some bv ->
  compareOverlapsV a b st
  = (Ret (if negb (eqb (clipping av) (clipping bv))
          then (if clipping bv then -1 else 1)
          else if negb (segment av =? segment bv)
               then (if segment av <? segment bv then -1 else 1)
               else 0), st).
Proof.
  intros Ea Eb. unfold compareOverlapsV.
  rewrite bind_load, Ea, bind_load, Eb.
  destruct (negb (eqb (clipping av) (clipping bv)));
    [destruct (clipping bv); reflexivity |].
  destruct (negb (segment av =? segment bv)); [| reflexivity].
  destruct (segment av <? segment bv); reflexivity.
Qed.

(** C6, as the code has it: when two segments coincide point for point, the
    vertical comparator puts the subject segment before the clipping
    segment, and within the same input the segment with the lower index
    first; this is the order at left endpoints, and the reverse order is
    used at right endpoints. *)
Theorem CompareV_coincident (a b ao bo : ptr) (av bv aov bov : SweepPoint)
    (st : state) :
  heap st !! a = Some av -> heap st !! b = Some bv ->
  other av = Some ao -> heap st !! ao = Some aov ->
  other bv = Some bo -> heap st !! bo = Some bov ->
  point_eq (pt av) (pt bv) = true ->
  point_eq (pt aov) (pt bov) = true ->
  vertical av = vertical bv ->
  exists c,
    CompareV Interpolate a b st
    = (Ret ((if left_ av then 1 else -1) * c), st)
    /\ (clipping av = false -> clipping bv = true -> c = -1)
    /\ (clipping av = true -> clipping bv = false -> c = 1)
    /\ (clipping av = clipping bv -> segment av < segment bv -> c = -1)
    /\ (clipping av = clipping bv -> segment bv < segment av -> c = 1)
    /\ (clipping av = clipping bv -> segment av = segment bv -> c = 0).
Proof.
  intros Ea Eb Eao Eaov Ebo Ebov Hp Ho Hv.
  unfold point_eq in Hp, Ho.
  apply andb_true_iff in Hp as [HpX HpY].
  eexists. split.
  - unfold CompareV. rewrite bind_load, Ea, bind_load, Eb, HpX, HpY.
    unfold compareTangentsV. rewrite bind_load, Ea, bind_load, Eb.
    rewrite <- Hv.
    destruct (vertical av).
    + rewrite HpY. unfold signed.
      rewrite (bind_Ret _ _ _ _ _ (compareOverlapsV_run a b st av bv Ea Eb)).
      reflexivity.
    + rewrite bind_nonnil, Eao, bind_load, Eaov, bind_nonnil, Ebo, bind_load, Ebov.
      rewrite Ho. unfold signed.
      rewrite (bind_Ret _ _ _ _ _ (compareOverlapsV_run a b st av bv Ea Eb)).
      reflexivity.
  - repeat split.
    + intros -> ->. reflexivity.
    + intros -> ->. reflexivity.
    + intros -> Hlt. rewrite eqb_reflx. cbn [negb].
      replace (segment av =? segment bv) with false
        by (symmetry; apply Z.eqb_neq; lia).
      replace (segment av <? segment bv) with true
        by (symmetry; apply Z.ltb_lt; lia).
      reflexivity.
    + intros -> Hlt. rewrite eqb_reflx. cbn [negb].
      replace (segment av =? segment bv) with false
        by (symmetry; apply Z.eqb_neq; lia).
      replace (segment av <? segment bv) with false
        by (symmetry; apply Z.ltb_ge; lia).
      reflexivity.
    + intros -> ->. rewrite eqb_reflx, Z.eqb_refl. reflexivity.
Qed.

End Comparators.

Lemma CompareV_coincident_witness :
  exists c,
    CompareV Helpers.Interpolate 0%nat 2%nat coincideState
    = (Ret (1 * c), coincideState)
    /\ c = -1.
Proof.
  destruct (CompareV_coincident Helpers.Interpolate 0%nat 2%nat 1%nat 3%nat
              (seg_event (P 0 0) 1%nat 1 false true None)
              (seg_event (P 0 0) 3%nat 1 true true None)
              (seg_event (P 1 1) 0%nat 1 false false None)
              (seg_event (P 1 1) 2%nat 1 true false None)
              coincideState
              eq_refl eq_refl eq_refl eq_refl eq_refl eq_refl
              eq_refl eq_refl eq_refl)
    as (c & Hrun & Hsc & _).
  exists c. split; [exact Hrun | exact (Hsc eq_refl eq_refl)].
Defined.

(** C6, as the specification has it, fails: of two coinciding segments the
    clipping one (event 2) comes after the subject one (event 0). *)
Lemma CompareV_clipping_after_subject :
  CompareV Helpers.Interpolate 2%nat 0%nat coincideState
  = (Ret 1, coincideState)
  /\ CompareV Helpers.Interpolate 0%nat 2%nat coincideState
     = (Ret (-1), coincideState).
Proof. split; vm_compute; reflexivity. Qed.

(** ** Intersections found while a right endpoint is processed *)











(** ** Intersections of a path with a ray *)

Lemma insertBack_Forall {A} (Q : A -> Prop) less x (l : list A) :
  Q x -> Forall Q l -> Forall Q (insertBack less x l).
Proof.
  intros Hx Hl. induction Hl as [| p l Hp Hl IH]; simpl.
  - constructor; [exact Hx | constructor].
  - destruct (less x p); constructor; auto.
Qed.

Lemma SliceStable_Forall {A} (Q : A -> Prop) less (l : list A) :
  Forall Q l -> Forall Q (SliceStable less l).
Proof.
  intros Hl. unfold SliceStable. apply Forall_rev.
  assert (G : forall acc, Forall Q acc ->
                Forall Q (fold_left (fun r x => insertBack less x r) l acc)).
  { induction Hl as [| x l Hx Hl IH]; intros acc Hacc; simpl; [exact Hacc |].
    apply IH. apply insertBack_Forall; assumption. }
  apply G. constructor.
Qed.

(** Whatever the helpers, the parameter along the ray that
    [RayIntersections] reports is zero or not a number. *)
Lemma RayIntersections_T
    MoveToCmd LineToCmd QuadToCmd CubeToCmd ArcToCmd CloseCmd cmdLen Epsilon
    Interval Equal lineLine lineQuad lineCube lineEllipse toArcFlags
    ellipseToCenter d x y st zs st' :
  RayIntersections MoveToCmd LineToCmd QuadToCmd CubeToCmd ArcToCmd CloseCmd
    cmdLen Epsilon Interval Equal lineLine lineQuad lineCube lineEllipse
    toArcFlags ellipseToCenter d x y st = (Ret zs, st') ->
  Forall (fun z => feq (fst (T z)) (S754_zero false) = true
                   \/ fst (T z) = fNaN) zs.
Proof.
  unfold RayIntersections. intros H.
  apply bind_Ret_inv in H as (zs0 & st1 & _ & H).
  injection H as <- <-.
  apply SliceStable_Forall. apply Forall_map.
  apply Forall_forall. intros z _. unfold markT, fne, feq.
  destruct (SFeqb (fst (T z)) (S754_zero false)) eqn:E; simpl.
  - left. exact E.
  - right. reflexivity.
Qed.

Lemma rayOf_square :
  rayOf squarePath (fZ (-1)) half = Ret [squareHit1; squareHit2].
Proof. vm_compute. reflexivity. Qed.

(** C9, as the code has it: the ray from (-1, 0.5) meets the square at x = 0
    and x = 2, in this order, and the parameter of both intersections is not
    a number, for neither lies at the start of the ray. *)
Theorem RayIntersections_square :
  exists z1 z2,
    rayOf squarePath (fZ (-1)) half = Ret [z1; z2]
    /\ ipt z1 = mkPoint (fZ 0) half /\ fst (T z1) = fNaN
    /\ ipt z2 = mkPoint (fZ 2) half /\ fst (T z2) = fNaN.
Proof.
  exists squareHit1, squareHit2. split; [exact rayOf_square |].
  repeat split; vm_compute; reflexivity.
Qed.

(** The parameter zero is reported when the ray starts on the path. *)
Lemma RayIntersections_square_on_path :
  exists z1 z2,
    rayOf squarePath (fZ 0) half = Ret [z1; z2]
    /\ ipt z1 = mkPoint (fZ 0) half
    /\ feq (fst (T z1)) (S754_zero false) = true
    /\ ipt z2 = mkPoint (fZ 2) half /\ fst (T z2) = fNaN.
Proof.
  eexists. eexists. split; [vm_compute; reflexivity |].
  repeat split; vm_compute; reflexivity.
Qed.

(** C9, as the specification has it, fails: the first intersection does not
    have the parameter zero. *)
Lemma RayIntersections_square_first_T :
  ~ exists z1 z2,
      rayOf squarePath (fZ (-1)) half = Ret [z1; z2]
      /\ feq (X (ipt z1)) (fZ 0) = true
      /\ feq (fst (T z1)) (S754_zero false) = true
      /\ feq (X (ipt z2)) (fZ 2) = true
      /\ fst (T z2) = fNaN.
Proof.
  intros (z1 & z2 & H & _ & HT & _).
  rewrite rayOf_square in H. injection H as <- <-.
  vm_compute in HT. discriminate.
Qed.

(** ** The relation of two shapes *)

(** A property of all bytes is checked on the 256 of them. *)
Lemma bytes_forall (Q : Z -> bool) :
  forallb Q bytes = true -> forall rel, 0 <= rel < 256 -> Q rel = true.
Proof.
  intros H rel Hrel. rewrite forallb_forall in H. apply H.
  unfold bytes. apply in_map_iff. exists (Z.to_nat rel).
  split; [lia |]. apply in_seq. lia.
Qed.

(** The relations Equals, Touches and Overlaps exclude one another, each of
    them needs the shapes to intersect, and Disjoint excludes them all. *)
Theorem Relation_classes (rel : Z) :
  0 <= rel < 256 ->
  (Relation.Equals rel = true ->
     Relation.Touches rel = false /\ Relation.Overlaps rel = false)
  /\ (Relation.Touches rel = true -> Relation.Overlaps rel = false)
  /\ (Relation.Equals rel = true \/ Relation.Touches rel = true
      \/ Relation.Overlaps rel = true \/ Relation.Contains rel = true
      \/ Relation.Within rel = true ->
      Relation.Intersects rel = true /\ Relation.Disjoint rel = false).
Proof.
  intros Hrel.
  pose proof (bytes_forall
    (fun rel =>
       implb (Relation.Equals rel)
             (negb (Relation.Touches rel) && negb (Relation.Overlaps rel))
       && implb (Relation.Touches rel) (negb (Relation.Overlaps rel))
       && implb (Relation.Equals rel || Relation.Touches rel
                 || Relation.Overlaps rel || Relation.Contains rel
                 || Relation.Within rel)
                (Relation.Intersects rel && negb (Relation.Disjoint rel)))
    eq_refl rel Hrel) as H.
  cbv beta in H.
  destruct (Relation.Equals rel), (Relation.Touches rel),
    (Relation.Overlaps rel), (Relation.Contains rel), (Relation.Within rel),
    (Relation.Intersects rel), (Relation.Disjoint rel);
    simpl in H; try discriminate; intuition congruence.
Qed.

Lemma Relation_classes_witness :
  0 <= 1 < 256
  /\ (Relation.Equals 1 = true ->
        Relation.Touches 1 = false /\ Relation.Overlaps 1 = false).
Proof.
  split; [lia |].
  exact (proj1 (Relation_classes 1 ltac:(lia))).
Defined.

(** Equal shapes contain each other, and shapes that overlap do not: neither
    contains the other. *)
Theorem Relation_containment (rel : Z) :
  0 <= rel < 256 ->
  (Relation.Equals rel = true ->
     Relation.Contains rel = true /\ Relation.Within rel = true)
  /\ (Relation.Overlaps rel = true ->
        Relation.Contains rel = false /\ Relation.Within rel = false).
Proof.
  intros Hrel.
  pose proof (bytes_forall
    (fun rel =>
       implb (Relation.Equals rel)
             (Relation.Contains rel && Relation.Within rel)
       && implb (Relation.Overlaps rel)
                (negb (Relation.Contains rel) && negb (Relation.Within rel)))
    eq_refl rel Hrel) as H.
  cbv beta in H.
  destruct (Relation.Equals rel), (Relation.Overlaps rel),
    (Relation.Contains rel), (Relation.Within rel);
    simpl in H; try discriminate; intuition congruence.
Qed.

Lemma Relation_containment_witness :
  0 <= 69 < 256
  /\ (Relation.Overlaps 69 = true ->
        Relation.Contains 69 = false /\ Relation.Within 69 = false).
Proof.
  split; [lia |].
  exact (proj2 (Relation_containment 69 ltac:(lia))).
Defined.

(** The text of a relation has nine characters, the last of which is T, and
    two bytes with the same text are the same byte. *)
Theorem Relation_String (rel rel' : Z) :
  0 <= rel < 256 -> 0 <= rel' < 256 ->
  String.length (Relation.String rel) = 9%nat
  /\ String.get 8 (Relation.String rel) = Some "T"%char
  /\ (Relation.String rel = Relation.String rel' -> rel = rel').
Proof.
  intros Hrel Hrel'.
  split; [reflexivity |]. split; [reflexivity |].
  intros E.
  pose proof (bytes_forall
    (fun r => forallb (fun r' =>
                implb (String.eqb (Relation.String r) (Relation.String r'))
                      (r =? r')) bytes)) as H.
  assert (H0 : forallb
                 (fun r => forallb (fun r' =>
                    implb (String.eqb (Relation.String r) (Relation.String r'))
                          (r =? r')) bytes) bytes = true)
    by (vm_compute; reflexivity).
  specialize (H H0 rel Hrel). cbv beta in H.
  pose proof (bytes_forall _ H rel' Hrel') as H1. cbv beta in H1.
  rewrite E, String.eqb_refl in H1. simpl in H1. apply Z.eqb_eq. exact H1.
Qed.

Lemma Relation_String_witness :
  0 <= 27 < 256
  /\ String.length (Relation.String 27) = 9%nat
  /\ String.get 8 (Relation.String 27) = Some "T"%char.
Proof.
  split; [lia |].
  destruct (Relation_String 27 27 ltac:(lia) ltac:(lia)) as (H1 & H2 & _).
  exact (conj H1 H2).
Defined.

(** ** Comparing floating-point numbers *)

Lemma SFcompare_antisym (x y : float64) :
  SFcompare y x = option_map CompOpp (SFcompare x y).
Proof.
  destruct x as [sx | sx | | sx mx ex], y as [sy | sy | | sy my ey];
    try (destruct sx); try (destruct sy); try reflexivity; simpl;
    rewrite (Z.compare_antisym ex ey);
    destruct (ex ?= ey); simpl; try reflexivity;
    rewrite (Pos.compare_cont_antisym mx my Eq); simpl; reflexivity.
Qed.

Lemma SFcompare_Some (x y : float64) :
  IsNaN x = false -> IsNaN y = false -> exists c, SFcompare x y = Some c.
Proof.
  intros Hx Hy.
  destruct x as [sx | sx | | sx mx ex], y as [sy | sy | | sy my ey];
    try discriminate; simpl; eauto.
Qed.

(** Two numbers are ordered one way, the other way, or equal. *)
Lemma float_trichotomy (x y : float64) :
  IsNaN x = false -> IsNaN y = false ->
  (flt x y = true /\ feq x y = false /\ flt y x = false /\ feq y x = false)
  \/ (flt x y = false /\ feq x y = true /\ flt y x = false /\ feq y x = true)
  \/ (flt x y = false /\ feq x y = false /\ flt y x = true /\ feq y x = false).
Proof.
  intros Hx Hy. unfold flt, feq, SFltb, SFeqb.
  rewrite (SFcompare_antisym x y).
  destruct (SFcompare_Some x y Hx Hy) as [c ->].
  destruct c; simpl; [right; left | left | right; right]; auto.
Qed.

(** ** The two orders of the queue, and the order of the status *)

Lemma fne_feq (x y : float64) : fne x y = negb (feq x y).
Proof. reflexivity. Qed.

Section Orders.

Variable Interpolate : Point -> Point -> float64 -> Point.

(** The queue is ordered with [LessH] and the events of a square are sorted
    with [CompareH]: on events whose coordinates are numbers the two agree,
    [a] is less than [b] exactly when the comparison is negative. *)
Theorem LessH_CompareH (a b : ptr) (av bv : SweepPoint) (c : Z)
    (st st' : state) :
  heap st !! a = Some av -> heap st !! b = Some bv ->
  isNumber (pt av) -> isNumber (pt bv) ->
  CompareH Interpolate a b st = (Ret c, st') ->
  LessH Interpolate a b st = (Ret (c <? 0), st').
Proof.
  intros Ea Eb [HaX HaY] [HbX HbY] H.
  unfold CompareH in H. unfold LessH.
  rewrite bind_load, Ea, bind_load, Eb in H.
  rewrite bind_load, Ea, bind_load, Eb.
  rewrite !fne_feq.
  destruct (float_trichotomy _ _ HaX HbX)
    as [(L1 & E1 & L2 & _) | [(L1 & E1 & L2 & _) | (L1 & E1 & L2 & _)]];
    rewrite L1, ?L2 in H; rewrite E1, ?L1; cbn [negb].
  - injection H as <- <-. reflexivity.
  - destruct (float_trichotomy _ _ HaY HbY)
      as [(M1 & F1 & M2 & _) | [(M1 & F1 & M2 & _) | (M1 & F1 & M2 & _)]];
      rewrite M1, ?M2 in H; rewrite F1, ?M1; cbn [negb].
    + injection H as <- <-. reflexivity.
    + destruct (left_ av), (left_ bv); cbn [negb andb eqb] in H |- *.
      * rewrite bind_unfold, H. reflexivity.
      * injection H as <- <-. reflexivity.
      * injection H as <- <-. reflexivity.
      * rewrite bind_unfold, H. reflexivity.
    + injection H as <- <-. reflexivity.
  - injection H as <- <-. reflexivity.
Qed.

End Orders.

Section Orders2.

Variable Interpolate : Point -> Point -> float64 -> Point.

(** The order of the status does not depend on which of two segments is
    asked first: when their left points differ (and are numbers), swapping
    the arguments of [CompareV] negates the result. *)
Theorem CompareV_antisym (a b : ptr) (av bv : SweepPoint) (c : Z)
    (st st' : state) :
  heap st !! a = Some av -> heap st !! b = Some bv ->
  isNumber (pt av) -> isNumber (pt bv) ->
  point_eq (pt av) (pt bv) = false ->
  CompareV Interpolate a b st = (Ret c, st') ->
  CompareV Interpolate b a st = (Ret (- c), st').
Proof.
  intros Ea Eb [HaX HaY] [HbX HbY] Hne H.
  unfold point_eq in Hne.
  unfold CompareV in H |- *.
  rewrite bind_load, Ea, bind_load, Eb in H.
  rewrite bind_load, Eb, bind_load, Ea.
  destruct (float_trichotomy _ _ HaX HbX)
    as [(L1 & E1 & L2 & E2) | [(L1 & E1 & L2 & E2) | (L1 & E1 & L2 & E2)]];
    rewrite E1, ?L1 in H; rewrite E2, ?L2; rewrite E1 in Hne.
  - apply bind_Ret_inv in H as (c' & st1 & Hc & H).
    injection H as <- <-. rewrite Z.opp_involutive. exact Hc.
  - cbn [andb] in Hne.
    destruct (float_trichotomy _ _ HaY HbY)
      as [(M1 & F1 & M2 & F2) | [(M1 & F1 & M2 & F2) | (M1 & F1 & M2 & F2)]];
      rewrite F1, ?M1 in H; rewrite F2, ?M2; try congruence.
    + injection H as <- <-. reflexivity.
    + injection H as <- <-. reflexivity.
  - rewrite bind_unfold, H. reflexivity.
Qed.

(** Of two coinciding segments the one is before the other exactly when the
    other is after it, and neither is first only for events of the same
    input with the same segment index. *)
Theorem compareOverlapsV_antisym (a b : ptr) (av bv : SweepPoint) (st : state) :
  heap st !! a = Some av -> heap st !! b = Some bv ->
  exists c,
    compareOverlapsV a b st = (Ret c, st)
    /\ compareOverlapsV b a st = (Ret (- c), st)
    /\ (c = 0 <-> clipping av = clipping bv /\ segment av = segment bv).
Proof.
  intros Ea Eb.
  rewrite (compareOverlapsV_run a b st av bv Ea Eb).
  rewrite (compareOverlapsV_run b a st bv av Eb Ea).
  eexists. split; [reflexivity |].
  destruct (clipping av), (clipping bv); cbn [eqb negb];
    try (split; [reflexivity | split; [discriminate | intros [? _]; discriminate]]).
  all: destruct (Z.compare_spec (segment av) (segment bv)) as [E | L | G].
  all: try (rewrite E, Z.eqb_refl; cbn [negb];
            split; [reflexivity | split; auto]).
  all: try (replace (segment av =? segment bv) with false
              by (symmetry; apply Z.eqb_neq; lia);
            replace (segment bv =? segment av) with false
              by (symmetry; apply Z.eqb_neq; lia);
            cbn [negb]).
  all: try (replace (segment av <? segment bv) with true
              by (symmetry; apply Z.ltb_lt; lia);
            replace (segment bv <? segment av) with false
              by (symmetry; apply Z.ltb_ge; lia);
            split; [reflexivity | split; [discriminate | intros [_ ?]; lia]]).
  all: try (replace (segment av <? segment bv) with false
              by (symmetry; apply Z.ltb_ge; lia);
            replace (segment bv <? segment av) with true
              by (symmetry; apply Z.ltb_lt; lia);
            split; [reflexivity | split; [discriminate | intros [_ ?]; lia]]).
Qed.

End Orders2.

Lemma LessH_CompareH_witness :
  CompareH Helpers.Interpolate 3%nat 1%nat crossState = (Ret (-1), crossState)
  /\ LessH Helpers.Interpolate 3%nat 1%nat crossState
     = (Ret (-1 <? 0), crossState).
Proof.
  assert (H : CompareH Helpers.Interpolate 3%nat 1%nat crossState
              = (Ret (-1), crossState)) by (vm_compute; reflexivity).
  split; [exact H |].
  refine (LessH_CompareH Helpers.Interpolate 3%nat 1%nat
            (status_event (P 2 0) 2%nat 2 false None)
            (status_event (P 2 2) 0%nat 1 false None)
            (-1) crossState crossState _ _ _ _ H);
    vm_compute; auto.
Defined.

Lemma CompareV_antisym_witness :
  CompareV Helpers.Interpolate 5%nat 0%nat crossState = (Ret 1, crossState)
  /\ CompareV Helpers.Interpolate 0%nat 5%nat crossState
     = (Ret (- 1), crossState).
Proof.
  assert (H : CompareV Helpers.Interpolate 5%nat 0%nat crossState
              = (Ret 1, crossState)) by (vm_compute; reflexivity).
  split; [exact H |].
  refine (CompareV_antisym Helpers.Interpolate 5%nat 0%nat
            (status_event (P 1 1) 4%nat 3 false None)
            (status_event (P 0 0) 1%nat 1 true (Some 0%nat))
            1 crossState crossState _ _ _ _ _ H);
    vm_compute; auto.
Defined.

Lemma compareOverlapsV_antisym_witness :
  exists c,
    compareOverlapsV 0%nat 2%nat coincideState = (Ret c, coincideState)
    /\ compareOverlapsV 2%nat 0%nat coincideState = (Ret (- c), coincideState)
    /\ (c = 0 <-> false = true /\ 1 = 1).
Proof.
  refine (compareOverlapsV_antisym 0%nat 2%nat
            (seg_event (P 0 0) 1%nat 1 false true None)
            (seg_event (P 0 0) 3%nat 1 true true None)
            coincideState _ _); vm_compute; reflexivity.
Defined.

(* ===================================================================== *)
(** ** The event queue *)

#[export] Instance sameEvents_refl : Reflexive sameEvents.
Proof. intros st. repeat split; reflexivity. Qed.

#[export] Instance sameEvents_trans : Transitive sameEvents.
Proof.
  intros a b c (H1 & W1 & Q1) (H2 & W2 & Q2).
  repeat split; [congruence | congruence | etransitivity; eassumption].
Qed.

#[export] Instance sameEventsBelow_refl n : Reflexive (sameEventsBelow n).
Proof. intros st. split; [reflexivity | auto]. Qed.

#[export] Instance sameEventsBelow_trans n : Transitive (sameEventsBelow n).
Proof.
  intros a b c [S1 K1] [S2 K2]. split; [etransitivity; eassumption |].
  intros k Hk. rewrite K2, K1 by done. reflexivity.
Qed.

Lemma eq_sameEvents {A} (m : M A) : pres eq m -> pres sameEvents m.
Proof. intros H st r st' E. rewrite <- (H _ _ _ E). reflexivity. Qed.

Lemma eq_sameEventsBelow n {A} (m : M A) :
  pres eq m -> pres (sameEventsBelow n) m.
Proof. intros H st r st' E. rewrite <- (H _ _ _ E). reflexivity. Qed.

(** As [pres_steps], with the facts at hand about the computations called. *)
Ltac pres_calls upd :=
  repeat first
    [ match goal with
      | H : context [pres] |- pres _ _ => apply H
      end
    | apply pres_bind; [tc_solve | solve [pres_calls upd] | intros ? ]
    | apply pres_ret; tc_solve
    | apply pres_panic; tc_solve
    | apply pres_outOfFuel; tc_solve
    | apply pres_getState; tc_solve
    | apply pres_load; tc_solve
    | apply pres_nonnil; tc_solve
    | apply pres_at; tc_solve
    | apply pres_update; [tc_solve | upd]
    | match goal with
      | |- pres _ (if ?b then _ else _) => destruct b
      | |- pres _ (match ?o with Some _ => _ | None => _ end) => destruct o
      end ].

(** As [total_steps], with the facts at hand about the computations called. *)
Ltac total_calls :=
  repeat first
    [ match goal with
      | H : context [total] |- total _ => apply H
      end
    | apply total_bind; [solve [total_calls] | intros ? ]
    | apply total_ret
    | apply total_panic
    | apply total_load
    | apply total_nonnil
    | apply total_update
    | apply total_getState
    | apply total_modifyQueue
    | apply total_warn
    | match goal with
      | |- total (if ?b then _ else _) => destruct b
      | |- total (match ?o with Some _ => _ | None => _ end) => destruct o
      end ].

Section QueueFacts.

Variable Interpolate : Point -> Point -> float64 -> Point.

Lemma qindex_readonly i : pres eq (qindex i).
Proof.
  intros st r st'. unfold qindex.
  destruct (i <? 0); [intros [= <- <-]; reflexivity |].
  destruct (queue st !! Z.to_nat i); intros [= <- <-]; reflexivity.
Qed.

Lemma InterpolateY_readonly s x : pres eq (InterpolateY Interpolate s x).
Proof. unfold InterpolateY. pres_calls idtac. Qed.

Lemma compareOverlapsV_readonly a b : pres eq (compareOverlapsV a b).
Proof. unfold compareOverlapsV. pres_calls idtac. Qed.

Lemma compareTangentsV_readonly a b :
  pres eq (compareTangentsV Interpolate a b).
Proof.
  pose proof InterpolateY_readonly. pose proof compareOverlapsV_readonly.
  unfold compareTangentsV, signed.
  pres_calls idtac.
Qed.

Lemma LessH_readonly a b : pres eq (LessH Interpolate a b).
Proof.
  pose proof compareTangentsV_readonly.
  unfold LessH. pres_calls idtac.
Qed.

Lemma Less_readonly i j : pres eq (Less Interpolate i j).
Proof.
  pose proof qindex_readonly. pose proof LessH_readonly.
  unfold Less. pres_calls idtac.
Qed.

Lemma Swap_sameEvents i j : pres sameEvents (Swap i j).
Proof.
  intros st r st'. unfold Swap.
  rewrite bind_unfold.
  destruct (qindex j st) as [[qj | msg |] st1] eqn:Ej;
    pose proof (qindex_readonly _ _ _ _ Ej) as <-;
    [| intros [= <- <-]; reflexivity | intros [= <- <-]; reflexivity].
  rewrite bind_unfold.
  destruct (qindex i st) as [[qi | msg |] st1] eqn:Ei;
    pose proof (qindex_readonly _ _ _ _ Ei) as <-;
    [| intros [= <- <-]; reflexivity | intros [= <- <-]; reflexivity].
  intros [= <- <-]. repeat split; cbn [heap queue warnings set_queue].
  unfold qindex in Ei, Ej.
  destruct (i <? 0); [discriminate |].
  destruct (j <? 0); [discriminate |].
  destruct (queue st !! Z.to_nat i) as [x |] eqn:Hi; [| discriminate].
  destruct (queue st !! Z.to_nat j) as [y |] eqn:Hj; [| discriminate].
  injection Ei as <-. injection Ej as <-.
  apply Permutation_insert_swap; assumption.
Qed.

Lemma up_sameEvents fuel j : pres sameEvents (up Interpolate fuel j).
Proof.
  revert j. induction fuel as [| fuel IH]; intros j; simpl.
  - apply pres_outOfFuel. tc_solve.
  - pose proof Swap_sameEvents.
    pose proof (fun i j => eq_sameEvents _ (Less_readonly i j)).
    destruct (Z.quot (j - 1) 2 =? j); pres_calls idtac.
Qed.


Lemma qindex_total i : total (qindex i).
Proof.
  intros st. unfold qindex. destruct (i <? 0); [discriminate |].
  destruct (queue st !! Z.to_nat i); discriminate.
Qed.

Lemma Less_total i j : total (Less Interpolate i j).
Proof.
  pose proof qindex_total.
  unfold Less, LessH, compareTangentsV, signed, compareOverlapsV, InterpolateY.
  total_calls.
Qed.

Lemma Swap_total i j : total (Swap i j).
Proof. pose proof qindex_total. unfold Swap. total_calls. Qed.

(** The parent of an index is nearer to the root, so [up] comes to an end. *)
Lemma up_total fuel j st :
  (Z.to_nat j < fuel)%nat -> fst (up Interpolate fuel j st) <> OutOfFuel.
Proof.
  revert j st. induction fuel as [| fuel IH]; intros j st Hj; [lia |].
  simpl. destruct (Z.quot (j - 1) 2 =? j) eqn:Eq; [discriminate |].
  rewrite bind_unfold.
  pose proof (Less_total j (Z.quot (j - 1) 2) st) as HL.
  destruct (Less Interpolate j (Z.quot (j - 1) 2) st) as [[l | msg |] st1] eqn:EL;
    [| discriminate | done].
  destruct l; [| discriminate]. cbn [negb].
  rewrite bind_unfold.
  pose proof (Swap_total (Z.quot (j - 1) 2) j st1) as HS.
  destruct (Swap (Z.quot (j - 1) 2) j st1) as [[[] | msg |] st2] eqn:ES;
    [| discriminate | done].
  apply IH.
  assert (0 <= j).
  { unfold Less in EL. rewrite bind_unfold in EL. unfold qindex at 1 in EL.
    destruct (j <? 0) eqn:Ej; [discriminate | lia]. }
  apply Z.eqb_neq in Eq.
  assert (j <> 0) by (intros ->; apply Eq; reflexivity).
  assert (0 <= Z.quot (j - 1) 2 < j).
  { split; [apply Z.quot_pos; lia |].
    apply Z.quot_lt_upper_bound; lia. }
  lia.
Qed.

(** [Push] adds the event to the queue and loses none: the queue holds the
    events it held and the new one, the events themselves are untouched, and
    the loop that moves the new event up comes to an end. *)
Theorem Push_keeps_events (item : ptr) (st : state) (r : outcome unit)
    (st' : state) :
  Push Interpolate item st = (r, st') ->
  r <> OutOfFuel
  /\ heap st' = heap st
  /\ queue st' ≡ₚ queue st ++ [item].
Proof.
  intros H. unfold Push in H.
  rewrite bind_modifyQueue, bind_getState in H.
  cbn [queue set_queue] in H.
  split.
  - pose proof (up_total (S (length (queue st ++ [item])))
                  (Z.of_nat (length (queue st ++ [item])) - 1)
                  (set_queue (queue st ++ [item]) st)) as Ht.
    rewrite H in Ht. apply Ht. rewrite length_app. simpl. lia.
  - destruct (up_sameEvents _ _ _ _ _ H) as (Hh & _ & Hq).
    split; [exact Hh | exact Hq].
Qed.

Lemma wrap64_small z : 0 <= z < 2 ^ 63 -> wrap64 z = z.
Proof.
  intros H. unfold wrap64. rewrite Z.mod_small; lia.
Qed.

Lemma wrap64_double i :
  0 <= i < 2 ^ 63 -> 0 <= wrap64 (2 * i + 1) -> wrap64 (2 * i + 1) = 2 * i + 1.
Proof.
  intros Hi. unfold wrap64.
  destruct (Z_lt_ge_dec (2 * i + 1) (2 ^ 63)) as [Hs | Hs].
  - rewrite Z.mod_small; lia.
  - replace (2 * i + 1 + 2 ^ 63) with (2 * i + 1 - 2 ^ 63 + 1 * 2 ^ 64) by lia.
    rewrite Z.mod_add by lia. rewrite Z.mod_small by lia. lia.
Qed.

Lemma qindex_Ret i st e st' :
  qindex i st = (Ret e, st') ->
  0 <= i /\ queue st !! Z.to_nat i = Some e /\ st' = st.
Proof.
  unfold qindex. destruct (i <? 0) eqn:Ei; [discriminate |].
  destruct (queue st !! Z.to_nat i); [| discriminate].
  intros [= <- <-]. repeat split. lia.
Qed.

Lemma qindex_inv i st :
  qindex i st = (Panic indexOutOfRange, st)
  \/ exists e, qindex i st = (Ret e, st)
               /\ 0 <= i /\ queue st !! Z.to_nat i = Some e.
Proof.
  unfold qindex. destruct (i <? 0) eqn:Ei; [left; reflexivity |].
  destruct (queue st !! Z.to_nat i) as [e |]; [| left; reflexivity].
  right. exists e. repeat split. lia.
Qed.

Lemma Less_Ret i j st l st' :
  Less Interpolate i j st = (Ret l, st') ->
  st' = st /\ 0 <= i /\ 0 <= j
  /\ is_Some (queue st !! Z.to_nat i) /\ is_Some (queue st !! Z.to_nat j).
Proof.
  intros H. pose proof (Less_readonly _ _ _ _ _ H) as <-.
  split; [reflexivity |].
  unfold Less in H.
  apply bind_Ret_inv in H as (qi & s1 & H1 & H).
  apply qindex_Ret in H1 as (? & ? & ->).
  apply bind_Ret_inv in H as (qj & s2 & H2 & H).
  apply qindex_Ret in H2 as (? & ? & ->).
  eauto.
Qed.

Lemma Swap_below n i j :
  i < n -> j < n -> pres (sameEventsBelow (Z.to_nat n)) (Swap i j).
Proof.
  intros Hi Hj st r st' E. split; [exact (Swap_sameEvents _ _ _ _ _ E) |].
  intros k Hk. unfold Swap in E. rewrite bind_unfold in E.
  destruct (qindex j st) as [[qj | msg |] s1] eqn:Ej;
    pose proof (qindex_readonly _ _ _ _ Ej) as <-;
    [| injection E as <- <-; reflexivity | injection E as <- <-; reflexivity].
  apply qindex_Ret in Ej as (? & ? & _).
  rewrite bind_unfold in E.
  destruct (qindex i st) as [[qi | msg |] s1] eqn:Ei;
    pose proof (qindex_readonly _ _ _ _ Ei) as <-;
    [| injection E as <- <-; reflexivity | injection E as <- <-; reflexivity].
  apply qindex_Ret in Ei as (? & ? & _).
  injection E as <- <-. cbn [queue set_queue].
  rewrite !list_lookup_insert_ne by lia. reflexivity.
Qed.

(** The loop of [down] leaves the entries from [n] on alone. *)
Lemma downLoop_below fuel : forall i n,
  i < n -> pres (sameEventsBelow (Z.to_nat n)) (downLoop Interpolate fuel i n).
Proof.
  induction fuel as [| fuel IH]; intros i n Hi; simpl.
  - apply pres_outOfFuel. tc_solve.
  - destruct ((n <=? wrap64 (2 * i + 1)) || (wrap64 (2 * i + 1) <? 0)) eqn:C.
    { apply pres_ret. tc_solve. }
    apply orb_false_iff in C as [C1 C2].
    set (j1 := wrap64 (2 * i + 1)) in *.
    assert (Htail : forall j, j < n ->
              pres (sameEventsBelow (Z.to_nat n))
                (l ← Less Interpolate j i;
                 if negb l then ret i
                 else Swap i j;; downLoop Interpolate fuel j n)).
    { intros j Hj.
      pose proof (eq_sameEventsBelow (Z.to_nat n) _ (Less_readonly j i)).
      pose proof (Swap_below n i j Hi Hj).
      pose proof (IH j n Hj).
      pres_calls idtac. }
    intros st r st' E. rewrite bind_unfold in E.
    destruct (wrap64 (j1 + 1) <? n) eqn:C3.
    + rewrite bind_unfold in E.
      destruct (Less Interpolate (wrap64 (j1 + 1)) j1 st) as [[l | msg |] s1] eqn:EL;
        pose proof (Less_readonly _ _ _ _ _ EL) as <-;
        [| injection E as <- <-; reflexivity
         | injection E as <- <-; reflexivity].
      cbn in E. apply (Htail (if l then wrap64 (j1 + 1) else j1)) in E;
        [exact E | destruct l; lia].
    + cbn in E. apply (Htail j1) in E; [exact E | lia].
Qed.

Lemma downLoop_sameEvents fuel : forall i n,
  pres sameEvents (downLoop Interpolate fuel i n).
Proof.
  induction fuel as [| fuel IH]; intros i n; simpl.
  - apply pres_outOfFuel. tc_solve.
  - pose proof (fun i j => eq_sameEvents _ (Less_readonly i j)).
    pose proof Swap_sameEvents.
    pres_calls idtac.
Qed.

(** A child is farther from the root than its parent, so the loop of [down]
    comes to an end when the indices are those of an [int]. *)
Lemma downLoop_total fuel : forall i n st,
  i < 2 ^ 63 -> n < 2 ^ 63 -> (Z.to_nat (n - i) < fuel)%nat ->
  fst (downLoop Interpolate fuel i n st) <> OutOfFuel.
Proof.
  induction fuel as [| fuel IH]; intros i n st Hi Hn Hf; [lia |].
  simpl.
  destruct ((n <=? wrap64 (2 * i + 1)) || (wrap64 (2 * i + 1) <? 0)) eqn:C;
    [discriminate |].
  apply orb_false_iff in C as [C1 C2].
  set (j1 := wrap64 (2 * i + 1)) in *.
  assert (Htail : forall j st, j1 <= j < n ->
            fst ((l ← Less Interpolate j i;
                  if negb l then ret i
                  else Swap i j;; downLoop Interpolate fuel j n) st)
            <> OutOfFuel).
  { intros j s Hj. rewrite bind_unfold.
    pose proof (Less_total j i s) as HL.
    destruct (Less Interpolate j i s) as [[l | msg |] s1] eqn:EL;
      [| discriminate | done].
    apply Less_Ret in EL as (-> & _ & Hi0 & _).
    destruct l; [| discriminate]. cbn [negb].
    rewrite bind_unfold.
    pose proof (Swap_total i j s) as HS.
    destruct (Swap i j s) as [[[] | msg |] s2] eqn:ES;
      [| discriminate | done].
    assert (j1 = 2 * i + 1) by (apply wrap64_double; lia).
    apply IH; lia. }
  rewrite bind_unfold.
  destruct (wrap64 (j1 + 1) <? n) eqn:C3.
  - rewrite bind_unfold.
    pose proof (Less_total (wrap64 (j1 + 1)) j1 st) as HL.
    destruct (Less Interpolate (wrap64 (j1 + 1)) j1 st) as [[l | msg |] s1] eqn:EL;
      [| discriminate | done].
    cbn. apply Htail.
    rewrite wrap64_small in * by lia. destruct l; lia.
  - cbn. apply Htail. lia.
Qed.

Lemma down_sameEvents i n : pres sameEvents (down Interpolate i n).
Proof.
  pose proof downLoop_sameEvents. unfold down. pres_calls idtac.
Qed.

Lemma down_below i n :
  i < n -> pres (sameEventsBelow (Z.to_nat n)) (down Interpolate i n).
Proof.
  intros Hi. pose proof (fun fuel => downLoop_below fuel i n Hi).
  unfold down. pres_calls idtac.
Qed.

Lemma down_total i n st :
  i < 2 ^ 63 -> n < 2 ^ 63 -> n - i <= Z.of_nat (length (queue st)) ->
  fst (down Interpolate i n st) <> OutOfFuel.
Proof.
  intros Hi Hn Hl. unfold down. rewrite bind_getState, bind_unfold.
  pose proof (downLoop_total (S (length (queue st))) i n st Hi Hn) as Ht.
  destruct (downLoop Interpolate (S (length (queue st))) i n st)
    as [[j | msg |] s1]; [discriminate | discriminate |].
  exfalso. apply Ht; [lia | reflexivity].
Qed.

Lemma Swap_inv i j st r st' :
  Swap i j st = (r, st') ->
  (r = Panic indexOutOfRange /\ st' = st)
  \/ (r = Ret tt /\ 0 <= i /\ 0 <= j
      /\ exists qi qj,
           queue st !! Z.to_nat i = Some qi
           /\ queue st !! Z.to_nat j = Some qj
           /\ st' = set_queue (<[Z.to_nat j := qi]>
                                (<[Z.to_nat i := qj]> (queue st))) st).
Proof.
  intros E. unfold Swap in E. rewrite bind_unfold in E.
  destruct (qindex_inv j st) as [Ej | (qj & Ej & Hj0 & Hj)]; rewrite Ej in E;
    [injection E as <- <-; left; done |].
  rewrite bind_unfold in E.
  destruct (qindex_inv i st) as [Ei | (qi & Ei & Hi0 & Hi)]; rewrite Ei in E;
    [injection E as <- <-; left; done |].
  injection E as <- <-. right. repeat split; [lia | lia |]. eauto.
Qed.

Lemma last_entry (l : list ptr) n x :
  l !! n = Some x -> length l = S n -> l = take n l ++ [x].
Proof.
  intros Hx Hl. rewrite <- (take_drop_middle l n x Hx) at 1.
  rewrite drop_ge by lia. reflexivity.
Qed.

(** [Pop] on an empty queue panics on the index -1 and changes nothing.
    Otherwise, when it returns, it returns the event that [Top] gave and the
    queue holds the other events, one less; the events themselves are
    untouched.  Its loop comes to an end. *)
Theorem Pop_takes_top (st : state) (r : outcome ptr) (st' : state) :
  Z.of_nat (length (queue st)) < 2 ^ 63 ->
  Pop Interpolate st = (r, st') ->
  r <> OutOfFuel
  /\ (queue st = [] -> r = Panic indexOutOfRange /\ st' = st)
  /\ (forall e, r = Ret e ->
        Top st = (Ret e, st)
        /\ heap st' = heap st
        /\ queue st ≡ₚ e :: queue st').
Proof.
  intros Hlen H. unfold Pop in H. rewrite bind_getState in H.
  set (n := Z.of_nat (length (queue st)) - 1) in *.
  rewrite bind_unfold in H.
  destruct (Swap 0 n st) as [[[] | msg |] s1] eqn:ES.
  - pose proof (Swap_sameEvents _ _ _ _ _ ES) as (Hh1 & _ & Hq1).
    apply Swap_inv in ES as [[? _] | (_ & _ & Hn & q0 & qn & H0 & Hqn & ->)];
      [discriminate |].
    cbn [queue heap set_queue set_heap] in *.
    rewrite bind_unfold in H.
    destruct (down Interpolate 0 n _) as [[b | msg |] s2] eqn:ED.
    + assert (HB : sameEventsBelow (Z.to_nat n)
                     (set_queue (<[Z.to_nat n := q0]>
                                   (<[Z.to_nat 0 := qn]> (queue st))) st) s2).
      { destruct (Z.eq_dec n 0) as [-> | Hn0].
        - unfold down in ED. rewrite bind_getState in ED.
          cbn in ED. injection ED as <- <-. reflexivity.
        - apply (down_below 0 n) in ED; [exact ED | lia]. }
      destruct HB as [(Hh2 & _ & Hq2) Hk]. cbn [queue heap set_queue] in *.
      assert (Hs2 : queue s2 !! Z.to_nat n = Some q0).
      { rewrite Hk by lia. apply list_lookup_insert_eq.
        rewrite length_insert. apply lookup_lt_Some in Hqn. exact Hqn. }
      rewrite bind_unfold in H. unfold qindex in H.
      destruct (n <? 0) eqn:En; [lia |]. rewrite Hs2 in H.
      rewrite bind_modifyQueue in H. injection H as <- <-.
      split; [discriminate |]. split.
      * intros Hnil. rewrite Hnil in H0. discriminate.
      * intros e [= <-]. split; [| split].
        -- unfold Top, qindex. simpl. rewrite H0. reflexivity.
        -- cbn [heap set_queue]. congruence.
        -- cbn [queue set_queue].
           assert (Hl : length (queue s2) = S (Z.to_nat n)).
           { rewrite (Permutation_length Hq2), (Permutation_length Hq1). lia. }
           rewrite <- Hq1, <- Hq2.
           rewrite (last_entry _ _ _ Hs2 Hl) at 1.
           symmetry. apply Permutation_cons_append.
    + injection H as <- <-.
      split; [discriminate |]. split; [| discriminate].
      intros Hnil. rewrite Hnil in H0. discriminate.
    + exfalso.
      refine (down_total 0 n _ _ _ _ _); [| | | rewrite ED; reflexivity].
      * lia.
      * lia.
      * cbn [queue set_queue]. rewrite !length_insert. lia.
  - injection H as <- <-.
    apply Swap_inv in ES as [[[= ->] ->] | [? _]]; [| discriminate].
    split; [discriminate |]. split; [done | discriminate].
  - exfalso. apply (Swap_total 0 n st). rewrite ES. reflexivity.
Qed.

Lemma initLoop_sameEvents k n : pres sameEvents (initLoop Interpolate k n).
Proof.
  induction k as [| k IH]; simpl.
  - apply pres_ret. tc_solve.
  - pose proof down_sameEvents. pres_calls idtac.
Qed.

Lemma initLoop_total k n : forall st,
  Z.of_nat k <= n -> n < 2 ^ 63 -> n <= Z.of_nat (length (queue st)) ->
  fst (initLoop Interpolate k n st) <> OutOfFuel.
Proof.
  induction k as [| k IH]; intros st Hk Hn Hl; simpl; [discriminate |].
  rewrite bind_unfold.
  pose proof (down_total (Z.of_nat k) n st) as Ht.
  destruct (down Interpolate (Z.of_nat k) n st) as [[b | msg |] s1] eqn:ED;
    [| discriminate |].
  - apply IH; [lia | exact Hn |].
    destruct (down_sameEvents _ _ _ _ _ ED) as (_ & _ & Hq).
    rewrite (Permutation_length Hq). exact Hl.
  - exfalso. apply Ht; [lia | lia | lia | reflexivity].
Qed.

(** [Init] and [Fix] reorder the queue: it holds the same events afterwards
    and the events themselves are untouched, whether the comparisons panic
    or not.  Their loops come to an end. *)
Theorem Init_Fix_keep_events (st : state) :
  Z.of_nat (length (queue st)) < 2 ^ 63 ->
  (forall r st', Init Interpolate st = (r, st') ->
     r <> OutOfFuel /\ sameEvents st st')
  /\ (forall i r st', 0 <= i < Z.of_nat (length (queue st)) ->
       Fix Interpolate i st = (r, st') ->
       r <> OutOfFuel /\ sameEvents st st').
Proof.
  intros Hlen. split.
  - intros r st' H. split.
    + unfold Init in H. rewrite bind_getState in H.
      pose proof (initLoop_total
                    (Z.to_nat (Z.quot (Z.of_nat (length (queue st))) 2))
                    (Z.of_nat (length (queue st))) st) as Ht.
      rewrite H in Ht. apply Ht; [| lia | lia].
      rewrite Z2Nat.id by (apply Z.quot_pos; lia).
      apply Z.quot_le_upper_bound; lia.
    + revert H. apply (pres_bind sameEvents); [apply pres_getState; tc_solve |].
      intros s. apply initLoop_sameEvents.
  - intros i r st' Hi H. split.
    + unfold Fix in H. rewrite bind_getState, bind_unfold in H.
      pose proof (down_total i (Z.of_nat (length (queue st))) st) as Ht.
      destruct (down Interpolate i _ st) as [[b | msg |] s1] eqn:ED.
      * destruct b; cbn [negb] in H; [injection H as <- <-; discriminate |].
        rewrite bind_getState in H.
        pose proof (up_total (S (length (queue s1))) i s1) as Hu.
        rewrite H in Hu. apply Hu.
        destruct (down_sameEvents _ _ _ _ _ ED) as (_ & _ & Hq).
        rewrite (Permutation_length Hq). lia.
      * injection H as <- <-. discriminate.
      * exfalso. apply Ht; [lia | lia | lia | reflexivity].
    + revert H. unfold Fix.
      pose proof down_sameEvents. pose proof (up_sameEvents).
      pres_calls idtac.
Qed.

End QueueFacts.

Lemma Push_keeps_events_witness :
  Push Helpers.Interpolate 4%nat crossState
  = (Ret tt, set_queue [4; 1; 3]%nat crossState)
  /\ Ret tt <> @OutOfFuel unit
  /\ heap (set_queue [4; 1; 3]%nat crossState) = heap crossState
  /\ [4; 1; 3]%nat ≡ₚ [3; 1; 4]%nat.
Proof.
  assert (H : Push Helpers.Interpolate 4%nat crossState
              = (Ret tt, set_queue [4; 1; 3]%nat crossState))
    by (vm_compute; reflexivity).
  split; [exact H |].
  exact (Push_keeps_events Helpers.Interpolate 4%nat crossState (Ret tt)
           (set_queue [4; 1; 3]%nat crossState) H).
Defined.

Lemma Pop_takes_top_witness :
  Z.of_nat (length (queue crossState)) < 2 ^ 63
  /\ Pop Helpers.Interpolate crossState
     = (Ret 3%nat, set_queue [1]%nat crossState)
  /\ Top crossState = (Ret 3%nat, crossState)
  /\ queue crossState ≡ₚ [3; 1]%nat.
Proof.
  assert (Hl : Z.of_nat (length (queue crossState)) < 2 ^ 63)
    by (vm_compute; reflexivity).
  assert (H : Pop Helpers.Interpolate crossState
              = (Ret 3%nat, set_queue [1]%nat crossState))
    by (vm_compute; reflexivity).
  split; [exact Hl |]. split; [exact H |].
  destruct (Pop_takes_top Helpers.Interpolate crossState _ _ Hl H)
    as (_ & _ & Hr).
  destruct (Hr 3%nat eq_refl) as (Ht & _ & Hq).
  split; [exact Ht | exact Hq].
Defined.

Lemma Init_Fix_keep_events_witness :
  Init Helpers.Interpolate (set_queue [1; 3]%nat crossState)
  = (Ret tt, crossState)
  /\ Fix Helpers.Interpolate 0 (set_queue [1; 3]%nat crossState)
     = (Ret tt, crossState)
  /\ sameEvents (set_queue [1; 3]%nat crossState) crossState.
Proof.
  assert (Hl : Z.of_nat (length (queue (set_queue [1; 3]%nat crossState)))
               < 2 ^ 63) by (vm_compute; reflexivity).
  assert (H1 : Init Helpers.Interpolate (set_queue [1; 3]%nat crossState)
               = (Ret tt, crossState)) by (vm_compute; reflexivity).
  assert (H2 : Fix Helpers.Interpolate 0 (set_queue [1; 3]%nat crossState)
               = (Ret tt, crossState)) by (vm_compute; reflexivity).
  assert (Hi : 0 <= 0 < Z.of_nat (length (queue (set_queue [1; 3]%nat crossState))))
    by (vm_compute; split; [discriminate | reflexivity]).
  split; [exact H1 |]. split; [exact H2 |].
  destruct (Init_Fix_keep_events Helpers.Interpolate _ Hl) as [HI HF].
  destruct (HF 0 _ _ Hi H2) as [_ HS].
  destruct (HI _ _ H1) as [_ _].
  exact HS.
Defined.

(* ===================================================================== *)
(** ** Segments and their two ends *)

Lemma notFinite_number p : notFinite p = false -> isNumber p.
Proof.
  unfold notFinite, isNumber. intros H.
  apply orb_false_iff in H as [H _].
  apply orb_false_iff in H as [H HY].
  apply orb_false_iff in H as [HX _]. auto.
Qed.

(** The two ends of a new segment are told apart as the order of the sweep
    has them. *)
Lemma increasing_sweepBefore (p q : Point) :
  isNumber p -> isNumber q -> point_eq p q = false ->
  let inc := if feq (X p) (X q) then flt (Y p) (Y q) else flt (X p) (X q) in
  (inc = true -> sweepBefore p q = true)
  /\ (negb inc = true -> sweepBefore q p = true).
Proof.
  intros [HpX HpY] [HqX HqY] Hne. unfold point_eq in Hne. unfold sweepBefore.
  destruct (float_trichotomy _ _ HpX HqX)
    as [(L1 & E1 & L2 & E2) | [(L1 & E1 & L2 & E2) | (L1 & E1 & L2 & E2)]];
    rewrite E1, ?L1, ?L2, ?E2; rewrite E1 in Hne; cbn [andb orb negb] in *.
  - split; [reflexivity | discriminate].
  - destruct (float_trichotomy _ _ HpY HqY)
      as [(M1 & F1 & M2 & F2) | [(M1 & F1 & M2 & F2) | (M1 & F1 & M2 & F2)]];
      rewrite ?M1, ?M2; cbn [negb]; try congruence.
    + split; [reflexivity | discriminate].
    + split; [discriminate | reflexivity].
  - split; [discriminate | reflexivity].
Qed.

Lemma pushSegment_wellPaired va vb st :
  left_ vb = negb (left_ va) ->
  segment vb = segment va -> clipping vb = clipping va ->
  (left_ va = true -> sweepBefore (pt va) (pt vb) = true) ->
  (left_ vb = true -> sweepBefore (pt vb) (pt va) = true) ->
  wellPaired (heap st) -> wellPaired (heap (pushSegment va vb st)).
Proof.
  intros Hl Hs Hc Hab Hba' Hwp. unfold pushSegment. cbn [heap].
  set (a := fresh (dom (heap st))).
  set (b := fresh (dom (<[a := zeroSweepPoint]> (heap st)))).
  assert (Hba : b <> a).
  { apply (fresh_ne _ a zeroSweepPoint). apply lookup_insert_eq. }
  assert (Ha : forall p v, heap st !! p = Some v -> p <> a).
  { intros p v Hp ->. unfold a in Hp. rewrite fresh_None in Hp. done. }
  assert (Hb : forall p v, heap st !! p = Some v -> p <> b).
  { intros p v Hp ->.
    assert (<[a := zeroSweepPoint]> (heap st) !! b = Some v) as Hx.
    { rewrite lookup_insert_ne by done. exact Hp. }
    unfold b in Hx. rewrite fresh_None in Hx. done. }
  intros e v Hv.
  destruct (decide (e = b)) as [-> |].
  { rewrite lookup_insert_eq in Hv. injection Hv as <-.
    exists a. eexists. split; [reflexivity |].
    split; [heap_lookup; reflexivity |].
    destruct va, vb; cbn in *. subst.
    rewrite negb_involutive. repeat split; auto. }
  destruct (decide (e = a)) as [-> |].
  { rewrite lookup_insert_ne, lookup_insert_eq in Hv by done.
    injection Hv as <-.
    exists b. eexists. split; [reflexivity |].
    split; [heap_lookup; reflexivity |].
    destruct va, vb; cbn in *. subst. repeat split; auto. }
  rewrite !lookup_insert_ne in Hv by done.
  destruct (Hwp _ _ Hv) as (o & ov & Eo & Eov & Rest).
  exists o, ov. split; [done |]. split; [| done].
  rewrite !lookup_insert_ne; [done | |].
  - intros <-. exact (Ha _ _ Eov eq_refl).
  - intros <-. exact (Hb _ _ Eov eq_refl).
Qed.

Section AddPathOrdered.

Variables LineToCmd CloseCmd : float64.
Variable cmdLen : float64 -> nat.
Variable Closed : Path -> bool.
Variable clipping : bool.

Lemma addLoop_wellPaired fuel d : forall open i seg start,
  notFinite start = false ->
  pres (keeps (fun st => wellPaired (heap st)))
       (addLoop LineToCmd CloseCmd cmdLen fuel d clipping open i seg start).
Proof.
  induction fuel as [| fuel IH]; intros open i seg start Hfin.
  - simpl. destruct (negb (i <? length d)%nat);
      [apply pres_ret | apply pres_outOfFuel]; tc_solve.
  - simpl. destruct (negb (i <? length d)%nat); [apply pres_ret; tc_solve |].
    apply pres_bind; [tc_solve | apply pres_at; tc_solve | intros cmd].
    destruct (fne cmd LineToCmd && fne cmd CloseCmd);
      [apply pres_panic; tc_solve |].
    apply pres_bind; [tc_solve | pres_steps idtac | intros bad].
    destruct bad; [apply pres_panic; tc_solve |].
    apply pres_bind; [tc_solve | apply pres_at; tc_solve | intros ex].
    apply pres_bind; [tc_solve | apply pres_at; tc_solve | intros ey].
    destruct (notFinite (mkPoint ex ey)) eqn:Hend;
      [apply pres_panic; tc_solve |].
    destruct (point_eq start (mkPoint ex ey)) eqn:Hpe; [apply IH; exact Hfin |].
    apply pres_segment; [tc_solve | | apply IH; exact Hend].
    intros st Hwp.
    destruct (increasing_sweepBefore start (mkPoint ex ey)
                (notFinite_number _ Hfin) (notFinite_number _ Hend) Hpe)
      as [H1 H2].
    apply pushSegment_wellPaired; try reflexivity; assumption.
Qed.

(** The events that [AddPathEndpoints] adds are well paired: whatever the
    path and however the call ends, a store of well-paired events stays one.
    In particular the end marked [left] of every new segment is the one that
    the sweep meets first. *)
Theorem AddPathEndpoints_wellPaired (d : Path) (seg : Z) (st : state)
    (r : outcome Z) (st' : state) :
  wellPaired (heap st) ->
  AddPathEndpoints LineToCmd CloseCmd cmdLen Closed d seg clipping st = (r, st') ->
  wellPaired (heap st').
Proof.
  intros Hwp H. revert Hwp.
  change (keeps (fun st => wellPaired (heap st)) st st').
  revert st r st' H.
  change (pres (keeps (fun st => wellPaired (heap st)))
            (AddPathEndpoints LineToCmd CloseCmd cmdLen Closed d seg clipping)).
  unfold AddPathEndpoints.
  destruct (length d =? 0)%nat; [apply pres_ret; tc_solve |].
  apply pres_bind; [tc_solve | apply pres_at; tc_solve | intros x0].
  apply pres_bind; [tc_solve | apply pres_at; tc_solve | intros y0].
  destruct (notFinite (mkPoint x0 y0)) eqn:Hfin; [apply pres_panic; tc_solve |].
  apply pres_bind; [tc_solve | pres_steps idtac | intros coincide].
  apply addLoop_wellPaired. exact Hfin.
Qed.

End AddPathOrdered.

Lemma flt_true (x y : float64) :
  flt x y = true -> feq x y = false /\ flt y x = false /\ feq y x = false.
Proof.
  unfold flt, feq, SFltb, SFeqb. rewrite (SFcompare_antisym x y).
  destruct (SFcompare x y) as [[] |]; simpl; try discriminate. auto.
Qed.

Lemma feq_sym (x y : float64) : feq y x = feq x y.
Proof.
  unfold feq, SFeqb. rewrite (SFcompare_antisym x y).
  destruct (SFcompare x y) as [[] |]; reflexivity.
Qed.

(** In the order of the queue an event is before every event that the sweep
    meets later, and not after it. *)
Lemma LessH_sweepBefore I a b av bv st :
  heap st !! a = Some av -> heap st !! b = Some bv ->
  sweepBefore (pt av) (pt bv) = true ->
  LessH I a b st = (Ret true, st) /\ LessH I b a st = (Ret false, st).
Proof.
  intros Ea Eb Hlt. unfold LessH.
  rewrite (bind_load a), Ea, (bind_load b), Eb.
  rewrite (bind_load b), Eb, (bind_load a), Ea, !fne_feq.
  unfold sweepBefore in Hlt. apply orb_true_iff in Hlt as [Hx | Hxy].
  - destruct (flt_true _ _ Hx) as (E1 & L2 & E2).
    rewrite E1, E2, Hx, L2. auto.
  - apply andb_true_iff in Hxy as [Ex Hy].
    destruct (flt_true _ _ Hy) as (E1 & L2 & E2).
    rewrite (feq_sym (X (pt av))), Ex, E1, E2, Hy, L2. auto.
Qed.

(** The left end of a segment is before its right end in the order of the
    queue, and the right end is not before the left end: the queue gives out
    the left end first. *)
Theorem LessH_left_end_first (I : Point -> Point -> float64 -> Point)
    (e o : ptr) (s : SweepPoint) (st : state) :
  wellPaired (heap st) ->
  heap st !! e = Some s -> other s = Some o -> left_ s = true ->
  LessH I e o st = (Ret true, st) /\ LessH I o e st = (Ret false, st).
Proof.
  intros Hwp Es Eo Hl.
  destruct (Hwp _ _ Es) as (o' & so & Eo' & Eso & _ & _ & _ & _ & Hlt).
  assert (o' = o) as -> by congruence.
  exact (LessH_sweepBefore I e o s so st Es Eso (Hlt Hl)).
Qed.

(** Splitting a segment at a point between its two ends gives two segments
    that are well paired, and leaves the other segments as they are: the new
    event [r] is the right end of the left half and [l] the left end of the
    right half, or the other way round when [s] is the right end. *)
Theorem SplitAt_wellPaired (s o : ptr) (z : Point) (sv ov : SweepPoint)
    (st : state) :
  wellPaired (heap st) ->
  heap st !! s = Some sv -> other sv = Some o -> heap st !! o = Some ov ->
  (if left_ sv then sweepBetween (pt sv) z (pt ov)
   else sweepBetween (pt ov) z (pt sv)) = true ->
  exists r l st',
    SplitAt s z st = (Ret (r, l), st')
    /\ heap st !! r = None /\ heap st !! l = None
    /\ wellPaired (heap st')
    /\ queue st' = queue st.
Proof.
  intros Hwp Es Eo Eov Hz.
  destruct (Hwp _ _ Es) as (o' & ov' & Eo' & Eov' & Eos & Hl & Hseg & Hcl & _).
  assert (o' = o) as -> by congruence.
  assert (ov' = ov) as -> by congruence.
  assert (Hne : o <> s).
  { intros ->. assert (ov = sv) as -> by congruence.
    destruct (left_ sv); discriminate. }
  destruct (SplitAt_run s z st sv o ov Es Eo Eov Hne)
    as (h' & Hrun & Hs & Hr & Hl' & Ho & Hframe).
  set (r := fresh (dom (heap st))) in *.
  set (l := fresh (dom (<[r := zeroSweepPoint]> (heap st)))) in *.
  assert (Hfr : heap st !! r = None) by apply fresh_None.
  assert (Hfl : heap st !! l = None).
  { pose proof (fresh_None (<[r := zeroSweepPoint]> (heap st))) as Hx.
    fold l in Hx. destruct (decide (l = r)) as [E | N].
    - rewrite E. exact Hfr.
    - rewrite lookup_insert_ne in Hx by done. exact Hx. }
  assert (Hrs : r <> s) by congruence.
  assert (Hro : r <> o) by congruence.
  assert (Hls : l <> s) by congruence.
  assert (Hlo : l <> o) by congruence.
  exists r, l, (set_heap h' st). split; [exact Hrun |].
  split; [exact Hfr |]. split; [exact Hfl |]. split; [| reflexivity].
  cbn [heap set_heap].
  assert (Hzs : left_ sv = true ->
                sweepBefore (pt sv) z = true /\ sweepBefore z (pt ov) = true).
  { intros E. rewrite E in Hz. apply andb_true_iff in Hz. exact Hz. }
  assert (Hzo : left_ sv = false ->
                sweepBefore (pt ov) z = true /\ sweepBefore z (pt sv) = true).
  { intros E. rewrite E in Hz. apply andb_true_iff in Hz. exact Hz. }
  intros e v Hv.
  destruct (decide (e = s)) as [-> |];
    [| destruct (decide (e = r)) as [-> |];
       [| destruct (decide (e = l)) as [-> |];
          [| destruct (decide (e = o)) as [-> |]]]].
  - (* s, now paired with r *)
    rewrite Hs in Hv. injection Hv as <-.
    exists r. eexists. split; [reflexivity |]. split; [exact Hr |].
    destruct sv, ov; cbn in *. subst.
    repeat split; auto. intros E. apply (Hzs E).
  - (* r, a copy of o at z *)
    rewrite Hr in Hv. injection Hv as <-.
    exists s. eexists. split; [reflexivity |]. split; [exact Hs |].
    destruct sv, ov; cbn in *. subst.
    rewrite negb_involutive. repeat split; auto.
    intros E. apply Hzo. apply negb_true_iff. exact E.
  - (* l, a copy of s at z *)
    rewrite Hl' in Hv. injection Hv as <-.
    exists o. eexists. split; [reflexivity |]. split; [exact Ho |].
    destruct sv, ov; cbn in *. subst. repeat split; auto.
    intros E. apply (Hzs E).
  - (* o, now paired with l *)
    rewrite Ho in Hv. injection Hv as <-.
    exists l. eexists. split; [reflexivity |]. split; [exact Hl' |].
    destruct sv, ov; cbn in *. subst.
    rewrite negb_involutive. repeat split; auto.
    intros E. apply Hzo. apply negb_true_iff. exact E.
  - (* the other segments *)
    assert (Her : e <> r) by done. assert (Hel : e <> l) by done.
    rewrite Hframe in Hv by done.
    destruct (Hwp _ _ Hv) as (p & pv & Ep & Epv & Epe & Rest).
    exists p, pv. split; [exact Ep |]. split; [| split; [exact Epe | exact Rest]].
    rewrite Hframe; [exact Epv | | | |]; intros ->.
    + apply n2. congruence.
    + congruence.
    + congruence.
    + apply n. congruence.
Qed.

(** [Reverse] exchanges the roles of the two ends of a segment: both [left]
    flags and both [increasing] flags are inverted and nothing moves;
    reversing twice gives back the state. *)
Theorem Reverse_twice (s o : ptr) (sv ov : SweepPoint) (st : state) :
  heap st !! s = Some sv -> other sv = Some o -> heap st !! o = Some ov ->
  left_ ov = negb (left_ sv) ->
  exists st1 sv1 ov1,
    Reverse s st = (Ret tt, st1)
    /\ heap st1 !! s = Some sv1 /\ heap st1 !! o = Some ov1
    /\ left_ sv1 = negb (left_ sv) /\ left_ ov1 = negb (left_ ov)
    /\ increasing sv1 = negb (increasing sv)
    /\ increasing ov1 = negb (increasing ov)
    /\ pt sv1 = pt sv /\ pt ov1 = pt ov
    /\ Reverse s st1 = (Ret tt, st).
Proof.
  intros Es Eo Eov Hl.
  assert (Hne : o <> s).
  { intros ->. assert (ov = sv) as -> by congruence.
    destruct (left_ sv); discriminate. }
  assert (Hos : other ov = other ov) by reflexivity.
  eexists. exists (set_increasing (negb (increasing sv))
                     (set_left (negb (left_ sv)) sv)).
  exists (set_increasing (negb (increasing ov)) (set_left (left_ sv) ov)).
  split.
  { unfold Reverse. repeat run1.
    apply update_Some. heap_lookup. reflexivity. }
  split; [heap_lookup; reflexivity |].
  split; [heap_lookup; reflexivity |].
  split; [destruct sv; reflexivity |].
  split; [rewrite Hl, negb_involutive; destruct ov; reflexivity |].
  split; [destruct sv; reflexivity |].
  split; [destruct ov; reflexivity |].
  split; [destruct sv; reflexivity |].
  split; [destruct ov; reflexivity |].
  unfold Reverse. repeat run1.
  assert (Eo' : other (set_increasing (negb (increasing sv))
                         (set_left (negb (left_ sv)) sv)) = Some o)
    by (destruct sv; exact Eo).
  rewrite ?Eo'. repeat run1.
  erewrite update_Some by (heap_lookup; reflexivity).
  f_equal. destruct st as [h q w]. unfold set_heap. cbn in *. f_equal.
  apply map_eq. intros p.
  destruct (decide (p = o)) as [-> |];
    [| destruct (decide (p = s)) as [-> |]]; heap_lookup.
  - rewrite Eov. f_equal. destruct sv, ov; cbn in *. subst.
    rewrite !negb_involutive. reflexivity.
  - rewrite Es. f_equal. destruct sv; cbn.
    rewrite !negb_involutive. reflexivity.
  - reflexivity.
Qed.

Lemma wellPairedb_spec h : wellPairedb h = true -> wellPaired h.
Proof.
  unfold wellPairedb. rewrite forallb_forall. intros H e s Hs.
  specialize (H (e, s)). simpl in H.
  assert (Hin : In (e, s) (map_to_list h)).
  { apply list_elem_of_In. apply elem_of_map_to_list. exact Hs. }
  specialize (H Hin).
  destruct (other s) as [o |]; [| discriminate].
  destruct (h !! o) as [so |] eqn:Eo; [| discriminate].
  repeat (apply andb_true_iff in H as [H ?]).
  exists o, so. split; [done |]. split; [done |].
  split; [eapply bool_decide_eq_true_1; exact H |].
  split; [apply eqb_prop; assumption |].
  split; [apply Z.eqb_eq; assumption |].
  split; [apply eqb_prop; assumption |].
  intros Hl. rewrite Hl in *. assumption.
Qed.

Lemma AddPathEndpoints_wellPaired_witness :
  wellPaired (heap emptyState)
  /\ wellPaired
       (heap (snd (AddPathEndpoints Helpers.LineToCmd Helpers.CloseCmd
                     Helpers.cmdLen Helpers.Closed squarePath 0 false
                     emptyState))).
Proof.
  assert (H : wellPaired (heap emptyState)).
  { apply wellPairedb_spec. vm_compute. reflexivity. }
  split; [exact H |].
  eapply (AddPathEndpoints_wellPaired
            Helpers.LineToCmd Helpers.CloseCmd Helpers.cmdLen Helpers.Closed
            false squarePath 0 emptyState _ _ H).
  apply surjective_pairing.
Defined.

Lemma LessH_left_end_first_witness :
  LessH Helpers.Interpolate 4%nat 5%nat crossState = (Ret true, crossState)
  /\ LessH Helpers.Interpolate 5%nat 4%nat crossState = (Ret false, crossState).
Proof.
  refine (LessH_left_end_first Helpers.Interpolate 4%nat 5%nat
            (status_event (P 0 1) 5%nat 3 true (Some 2%nat)) crossState
            _ _ _ _);
    [apply wellPairedb_spec; vm_compute; reflexivity
    | vm_compute; reflexivity | reflexivity | reflexivity].
Defined.

Lemma SplitAt_wellPaired_witness :
  exists r l st',
    SplitAt 0%nat (P 1 1) crossState = (Ret (r, l), st')
    /\ heap crossState !! r = None /\ heap crossState !! l = None
    /\ wellPaired (heap st')
    /\ queue st' = queue crossState.
Proof.
  refine (SplitAt_wellPaired 0%nat 1%nat (P 1 1)
            (status_event (P 0 0) 1%nat 1 true (Some 0%nat))
            (status_event (P 2 2) 0%nat 1 false None) crossState
            _ _ _ _ _);
    [apply wellPairedb_spec; vm_compute; reflexivity
    | vm_compute; reflexivity | reflexivity | vm_compute; reflexivity
    | vm_compute; reflexivity].
Defined.

Lemma Reverse_twice_witness :
  exists st1 sv1 ov1,
    Reverse 0%nat crossState = (Ret tt, st1)
    /\ heap st1 !! 0%nat = Some sv1 /\ heap st1 !! 1%nat = Some ov1
    /\ left_ sv1 = negb true /\ left_ ov1 = negb false
    /\ increasing sv1 = negb true
    /\ increasing ov1 = negb true
    /\ pt sv1 = P 0 0 /\ pt ov1 = P 2 2
    /\ Reverse 0%nat st1 = (Ret tt, crossState).
Proof.
  refine (Reverse_twice 0%nat 1%nat
            (status_event (P 0 0) 1%nat 1 true (Some 0%nat))
            (status_event (P 2 2) 0%nat 1 false None) crossState
            _ _ _ _);
    [vm_compute; reflexivity | reflexivity | vm_compute; reflexivity
    | reflexivity].
Defined.

(* ===================================================================== *)
(** ** Assertions on the state *)

Lemma hoare_bind {A B} (P : state -> Prop) (Q : A -> state -> Prop)
    (R : B -> state -> Prop) (m : M A) (k : A -> M B) :
  hoare P m Q -> (forall a, hoare (Q a) (k a) R) -> hoare P (m ≫= k) R.
Proof.
  intros Hm Hk st b st' HP H.
  apply bind_Ret_inv in H as (a & st1 & H1 & H2).
  exact (Hk a st1 b st' (Hm _ _ _ HP H1) H2).
Qed.

Lemma hoare_conseq {A} (P P' : state -> Prop) (Q Q' : A -> state -> Prop)
    (m : M A) :
  hoare P' m Q' -> (forall st, P st -> P' st) ->
  (forall a st, Q' a st -> Q a st) -> hoare P m Q.
Proof. intros H HP HQ st a st' Hst E. apply HQ, (H st a st'); auto. Qed.

Lemma hoare_ret {A} (P : state -> Prop) (a : A) :
  hoare P (mret a) (fun _ st => P st).
Proof. intros st b st' HP [= <- <-]. exact HP. Qed.

Lemma hoare_readonly {A} (P : state -> Prop) (m : M A) :
  pres eq m -> hoare P m (fun _ st => P st).
Proof. intros Hm st a st' HP E. rewrite <- (Hm _ _ _ E). exact HP. Qed.

Lemma hoare_load (P : state -> Prop) p :
  hoare P (load p) (fun v st => P st /\ heap st !! p = Some v).
Proof.
  intros st v st' HP E. apply load_inv in E as [E ->]. auto.
Qed.

Lemma hoare_nonnil (P : state -> Prop) o :
  hoare P (nonnil o) (fun a st => P st /\ o = Some a).
Proof.
  intros st a st' HP E. destruct o; [| discriminate].
  injection E as <- <-. auto.
Qed.

Lemma hoare_update (P : state -> Prop) (Q : unit -> state -> Prop) p f :
  (forall st v, P st -> heap st !! p = Some v ->
                Q tt (set_heap (<[p := f v]> (heap st)) st)) ->
  hoare P (update p f) Q.
Proof.
  intros H st [] st' HP E. unfold update in E.
  destruct (heap st !! p) as [v |] eqn:Ev; [| discriminate].
  injection E as <-. exact (H _ _ HP Ev).
Qed.

(** An assignment to the event [c] itself. *)
Lemma asrt_update (U : ptr -> Prop) st0 c (A A' : SweepPoint -> Prop) f :
  U c -> (forall v, A v -> A' (f v)) ->
  hoare (asrt U st0 c A) (update c f) (fun _ => asrt U st0 c A').
Proof.
  intros Hc Hf. apply hoare_update. intros st v [Hfr (w & Hw & HA)] Hv.
  assert (w = v) as -> by congruence.
  split.
  - intros q Hq. cbn [heap set_heap].
    rewrite lookup_insert_ne; [apply Hfr; exact Hq | intros ->; auto].
  - exists (f v). split; [heap_lookup; reflexivity | auto].
Qed.

(** An assignment to an event of [U] that may or may not be [c]. *)
Lemma asrt_update_any (U : ptr -> Prop) st0 c p
    (A A' : SweepPoint -> Prop) f :
  U p -> (forall v, A v -> A' v) -> (forall v, A v -> A' (f v)) ->
  hoare (asrt U st0 c A) (update p f) (fun _ => asrt U st0 c A').
Proof.
  intros Hp Hid Hf. apply hoare_update. intros st v [Hfr (w & Hw & HA)] Hv.
  split.
  - intros q Hq. cbn [heap set_heap].
    rewrite lookup_insert_ne; [apply Hfr; exact Hq | intros ->; auto].
  - cbn [heap set_heap]. destruct (decide (p = c)) as [-> | Hne].
    + assert (w = v) as -> by congruence.
      exists (f v). split; [heap_lookup; reflexivity | auto].
    + exists w. split; [heap_lookup; exact Hw | auto].
Qed.

Lemma asrt_load (U : ptr -> Prop) st0 c (A : SweepPoint -> Prop) :
  hoare (asrt U st0 c A) (load c)
        (fun v => asrt U st0 c (fun w => A w /\ w = v)).
Proof.
  intros st v st' [Hfr (w & Hw & HA)] E. apply load_inv in E as [E ->].
  split; [exact Hfr |]. exists w. split; [exact Hw |].
  split; [exact HA | congruence].
Qed.

Lemma asrt_weaken (U : ptr -> Prop) st0 c (A A' : SweepPoint -> Prop) st :
  (forall v, A v -> A' v) -> asrt U st0 c A st -> asrt U st0 c A' st.
Proof. intros H [Hfr (w & Hw & HA)]. split; [exact Hfr |]. exists w. auto. Qed.

(** ** What is never changed *)

#[export] Instance sameSkeleton_refl : Reflexive sameSkeleton.
Proof. intros st. repeat split; reflexivity. Qed.

#[export] Instance sameSkeleton_trans : Transitive sameSkeleton.
Proof.
  intros a b c (Q1 & W1 & H1) (Q2 & W2 & H2).
  repeat split; [congruence | congruence |].
  intros p. rewrite H2. apply H1.
Qed.

Lemma sameSkeleton_update st p v f :
  heap st !! p = Some v -> skeleton (f v) = skeleton v ->
  sameSkeleton st (set_heap (<[p := f v]> (heap st)) st).
Proof.
  intros Hv Hf. repeat split. intros q. cbn [heap set_heap].
  destruct (decide (p = q)) as [<- |].
  - rewrite lookup_insert_eq, Hv. simpl. congruence.
  - rewrite lookup_insert_ne by done. reflexivity.
Qed.

Ltac upd_skeleton :=
  intros; apply sameSkeleton_update; [assumption | reflexivity].

Lemma mergeBreak_skeleton s p : pres sameSkeleton (mergeBreak s p).
Proof. unfold mergeBreak. pres_steps upd_skeleton. Qed.

Lemma mergeStep_skeleton s p : pres sameSkeleton (mergeStep s p).
Proof. unfold mergeStep. pres_steps upd_skeleton. Qed.

Lemma mergeLoop_skeleton fuel s : forall p,
  pres sameSkeleton (mergeLoop fuel s p).
Proof.
  induction fuel as [| fuel IH]; intros [a |]; simpl;
    try (apply pres_ret; tc_solve); try (apply pres_outOfFuel; tc_solve).
  pose proof (mergeBreak_skeleton s a). pose proof (mergeStep_skeleton s a).
  pres_calls upd_skeleton.
Qed.

Lemma mergeTail_skeleton s p op fillRule :
  pres sameSkeleton (mergeTail s p op fillRule).
Proof. unfold mergeTail, mergedWindings. pres_steps upd_skeleton. Qed.

Lemma mergeOverlapping_skeleton s op fillRule :
  pres sameSkeleton (mergeOverlapping s op fillRule).
Proof.
  intros st r st'. rewrite mergeOverlapping_unfold. revert st r st'.
  pose proof (mergeLoop_skeleton). pose proof (mergeTail_skeleton).
  pres_calls upd_skeleton.
Qed.

Lemma mergeLoop_flags fuel s : forall p, pres flags_grow (mergeLoop fuel s p).
Proof.
  induction fuel as [| fuel IH]; intros [a |]; simpl;
    try (apply pres_ret; tc_solve); try (apply pres_outOfFuel; tc_solve).
  pose proof (mergeStep_flags s a).
  assert (pres flags_grow (mergeBreak s a)).
  { unfold mergeBreak. pres_steps upd_flags. }
  pres_calls upd_flags.
Qed.

Lemma mergeOverlapping_flags s op fillRule :
  pres flags_grow (mergeOverlapping s op fillRule).
Proof.
  intros st r st'. rewrite mergeOverlapping_unfold. revert st r st'.
  pose proof (mergeLoop_flags).
  unfold mergeTail, mergedWindings.
  pres_calls upd_flags.
Qed.

(** Merging overlapping segments moves no event and changes no link: the
    positions, the [other] links, the segment numbers, the nodes and the
    flags taken from the input are as before, the queue is untouched, and no
    [overlapped] mark is cleared, however the call ends. *)
Theorem mergeOverlapping_keeps_skeleton (s : ptr) (op : pathOp)
    (fillRule : FillRule) (st : state) (r : outcome unit) (st' : state) :
  mergeOverlapping s op fillRule st = (r, st') ->
  sameSkeleton st st' /\ flags_grow st st'.
Proof.
  intros H. split.
  - exact (mergeOverlapping_skeleton s op fillRule _ _ _ H).
  - exact (mergeOverlapping_flags s op fillRule _ _ _ H).
Qed.

(** ** Merged segments are taken out of the result *)

Lemma hoare_keeps {A} (I : state -> Prop) (m : M A) :
  pres (keeps I) m -> hoare I m (fun _ st => I st).
Proof. intros Hm st a st' HI E. exact (Hm _ _ _ E HI). Qed.

Lemma keeps_asrt_update (U : ptr -> Prop) st0 c (A : SweepPoint -> Prop)
    p f st v :
  U p -> (forall w, A w -> A (f w)) -> heap st !! p = Some v ->
  keeps (asrt U st0 c A) st (set_heap (<[p := f v]> (heap st)) st).
Proof.
  intros Hp Hf Hv [Hfr (w & Hw & HA)]. split.
  - intros q Hq. cbn [heap set_heap].
    rewrite lookup_insert_ne; [apply Hfr; exact Hq | intros ->; auto].
  - destruct (decide (p = c)) as [-> | Hne].
    + assert (w = v) as -> by congruence.
      exists (f v). split; [heap_lookup; reflexivity | auto].
    + exists w. split; [heap_lookup; exact Hw | auto].
Qed.

Ltac upd_asrt :=
  intros; apply keeps_asrt_update;
  [ first [exact I | reflexivity | hnf; auto]
  | intros []; cbn; auto | assumption ].

Lemma mergeStep_mergedAway s a :
  hoare (fun _ => True) (mergeStep s a) (fun _ => holdsAt a mergedAway).
Proof.
  unfold mergeStep.
  eapply hoare_bind; [apply hoare_load | intros sv].
  eapply hoare_bind; [apply hoare_load | intros pv].
  set (U := fun _ : ptr => True). set (st0 := emptyState).
  eapply hoare_bind with (Q := fun _ => asrt U st0 a (fun _ => True)).
  { eapply hoare_conseq with (P' := asrt U st0 a (fun _ => True));
      [apply hoare_keeps | |].
    - pres_steps upd_asrt.
    - intros st [_ H]. split; [intros q Hq; destruct Hq; exact I |].
      exists pv. auto.
    - auto. }
  intros ?.
  eapply hoare_bind;
    [apply (asrt_update U st0 a _ (fun v => windings v = 0));
     [exact I | intros []; reflexivity] | intros ?].
  eapply hoare_bind;
    [apply (asrt_update U st0 a _
              (fun v => windings v = 0 /\ selfWindings v = 0));
     [exact I | intros []; cbn; auto] | intros ?].
  eapply hoare_bind;
    [apply (asrt_update U st0 a _
              (fun v => windings v = 0 /\ selfWindings v = 0
                        /\ otherWindings v = 0));
     [exact I | intros []; cbn; intuition] | intros ?].
  eapply hoare_bind;
    [apply (asrt_update U st0 a _
              (fun v => windings v = 0 /\ selfWindings v = 0
                        /\ otherWindings v = 0 /\ otherSelfWindings v = 0));
     [exact I | intros []; cbn; intuition] | intros ?].
  eapply hoare_bind;
    [apply hoare_readonly; apply pres_load; tc_solve | intros pv'].
  eapply hoare_bind;
    [apply (asrt_update U st0 a _
              (fun v => windings v = 0 /\ selfWindings v = 0
                        /\ otherWindings v = 0 /\ otherSelfWindings v = 0
                        /\ inResult v = 0));
     [exact I | intros []; cbn; intuition] | intros ?].
  eapply hoare_bind;
    [apply hoare_readonly; apply pres_nonnil; tc_solve | intros po].
  eapply hoare_bind;
    [apply (asrt_update_any U st0 a po _
              (fun v => windings v = 0 /\ selfWindings v = 0
                        /\ otherWindings v = 0 /\ otherSelfWindings v = 0
                        /\ inResult v = 0));
     [exact I | auto | intros []; cbn; intuition] | intros ?].
  eapply hoare_conseq;
    [apply (asrt_update U st0 a
              (fun v => windings v = 0 /\ selfWindings v = 0
                        /\ otherWindings v = 0 /\ otherSelfWindings v = 0
                        /\ inResult v = 0)
              mergedAway);
     [exact I | intros []; unfold mergedAway; cbn; intuition]
    | auto | ].
  intros ? st [_ H]. exact H.
Qed.

#[export] Instance unmarks_refl s a : Reflexive (unmarks s a).
Proof. intros st p v _ _ Hv. left. exact Hv. Qed.

#[export] Instance unmarks_trans s a : Transitive (unmarks s a).
Proof.
  intros x y z H1 H2 p v Hs Ha Hv.
  destruct (H1 p v Hs Ha Hv) as [E | E];
    destruct (H2 p _ Hs Ha E) as [E' | E']; auto.
Qed.

Lemma unmarks_update s a st p v f :
  heap st !! p = Some v ->
  p = s \/ p = a \/ f = set_inResult 0 ->
  unmarks s a st (set_heap (<[p := f v]> (heap st)) st).
Proof.
  intros Hv Hp q w Hs Ha Hw. cbn [heap set_heap].
  destruct (decide (p = q)) as [<- | Hne].
  - destruct Hp as [-> | [-> | ->]]; [done | done |].
    right. rewrite lookup_insert_eq. congruence.
  - left. rewrite lookup_insert_ne by done. exact Hw.
Qed.

Ltac upd_unmarks :=
  intros; apply unmarks_update; [assumption | auto].

Lemma mergeStep_unmarks s a : pres (unmarks s a) (mergeStep s a).
Proof. unfold mergeStep. pres_steps upd_unmarks. Qed.

#[export] Instance mergesAway_refl s so : Reflexive (mergesAway s so).
Proof. intros st p v _ _ Hv. exists v. auto. Qed.

#[export] Instance mergesAway_trans s so : Transitive (mergesAway s so).
Proof.
  intros x y z H1 H2 p v Hs Hso Hv.
  destruct (H1 p v Hs Hso Hv) as (v1 & Hv1 & M1 & O1).
  destruct (H2 p v1 Hs Hso Hv1) as (v2 & Hv2 & M2 & O2).
  exists v2. split; [exact Hv2 |]. split; [auto |].
  intros Ho. destruct (O1 Ho) as [E | E]; auto.
Qed.

Lemma mergedAway_unmark v : mergedAway v -> mergedAway (set_inResult 0 v).
Proof. destruct v. unfold mergedAway. cbn. intuition. Qed.

Lemma mergeStep_mergesAway s so a st st' :
  mergeStep s a st = (Ret tt, st') -> mergesAway s so st st'.
Proof.
  intros H p v Hs Hso Hv.
  destruct (decide (p = a)) as [-> | Hne].
  - destruct (mergeStep_mergedAway s a st tt st' I H) as (v' & Hv' & Hm).
    exists v'. auto.
  - destruct (mergeStep_unmarks s a st _ st' H p v Hs Hne Hv) as [E | E].
    + exists v. auto.
    + exists (set_inResult 0 v). split; [exact E |].
      split; [apply mergedAway_unmark |].
      intros Ho. left. destruct v; exact Ho.
Qed.

Lemma mergeLoop_mergesAway s so fuel : forall p st p' st',
  mergeLoop fuel s p st = (Ret p', st') -> mergesAway s so st st'.
Proof.
  induction fuel as [| fuel IH]; intros [a |] st p' st' H; simpl in H;
    try (injection H as <- <-; reflexivity); try discriminate.
  apply bind_Ret_inv in H as (brk & st1 & Hb & H).
  apply mergeBreak_state in Hb as ->.
  destruct brk; [injection H as <- <-; reflexivity |].
  apply bind_Ret_inv in H as ([] & st2 & Hstep & H).
  apply bind_Ret_inv in H as (av & st3 & Hl & H).
  apply load_inv in Hl as [_ ->].
  transitivity st2; [exact (mergeStep_mergesAway s so a _ _ Hstep) |].
  exact (IH _ _ _ _ H).
Qed.

Lemma skeleton_other v w : skeleton v = skeleton w -> other v = other w.
Proof. unfold skeleton. intros H. congruence. Qed.

Lemma mergeTail_frame s so p op fillRule st st' sv :
  heap st !! s = Some sv -> other sv = Some so ->
  mergeTail s p op fillRule st = (Ret tt, st') ->
  forall q, q <> s -> q <> so -> heap st' !! q = heap st !! q.
Proof.
  intros Hs Hso H.
  set (U := fun q : ptr => q = s \/ q = so).
  assert (HU : U s) by (left; reflexivity).
  assert (Hstart : asrt U st s (fun v => other v = Some so) st).
  { split; [intros q _; reflexivity | exists sv; auto]. }
  assert (Hend : asrt U st s (fun v => other v = Some so) st').
  { cut (hoare (asrt U st s (fun v => other v = Some so))
                (mergeTail s p op fillRule)
                (fun _ => asrt U st s (fun v => other v = Some so)));
      [intros Hh; exact (Hh st tt st' Hstart H) |].
    unfold mergeTail.
    eapply hoare_bind;
      [apply hoare_keeps; unfold mergedWindings; pres_steps upd_asrt
      | intros ?].
    eapply hoare_bind;
      [apply hoare_keeps; pres_steps upd_asrt | intros sv1].
    eapply hoare_bind;
      [apply hoare_keeps; pres_steps upd_asrt | intros ?].
    eapply hoare_bind; [apply asrt_load | intros sv2].
    eapply hoare_bind; [apply hoare_nonnil | intros so'].
    eapply hoare_bind with (Q := fun _ => asrt U st s (fun v => other v = Some so)).
    - apply hoare_update. intros st1 v [[Hfr (w & Hw & HA & Ew)] Eo] Hv.
      subst w.
      assert (so' = so) as -> by congruence.
      apply (keeps_asrt_update U st s (fun v => other v = Some so) so
               (set_inResult (inResult sv2)) st1 v);
        [right; reflexivity | intros []; cbn; auto | exact Hv |].
      split; [exact Hfr | exists sv2; auto].
    - intros ?. apply hoare_keeps. pres_steps upd_asrt. }
  intros q Hqs Hqso. destruct Hend as [Hfr _]. apply Hfr.
  intros [-> | ->]; done.
Qed.

(** When [mergeOverlapping] returns, every segment that it has marked as
    overlapped, apart from [s] and its other end, is out of the result: its
    winding counts and its mark [inResult] are zero.  The segments that were
    out of the result stay out of it. *)
Theorem mergeOverlapping_drops_merged (s so : ptr) (sv : SweepPoint)
    (op : pathOp) (fillRule : FillRule) (st st' : state) :
  heap st !! s = Some sv -> other sv = Some so ->
  mergeOverlapping s op fillRule st = (Ret tt, st') ->
  mergesAway s so st st'.
Proof.
  intros Hs Hso H. rewrite mergeOverlapping_unfold in H.
  rewrite bind_load, Hs in H.
  destruct (overlapped sv); [injection H as <-; reflexivity |].
  rewrite bind_getState in H.
  apply bind_Ret_inv in H as (p & st1 & Hloop & H).
  pose proof (mergeLoop_mergesAway s so _ _ _ _ _ Hloop) as H1.
  destruct (mergeLoop_skeleton _ s _ _ _ _ Hloop) as (_ & _ & Hsk).
  specialize (Hsk s). rewrite Hs in Hsk.
  apply bind_Ret_inv in H as (sv1 & st2 & Hl & H).
  apply load_inv in Hl as [Hs1 ->].
  rewrite Hs1 in Hsk. simpl in Hsk.
  assert (Hso1 : other sv1 = Some so).
  { rewrite <- Hso. apply skeleton_other. congruence. }
  destruct (decide (p = prev sv1)); [injection H as <-; exact H1 |].
  transitivity st1; [exact H1 |].
  intros q v Hqs Hqso Hv. exists v.
  rewrite (mergeTail_frame s so p op fillRule st1 st' sv1 Hs1 Hso1 H q Hqs Hqso).
  auto.
Qed.

(** ** The sweep fields *)

Lemma skipVertical_readonly fuel : forall p, pres eq (skipVertical fuel p).
Proof.
  induction fuel as [| fuel IH]; intros [a |]; simpl;
    try (apply pres_ret; tc_solve); try (apply pres_outOfFuel; tc_solve).
  pres_calls idtac.
Qed.

Lemma computeSweepFields_skeleton cur prev0 op fillRule :
  pres sameSkeleton (computeSweepFields cur prev0 op fillRule).
Proof.
  assert (forall fuel p, pres sameSkeleton (skipVertical fuel p)).
  { intros fuel p st r st' E.
    rewrite <- (skipVertical_readonly fuel p _ _ _ E). reflexivity. }
  unfold computeSweepFields. pres_calls upd_skeleton.
Qed.

Lemma InResult_set_inResult v x op fillRule :
  InResult (set_inResult x v) op fillRule = InResult v op fillRule.
Proof. destruct v. reflexivity. Qed.

(** When [computeSweepFields] returns, the mark [inResult] of [cur] is what
    [InResult] gives for the winding counts that [cur] now has, the other end
    of the segment carries the same mark, [cur.prev] is the segment that was
    passed, and no other event has changed.  However the call ends, it moves
    no event and changes no link. *)
Theorem computeSweepFields_consistent (cur : ptr) (prev0 : option ptr)
    (op : pathOp) (fillRule : FillRule) (st : state) (r : outcome unit)
    (st' : state) :
  computeSweepFields cur prev0 op fillRule st = (r, st') ->
  sameSkeleton st st'
  /\ (r = Ret tt ->
      exists cv' o ov',
        heap st' !! cur = Some cv' /\ other cv' = Some o
        /\ heap st' !! o = Some ov'
        /\ prev cv' = prev0
        /\ inResult cv' = InResult cv' op fillRule
        /\ inResult ov' = inResult cv'
        /\ forall q, q <> cur -> q <> o -> heap st' !! q = heap st !! q).
Proof.
  intros H. split; [exact (computeSweepFields_skeleton _ _ _ _ _ _ _ H) |].
  intros ->. revert H.
  set (U := fun q : ptr => q = cur).
  set (Post := fun (_ : unit) (s' : state) =>
    exists cv' o ov',
      heap s' !! cur = Some cv' /\ other cv' = Some o
      /\ heap s' !! o = Some ov'
      /\ prev cv' = prev0
      /\ inResult cv' = InResult cv' op fillRule
      /\ inResult ov' = inResult cv'
      /\ forall q, q <> cur -> q <> o -> heap s' !! q = heap st !! q).
  cut (hoare (fun s => s = st) (computeSweepFields cur prev0 op fillRule) Post);
    [intros Hh H; exact (Hh st tt st' eq_refl H) |].
  unfold computeSweepFields.
  eapply hoare_bind; [apply hoare_load | intros cv].
  eapply hoare_bind with (Q := fun _ => asrt U st cur (fun _ => True)).
  { eapply hoare_conseq with (P' := asrt U st cur (fun _ => True));
      [apply hoare_keeps; pres_steps upd_asrt | | auto].
    intros s1 [-> Hc]. split; [intros q _; reflexivity | exists cv; auto]. }
  intros ?.
  eapply hoare_bind;
    [apply (asrt_update U st cur _ (fun v => prev v = prev0));
     [reflexivity | intros []; reflexivity] | intros ?].
  eapply hoare_bind; [apply hoare_readonly, pres_getState; tc_solve | intros s0].
  eapply hoare_bind;
    [apply hoare_readonly, skipVertical_readonly | intros p].
  eapply hoare_bind;
    [apply hoare_keeps; pres_steps upd_asrt | intros ?].
  eapply hoare_bind; [apply asrt_load | intros cv1].
  eapply hoare_bind;
    [apply (asrt_update U st cur _
              (fun v => prev v = prev0
                        /\ inResult v = InResult v op fillRule));
     [reflexivity |] | intros ?].
  { intros v [Hp Ev]. subst v. rewrite InResult_set_inResult.
    destruct cv1; cbn in *. auto. }
  eapply hoare_bind; [apply asrt_load | intros cv2].
  eapply hoare_bind; [apply hoare_nonnil | intros o].
  apply hoare_update.
  intros s1 v [[Hfr (w & Hw & [Hp Hin] & Ew)] Eo] Hv. subst w.
  unfold Post. cbn [heap set_heap].
  destruct (decide (o = cur)) as [-> | Hne].
  - assert (v = cv2) as -> by congruence.
    exists (set_inResult (inResult cv2) cv2), cur,
           (set_inResult (inResult cv2) cv2).
    rewrite lookup_insert_eq, InResult_set_inResult.
    destruct cv2; cbn in *. repeat split; auto.
    intros q Hq _. rewrite lookup_insert_ne by done. apply Hfr. exact Hq.
  - exists cv2, o, (set_inResult (inResult cv2) v).
    rewrite lookup_insert_ne, lookup_insert_eq by done.
    repeat split; auto.
    intros q Hq Hqo. rewrite lookup_insert_ne by done. apply Hfr. exact Hq.
Qed.

Lemma bind_assoc {A B C} (m : M A) (k1 : A -> M B) (k2 : B -> M C) st :
  ((m ≫= k1) ≫= k2) st = (m ≫= fun a => k1 a ≫= k2) st.
Proof.
  rewrite (bind_unfold (m ≫= k1)), (bind_unfold m k1), (bind_unfold m).
  destruct (m st) as [[a | msg |] st1]; reflexivity.
Qed.

(** The lowest segment of a closed path, with nothing below it and no
    overlap merged into it, is part of the result of OR and XOR and not of
    AND; for Settle, NOT and DIV it is part of the result exactly when it
    belongs to the subject.  Its winding counts below are zero, and its own
    count is 1 or -1 with its direction. *)
Theorem computeSweepFields_lowest (cur o : ptr) (cv ov : SweepPoint)
    (op : pathOp) (fillRule : FillRule) (st : state) :
  heap st !! cur = Some cv -> other cv = Some o -> heap st !! o = Some ov ->
  o <> cur -> open cv = false -> otherSelfWindings cv = 0 ->
  exists st' cv' ov',
    computeSweepFields cur None op fillRule st = (Ret tt, st')
    /\ heap st' !! cur = Some cv' /\ heap st' !! o = Some ov'
    /\ windings cv' = 0 /\ otherWindings cv' = 0
    /\ selfWindings cv' = (if increasing cv then 1 else -1)
    /\ inResult ov' = inResult cv'
    /\ inResult cv'
       = match op with
         | opOR | opXOR => 1
         | opAND => 0
         | opSettle | opNOT | opDIV => if clipping cv then 0 else 1
         end.
Proof.
  intros Hc Ho Hov Hne Hopen Hos.
  unfold computeSweepFields.
  rewrite bind_load, Hc, Hopen. cbn [negb].
  destruct cv as [pt0 oth seg nd w ow sw osw pr sq rw cl opn en lf vt inc ovl inr ix].
  cbn in Ho, Hopen, Hos. subst oth opn osw.
  destruct inc; cbn [negb increasing];
    repeat (first [ rewrite bind_assoc | run1 ];
            cbn [increasing set_selfWindings negb skipVertical]).
  all: eexists; eexists; eexists.
  all: (split; [apply update_Some; heap_lookup; exact Hov |]).
  all: (split; [heap_lookup; reflexivity |]).
  all: (split; [heap_lookup; reflexivity |]).
  all: cbn.
  all: destruct cl, op, fillRule; repeat split; reflexivity.
Qed.

Lemma mergeOverlapping_keeps_skeleton_witness :
  mergeOverlapping 2%nat opSettle NonZero overlapState = (Ret tt, overlapMerged)
  /\ sameSkeleton overlapState overlapMerged
  /\ flags_grow overlapState overlapMerged.
Proof.
  assert (H : mergeOverlapping 2%nat opSettle NonZero overlapState
              = (Ret tt, overlapMerged)) by (vm_compute; reflexivity).
  split; [exact H |].
  exact (mergeOverlapping_keeps_skeleton 2%nat opSettle NonZero overlapState
           (Ret tt) overlapMerged H).
Defined.

Lemma computeSweepFields_consistent_witness :
  sameSkeleton crossState
    (snd (computeSweepFields 4%nat (Some 0%nat) opOR NonZero crossState))
  /\ exists cv' o ov',
       heap (snd (computeSweepFields 4%nat (Some 0%nat) opOR NonZero
                    crossState)) !! 4%nat = Some cv'
       /\ other cv' = Some o
       /\ heap (snd (computeSweepFields 4%nat (Some 0%nat) opOR NonZero
                       crossState)) !! o = Some ov'
       /\ prev cv' = Some 0%nat
       /\ inResult cv' = InResult cv' opOR NonZero
       /\ inResult ov' = inResult cv'
       /\ forall q, q <> 4%nat -> q <> o ->
            heap (snd (computeSweepFields 4%nat (Some 0%nat) opOR NonZero
                         crossState)) !! q
            = heap crossState !! q.
Proof.
  destruct (computeSweepFields_consistent 4%nat (Some 0%nat) opOR NonZero
              crossState _ _ (surjective_pairing _)) as [Hs Hr].
  split; [exact Hs |]. apply Hr. vm_compute. reflexivity.
Defined.

Lemma computeSweepFields_lowest_witness :
  exists st' cv' ov',
    computeSweepFields 0%nat None opNOT EvenOdd crossState = (Ret tt, st')
    /\ heap st' !! 0%nat = Some cv' /\ heap st' !! 1%nat = Some ov'
    /\ windings cv' = 0 /\ otherWindings cv' = 0
    /\ selfWindings cv' = 1
    /\ inResult ov' = inResult cv'
    /\ inResult cv' = 1.
Proof.
  refine (computeSweepFields_lowest 0%nat 1%nat
            (status_event (P 0 0) 1%nat 1 true (Some 0%nat))
            (status_event (P 2 2) 0%nat 1 false None)
            opNOT EvenOdd crossState _ _ _ _ _ _);
    [vm_compute; reflexivity | reflexivity | vm_compute; reflexivity
    | discriminate | reflexivity | reflexivity].
Defined.

Lemma mergeOverlapping_drops_merged_witness :
  mergeOverlapping 2%nat opSettle NonZero overlapState = (Ret tt, overlapMerged)
  /\ mergesAway 2%nat 3%nat overlapState overlapMerged.
Proof.
  assert (H : mergeOverlapping 2%nat opSettle NonZero overlapState
              = (Ret tt, overlapMerged)) by (vm_compute; reflexivity).
  split; [exact H |].
  refine (mergeOverlapping_drops_merged 2%nat 3%nat
            (seg_event (P 0 0) 3%nat 2 false true (Some 0%nat))
            opSettle NonZero overlapState overlapMerged _ _ H);
    [vm_compute; reflexivity | reflexivity].
Defined.

(* ===================================================================== *)
(** ** More on the intersections with a ray *)

Lemma insertBack_Permutation {A} less (x : A) (l : list A) :
  insertBack less x l ≡ₚ x :: l.
Proof.
  induction l as [| p l IH]; simpl; [reflexivity |].
  destruct (less x p); [| reflexivity].
  rewrite IH. apply Permutation_swap.
Qed.

Lemma SliceStable_Permutation {A} less (l : list A) :
  SliceStable less l ≡ₚ l.
Proof.
  unfold SliceStable. rewrite <- Permutation_rev.
  assert (G : forall acc,
            fold_left (fun r x => insertBack less x r) l acc ≡ₚ l ++ acc).
  { induction l as [| x l IH]; intros acc; simpl; [reflexivity |].
    rewrite IH, insertBack_Permutation. symmetry. apply Permutation_middle. }
  rewrite G, app_nil_r. reflexivity.
Qed.

Section RayFacts.

Variables MoveToCmd LineToCmd QuadToCmd CubeToCmd ArcToCmd CloseCmd : float64.
Variable cmdLen : float64 -> nat.
Variable Epsilon : float64.
Variable Interval : float64 -> float64 -> float64 -> bool.
Variable Equal : float64 -> float64 -> bool.
Variable lineLine :
  list Intersection -> Point -> Point -> Point -> Point -> list Intersection.
Variable lineQuad :
  list Intersection -> Point -> Point -> Point -> Point -> Point ->
  list Intersection.
Variable lineCube :
  list Intersection -> Point -> Point -> Point -> Point -> Point -> Point ->
  list Intersection.
Variable lineEllipse :
  list Intersection -> Point -> Point -> Point -> Point ->
  float64 -> float64 -> float64 -> list Intersection.
Variable toArcFlags : float64 -> bool * bool.
Variable ellipseToCenter :
  float64 -> float64 -> float64 -> float64 -> float64 -> bool -> bool ->
  float64 -> float64 -> float64 * float64 * float64 * float64.

Lemma rayCmd_readonly d x y i cmd start end_p zs :
  pres eq (rayCmd MoveToCmd LineToCmd QuadToCmd CubeToCmd ArcToCmd
            CloseCmd Epsilon Interval lineLine lineQuad lineCube lineEllipse
            toArcFlags ellipseToCenter d x y i cmd start end_p zs).
Proof.
  unfold rayCmd.
  repeat first
    [ apply pres_bind; [tc_solve | apply pres_at; tc_solve | intros ?]
    | apply pres_ret; tc_solve
    | match goal with
      | |- pres _ (if ?b then _ else _) => destruct b
      | |- pres _ (let '(_, _) := ?p in _) => destruct p
      end ].
Qed.

Lemma rayLoop_readonly fuel d x y : forall i start end_p zs,
  pres eq (rayLoop MoveToCmd LineToCmd QuadToCmd CubeToCmd ArcToCmd
            CloseCmd cmdLen Epsilon Interval lineLine lineQuad lineCube
            lineEllipse toArcFlags ellipseToCenter fuel d x y i start end_p zs).
Proof.
  induction fuel as [| fuel IH]; intros i start end_p zs; simpl;
    (destruct (negb (i <? length d)%nat); [apply pres_ret; tc_solve |]).
  - apply pres_outOfFuel. tc_solve.
  - apply pres_bind; [tc_solve | apply pres_at; tc_solve | intros cmd].
    apply pres_bind; [tc_solve | apply rayCmd_readonly | intros [e z]].
    apply IH.
Qed.

(** [RayIntersections] only reads: the state is as before.  What it returns
    are the intersections that the helpers have found, none lost and none
    added by the sorting, with the parameter along the ray of each replaced
    by NaN unless it is zero. *)
Theorem RayIntersections_marks (d : Path) (x y : float64) (st : state)
    (zs : list Intersection) (st' : state) :
  RayIntersections MoveToCmd LineToCmd QuadToCmd CubeToCmd ArcToCmd CloseCmd
    cmdLen Epsilon Interval Equal lineLine lineQuad lineCube lineEllipse
    toArcFlags ellipseToCenter d x y st = (Ret zs, st') ->
  st' = st
  /\ Forall (fun z => feq (fst (T z)) (S754_zero false) = true
                      \/ fst (T z) = fNaN) zs
  /\ exists zs0,
       rayLoop MoveToCmd LineToCmd QuadToCmd CubeToCmd ArcToCmd
         CloseCmd cmdLen Epsilon Interval lineLine lineQuad lineCube
         lineEllipse toArcFlags ellipseToCenter
         (length d) d x y 0%nat zeroPoint zeroPoint [] st = (Ret zs0, st)
       /\ zs ≡ₚ map markT zs0
       /\ map ipt zs ≡ₚ map ipt zs0
       /\ map Tangent zs ≡ₚ map Tangent zs0.
Proof.
  intros H. pose proof H as H0.
  unfold RayIntersections in H.
  apply bind_Ret_inv in H as (zs0 & st1 & Hl & H).
  pose proof (rayLoop_readonly _ _ _ _ _ _ _ _ _ _ _ Hl) as <-.
  injection H as <- <-.
  split; [reflexivity |]. split.
  - apply SliceStable_Forall. apply Forall_map.
    apply Forall_forall. intros z _. unfold markT, fne, feq.
    destruct (SFeqb (fst (T z)) (S754_zero false)) eqn:E; simpl;
      [left; exact E | right; reflexivity].
  - exists zs0. split; [exact Hl |].
    pose proof (SliceStable_Permutation (lessAlongRay Equal) (map markT zs0))
      as HP.
    split; [exact HP |].
    assert (Hi : forall z, ipt (markT z) = ipt z).
    { intros z. unfold markT. destruct (fne _ _); reflexivity. }
    assert (Ht : forall z, Tangent (markT z) = Tangent z).
    { intros z. unfold markT. destruct (fne _ _); reflexivity. }
    split.
    + rewrite HP, map_map. erewrite map_ext; [reflexivity | exact Hi].
    + rewrite HP, map_map. erewrite map_ext; [reflexivity | exact Ht].
Qed.

End RayFacts.

Lemma RayIntersections_marks_witness :
  RayIntersections
    Helpers.MoveToCmd Helpers.LineToCmd Helpers.QuadToCmd
    Helpers.CubeToCmd Helpers.ArcToCmd Helpers.CloseCmd Helpers.cmdLen
    Helpers.Epsilon Helpers.Interval Helpers.Equal
    Helpers.intersectionLineLine Helpers.noQuad Helpers.noCube
    Helpers.noEllipse Helpers.noArcFlags Helpers.noCenter
    squarePath (fZ 0) half emptyState
  = (Ret [mkIntersection (mkPoint (fZ 0) half) (S754_zero true, fdiv (fZ 3) (fZ 4)) true; squareHit2], emptyState)
  /\ Forall (fun z => feq (fst (T z)) (S754_zero false) = true
                      \/ fst (T z) = fNaN)
            [mkIntersection (mkPoint (fZ 0) half) (S754_zero true, fdiv (fZ 3) (fZ 4)) true; squareHit2].
Proof.
  assert (H : RayIntersections
    Helpers.MoveToCmd Helpers.LineToCmd Helpers.QuadToCmd
    Helpers.CubeToCmd Helpers.ArcToCmd Helpers.CloseCmd Helpers.cmdLen
    Helpers.Epsilon Helpers.Interval Helpers.Equal
    Helpers.intersectionLineLine Helpers.noQuad Helpers.noCube
    Helpers.noEllipse Helpers.noArcFlags Helpers.noCenter
    squarePath (fZ 0) half emptyState
  = (Ret [mkIntersection (mkPoint (fZ 0) half) (S754_zero true, fdiv (fZ 3) (fZ 4)) true; squareHit2], emptyState))
    by (vm_compute; reflexivity).
  split; [exact H |].
  exact (proj1 (proj2 (RayIntersections_marks _ _ _ _ _ _ _ _ _ _ _ _ _ _ _ _
                         _ _ _ _ _ _ H))).
Defined.

(* ===================================================================== *)
(** ** Tolerance squares *)

Lemma column_square x st j p :
  column x st -> squares st !! j = Some p ->
  exists s, squareStore st !! p = Some s
    /\ toleranceSquares.square st j = Ret s
    /\ feq (toleranceSquare.X s) x = true
    /\ IsNaN (toleranceSquare.Y s) = false.
Proof.
  intros Hc Hj. destruct (Hc j p Hj) as (s & Hs & HX & HY & _).
  exists s. unfold toleranceSquares.square. rewrite Hj, Hs. auto.
Qed.

Lemma feq_not_flt (a b : float64) : feq a b = true -> flt a b = false.
Proof.
  intros E. destruct (flt a b) eqn:L; [| reflexivity].
  destruct (flt_true _ _ L) as [E' _]. congruence.
Qed.

Lemma feq_number (a b : float64) :
  feq a b = true -> IsNaN a = false /\ IsNaN b = false.
Proof.
  unfold feq, SFeqb. destruct a, b; simpl; try discriminate; auto.
Qed.

(** The loop of [find] on a column: it stops at the lowest square that is
    not below [y]. *)
Lemma findLoop_position x y st : forall n,
  column x st -> IsNaN y = false ->
  (n <= length (squares st))%nat ->
  (forall j, (n <= j)%nat -> (j < length (squares st))%nat ->
             squareAbove st y j) ->
  exists i ok,
    toleranceSquares.findLoop st n x y = Ret (i, ok)
    /\ (i <= n)%nat
    /\ (ok = true -> squareAt st y i)
    /\ (ok = false -> i = 0%nat \/ squareBelow st y (i - 1))
    /\ forall j, ((if ok then S i else i) <= j)%nat ->
                 (j < length (squares st))%nat -> squareAbove st y j.
Proof.
  intros n Hc Hy. induction n as [| n IH]; intros Hn Habove.
  - exists 0%nat, false. simpl. repeat split; auto. discriminate.
  - destruct (lookup_lt_is_Some_2 (squares st) n ltac:(lia)) as [p Hp].
    destruct (column_square x st n p Hc Hp) as (s & Hs & Hsq & HX & HY).
    simpl. rewrite Hsq. simpl.
    rewrite (feq_not_flt _ _ HX). simpl.
    destruct (float_trichotomy _ _ HY Hy)
      as [(L1 & E1 & L2 & E2) | [(L1 & E1 & L2 & E2) | (L1 & E1 & L2 & E2)]];
      rewrite L1, ?E1.
    + exists (S n), false.
      split; [reflexivity |]. split; [lia |]. split; [discriminate |].
      split.
      * intros _. right. exists p, s.
        replace (S n - 1)%nat with n by lia. auto.
      * intros j Hj Hlt. apply Habove; lia.
    + exists n, true.
      split; [reflexivity |]. split; [lia |]. split.
      * intros _. exists p, s. auto.
      * split; [discriminate |].
        intros j Hj Hlt. apply Habove; lia.
    + destruct IH as (i & ok & Hrun & Hi & Hat & Hbelow & Hab).
      * lia.
      * intros j Hj Hlt. destruct (decide (j = n)) as [-> |].
        -- exists p, s. auto.
        -- apply Habove; lia.
      * exists i, ok.
        split; [exact Hrun |]. split; [lia |]. auto.
Qed.

(** [find] on the squares of a column gives the place of [y]: the index of
    the square at [y] if there is one; otherwise the index where a square at
    [y] belongs, right above the squares below [y].  Every square from there
    on is above [y]. *)
Theorem find_position (x y : float64) (st : squaresState) :
  column x st -> IsNaN y = false ->
  exists i ok,
    toleranceSquares.find st x y = Ret (i, ok)
    /\ (i <= length (squares st))%nat
    /\ (ok = true -> squareAt st y i)
    /\ (ok = false -> i = 0%nat \/ squareBelow st y (i - 1))
    /\ forall j, ((if ok then S i else i) <= j)%nat ->
                 (j < length (squares st))%nat -> squareAbove st y j.
Proof.
  intros Hc Hy. unfold toleranceSquares.find.
  apply findLoop_position; auto. intros j ? ?. lia.
Qed.

Lemma feq_refl (a : float64) : IsNaN a = false -> feq a a = true.
Proof.
  intros Ha. destruct (float_trichotomy a a Ha Ha)
    as [(L1 & E1 & L2 & E2) | [(L1 & E1 & L2 & E2) | (L1 & E1 & L2 & E2)]];
    congruence.
Qed.

Lemma insert_at_lookup {A} (l : list A) (i : nat) (a : A) (j : nat) :
  (i <= length l)%nat ->
  (take i l ++ a :: drop i l) !! j
  = if decide (j < i)%nat then l !! j
    else if decide (j = i) then Some a else l !! (j - 1)%nat.
Proof.
  intros Hi. destruct (decide (j < i)%nat) as [Hlt | Hge].
  - rewrite lookup_app_l by (rewrite length_take; lia).
    apply lookup_take_lt. exact Hlt.
  - rewrite lookup_app_r by (rewrite length_take; lia).
    rewrite length_take. replace (i `min` length l)%nat with i by lia.
    destruct (decide (j = i)) as [-> | Hne].
    + replace (i - i)%nat with 0%nat by lia. reflexivity.
    + replace (j - i)%nat with (S (j - i - 1)) by lia. simpl.
      rewrite lookup_drop. f_equal. lia.
Qed.

#[export] Instance squaresGrow_refl : Reflexive squaresGrow.
Proof.
  intros st p s Hs. exists s. repeat split; auto.
  exists []. rewrite app_nil_r. reflexivity.
Qed.

#[export] Instance squaresGrow_trans : Transitive squaresGrow.
Proof.
  intros a b c H1 H2 p s Hs.
  destruct (H1 p s Hs) as (s1 & Hs1 & X1 & Y1 & m1 & E1).
  destruct (H2 p s1 Hs1) as (s2 & Hs2 & X2 & Y2 & m2 & E2).
  exists s2. repeat split; [exact Hs2 | congruence | congruence |].
  exists (m1 ++ m2). rewrite E2, E1, app_assoc. reflexivity.
Qed.

Lemma renoded_grow ref st st' : renoded ref st st' -> squaresGrow st st'.
Proof.
  intros [_ H] p s Hs. destruct (H p s Hs) as [E | E].
  - exists s. repeat split; auto. exists []. rewrite app_nil_r. reflexivity.
  - exists (toleranceSquare.set_Node ref s). repeat split; auto.
    exists []. rewrite app_nil_r. reflexivity.
Qed.

Lemma column_grow x st st' :
  column x st -> squares st' = squares st -> squaresGrow st st' ->
  column x st'.
Proof.
  intros Hc Hsq Hg j p Hp. rewrite Hsq in Hp.
  destruct (Hc j p Hp) as (s & Hs & HX & HY & Hnext).
  destruct (Hg p s Hs) as (s' & Hs' & EX & EY & _).
  exists s'. rewrite EX, EY. repeat split; auto.
  intros p' Hp'. rewrite Hsq in Hp'.
  destruct (Hnext p' Hp') as (t & Ht & Hlt).
  destruct (Hg p' t Ht) as (t' & Ht' & _ & EY' & _).
  exists t'. rewrite EY'. auto.
Qed.

Lemma renodeLoop_renoded x orig ref : forall n st,
  (forall j p, squares st !! j = Some p -> is_Some (squareStore st !! p)) ->
  (n <= length (squares st))%nat ->
  exists st',
    toleranceSquares.renodeLoop st n x orig ref = Ret st'
    /\ renoded ref st st'.
Proof.
  induction n as [| n IH]; intros st Halloc Hn; simpl.
  - exists st. split; [reflexivity |]. split; auto.
  - destruct (lookup_lt_is_Some_2 (squares st) n ltac:(lia)) as [p Hp].
    rewrite Hp. destruct (Halloc n p Hp) as [s Hs]. rewrite Hs.
    destruct (feq (toleranceSquare.X s) x);
      [| exists st; split; [reflexivity | split; auto]].
    destruct (decide (toleranceSquare.Node s = orig)) as [E | E].
    + destruct (IH (mkSquares
                      (<[p := toleranceSquare.set_Node ref s]> (squareStore st))
                      (squares st))) as (st' & Hrun & Hsq & Hre).
      * intros j q Hq. cbn [squares squareStore] in *.
        destruct (decide (q = p)) as [-> |].
        -- rewrite lookup_insert_eq. eauto.
        -- rewrite lookup_insert_ne by done. exact (Halloc j q Hq).
      * cbn [squares]. lia.
      * exists st'. split; [exact Hrun |].
        cbn [squares squareStore] in *. split; [exact Hsq |].
        intros q t Hq. destruct (decide (q = p)) as [-> |].
        -- assert (t = s) as -> by congruence.
           destruct (Hre p (toleranceSquare.set_Node ref s)) as [E' | E'].
           ++ apply lookup_insert_eq.
           ++ right. exact E'.
           ++ right. exact E'.
        -- apply Hre. rewrite lookup_insert_ne by done. exact Hq.
    + apply IH; [exact Halloc | lia].
Qed.

Lemma column_insert x y st i p events ref :
  column x st -> IsNaN x = false -> IsNaN y = false ->
  squareStore st !! p = None ->
  (i <= length (squares st))%nat ->
  (i = 0%nat \/ squareBelow st y (i - 1)) ->
  (forall j, (i <= j)%nat -> (j < length (squares st))%nat ->
             squareAbove st y j) ->
  column x (mkSquares
              (<[p := toleranceSquare.mk x y events ref None None]>
                 (squareStore st))
              (take i (squares st) ++ p :: drop i (squares st))).
Proof.
  intros Hc Hx Hy Hfresh Hi Hbelow Habove.
  assert (Hold : forall j q, squares st !! j = Some q -> q <> p).
  { intros j q Hq ->. destruct (Hc j p Hq) as (s & Hs & _). congruence. }
  intros j q Hq. cbn [squares squareStore] in *.
  rewrite insert_at_lookup in Hq by exact Hi.
  destruct (decide (j < i)%nat) as [Hlt | Hge].
  - (* a square below the new one *)
    destruct (Hc j q Hq) as (s & Hs & HX & HY & Hnext).
    exists s. rewrite lookup_insert_ne by (symmetry; eauto).
    repeat split; auto.
    intros p' Hp'. rewrite insert_at_lookup in Hp' by exact Hi.
    destruct (decide (S j < i)%nat) as [Hlt' | Hge'].
    + destruct (Hnext p' Hp') as (t & Ht & Hlt2).
      exists t. rewrite lookup_insert_ne by (symmetry; eauto). auto.
    + destruct (decide (S j = i)) as [Ei | Ni]; [| lia].
      injection Hp' as <-. rewrite lookup_insert_eq. eexists.
      split; [reflexivity |]. cbn.
      destruct Hbelow as [-> | (q' & s' & Hq' & Hs' & Hlt2)]; [lia |].
      replace (i - 1)%nat with j in Hq' by lia.
      assert (q' = q) as -> by congruence.
      assert (s' = s) as -> by congruence. exact Hlt2.
  - destruct (decide (j = i)) as [-> | Hne].
    + (* the new square *)
      injection Hq as <-. rewrite lookup_insert_eq. eexists.
      split; [reflexivity |]. cbn.
      split; [apply feq_refl; exact Hx |]. split; [exact Hy |].
      intros p' Hp'. rewrite insert_at_lookup in Hp' by exact Hi.
      destruct (decide (S i < i)%nat); [lia |].
      destruct (decide (S i = i)); [lia |].
      replace (S i - 1)%nat with i in Hp' by lia.
      destruct (Habove i (Nat.le_refl _) (lookup_lt_Some _ _ _ Hp'))
        as (q' & s' & Hq' & Hs' & Hlt2).
      assert (q' = p') as -> by congruence.
      exists s'. rewrite lookup_insert_ne by (symmetry; eauto). auto.
    + (* a square above the new one *)
      destruct (Hc (j - 1)%nat q Hq) as (s & Hs & HX & HY & Hnext).
      exists s. rewrite lookup_insert_ne by (symmetry; eauto).
      repeat split; auto.
      intros p' Hp'. rewrite insert_at_lookup in Hp' by exact Hi.
      destruct (decide (S j < i)%nat); [lia |].
      destruct (decide (S j = i)); [lia |].
      replace (S j - 1)%nat with (S (j - 1)) in Hp' by lia.
      destruct (Hnext p' Hp') as (t & Ht & Hlt2).
      exists t. rewrite lookup_insert_ne by (symmetry; eauto). auto.
Qed.

Lemma fresh_None_squares (m : gmap ptr toleranceSquare.t) :
  m !! fresh (dom m) = None.
Proof. apply not_elem_of_dom, is_fresh. Qed.

(** [Add] keeps the squares of a column in order: afterwards they are still
    the squares at [x], bottom to top without two at the same height, no
    square has lost an event, and the event is in the square at its snapped
    height, whose reference node is [refNode]. *)
Theorem Add_keeps_column (snap : float64 -> float64 -> float64)
    (h : gmap ptr SweepPoint) (x : float64) (event : ptr) (ev : SweepPoint)
    (refNode : option ptr) (st : squaresState) :
  column x st -> IsNaN x = false ->
  h !! event = Some ev ->
  IsNaN (snap (Y (pt ev)) BentleyOttmannEpsilon) = false ->
  (left_ ev = false -> exists o ov, other ev = Some o /\ h !! o = Some ov) ->
  exists st' j p s,
    toleranceSquares.Add snap h x event refNode st = Ret st'
    /\ column x st' /\ squaresGrow st st'
    /\ squares st' !! j = Some p /\ squareStore st' !! p = Some s
    /\ feq (toleranceSquare.Y s) (snap (Y (pt ev)) BentleyOttmannEpsilon) = true
    /\ event ∈ toleranceSquare.Events s
    /\ toleranceSquare.Node s = refNode.
Proof.
  intros Hc Hx Hev Hy Hother.
  set (y := snap (Y (pt ev)) BentleyOttmannEpsilon) in *.
  destruct (find_position x y st Hc Hy)
    as (i & ok & Hfind & Hi & Hat & Hbelow & Habove).
  (* the state after the event has been put in its square *)
  assert (Hst1 : exists st1 p s,
    (if negb ok then
       Ret (mkSquares
              (<[fresh (dom (squareStore st))
                 := toleranceSquare.mk x y [event] refNode None None]>
                 (squareStore st))
              (take i (squares st)
               ++ fresh (dom (squareStore st)) :: drop i (squares st)))
     else
       match squares st !! i with
       | None => Panic indexOutOfRange
       | Some p =>
           match squareStore st !! p with
           | None => Panic nilDeref
           | Some s =>
               Ret (mkSquares
                      (<[p := toleranceSquare.set_Events
                                (toleranceSquare.Events s ++ [event])
                                (toleranceSquare.set_Node refNode s)]>
                         (squareStore st))
                      (squares st))
           end
       end) = Ret st1
    /\ column x st1 /\ squaresGrow st st1
    /\ squares st1 !! i = Some p /\ squareStore st1 !! p = Some s
    /\ feq (toleranceSquare.Y s) y = true
    /\ event ∈ toleranceSquare.Events s
    /\ toleranceSquare.Node s = refNode).
  { destruct ok; cbn [negb].
    - destruct (Hat eq_refl) as (p & s & Hp & Hs & HY).
      rewrite Hp, Hs. eexists. exists p. eexists.
      split; [reflexivity |].
      assert (Hg : squaresGrow st
                (mkSquares
                   (<[p := toleranceSquare.set_Events
                             (toleranceSquare.Events s ++ [event])
                             (toleranceSquare.set_Node refNode s)]>
                      (squareStore st))
                   (squares st))).
      { intros q t Hq. cbn [squareStore].
        destruct (decide (q = p)) as [-> |].
        - assert (t = s) as -> by congruence.
          rewrite lookup_insert_eq. eexists. split; [reflexivity |].
          cbn. repeat split. exists [event]. reflexivity.
        - rewrite lookup_insert_ne by done. exists t. repeat split; auto.
          exists []. rewrite app_nil_r. reflexivity. }
      split; [apply (column_grow x st); [exact Hc | reflexivity | exact Hg] |].
      split; [exact Hg |]. cbn [squares squareStore].
      split; [exact Hp |]. rewrite lookup_insert_eq.
      split; [reflexivity |]. cbn.
      split; [exact HY |]. split; [| reflexivity].
      apply elem_of_app. right. apply list_elem_of_singleton. reflexivity.
    - pose proof (fresh_None_squares (squareStore st)) as Hfresh.
      set (p := fresh (dom (squareStore st))) in *.
      eexists. exists p. eexists. split; [reflexivity |].
      split; [apply column_insert; auto |].
      split.
      { intros q t Hq. cbn [squareStore].
        rewrite lookup_insert_ne by congruence.
        exists t. repeat split; auto.
        exists []. rewrite app_nil_r. reflexivity. }
      cbn [squares squareStore].
      rewrite insert_at_lookup by exact Hi.
      destruct (decide (i < i)%nat); [lia |].
      destruct (decide (i = i)); [| done].
      split; [reflexivity |]. rewrite lookup_insert_eq.
      split; [reflexivity |]. cbn.
      split; [apply feq_refl; exact Hy |]. split; [| reflexivity].
      apply list_elem_of_singleton. reflexivity. }
  destruct Hst1 as (st1 & p & s & Hr1 & Hc1 & Hg1 & Hp1 & Hs1 & HY1 & Hin1 & Hn1).
  unfold toleranceSquares.Add. rewrite Hev. fold y. rewrite Hfind.
  cbn [obind]. rewrite Hr1. cbn [obind].
  destruct (left_ ev) eqn:Hl; cbn [negb].
  - exists st1, i, p, s. repeat split; auto.
  - destruct (Hother eq_refl) as (o & ov & Ho & Hov). rewrite Ho, Hov.
    destruct (renodeLoop_renoded x (node ov) refNode
                (length (squares st1)) st1) as (st2 & Hrun & Hre).
    { intros j q Hq. destruct (Hc1 j q Hq) as (t & Ht & _). eauto. }
    { lia. }
    exists st2, i, p.
    destruct Hre as [Hsq Hre'].
    destruct (Hre' p s Hs1) as [E | E].
    + exists s. rewrite Hsq.
      split; [exact Hrun |].
      split; [apply (column_grow x st1); auto;
              apply (renoded_grow refNode); split; auto |].
      split; [transitivity st1; [exact Hg1 |];
              apply (renoded_grow refNode); split; auto |].
      repeat split; auto.
    + exists (toleranceSquare.set_Node refNode s). rewrite Hsq.
      split; [exact Hrun |].
      split; [apply (column_grow x st1); auto;
              apply (renoded_grow refNode); split; auto |].
      split; [transitivity st1; [exact Hg1 |];
              apply (renoded_grow refNode); split; auto |].
      repeat split; auto.
Qed.

Lemma twoSquares_column : column (fZ 0) twoSquares.
Proof.
  intros j p Hp. destruct j as [| [| j]]; simpl in Hp; [| | discriminate].
  - injection Hp as <-. eexists. split; [vm_compute; reflexivity |].
    repeat split. intros p' Hp'. simpl in Hp'. injection Hp' as <-.
    eexists. split; [vm_compute; reflexivity |]. reflexivity.
  - injection Hp as <-. eexists. split; [vm_compute; reflexivity |].
    repeat split. intros p' Hp'. discriminate.
Qed.

Lemma find_position_witness :
  exists i ok,
    toleranceSquares.find twoSquares (fZ 0) (fZ 1) = Ret (i, ok)
    /\ (i <= length (squares twoSquares))%nat
    /\ (ok = true -> squareAt twoSquares (fZ 1) i)
    /\ (ok = false -> i = 0%nat \/ squareBelow twoSquares (fZ 1) (i - 1))
    /\ forall j, ((if ok then S i else i) <= j)%nat ->
                 (j < length (squares twoSquares))%nat ->
                 squareAbove twoSquares (fZ 1) j.
Proof.
  apply (find_position (fZ 0) (fZ 1) twoSquares);
    [exact twoSquares_column | reflexivity].
Defined.

Lemma Add_keeps_column_witness :
  exists st' j p s,
    toleranceSquares.Add (fun v _ => v) (heap crossState) (fZ 0) 4%nat
      (Some 7%nat) twoSquares = Ret st'
    /\ column (fZ 0) st' /\ squaresGrow twoSquares st'
    /\ squares st' !! j = Some p /\ squareStore st' !! p = Some s
    /\ feq (toleranceSquare.Y s) (fZ 1) = true
    /\ 4%nat ∈ toleranceSquare.Events s
    /\ toleranceSquare.Node s = Some 7%nat.
Proof.
  apply (Add_keeps_column (fun v _ => v) (heap crossState) (fZ 0) 4%nat
           (status_event (P 0 1) 5%nat 3 true (Some 2%nat))
           (Some 7%nat) twoSquares);
    [exact twoSquares_column | reflexivity | vm_compute; reflexivity
    | reflexivity | discriminate].
Defined.
